(** * The SAEM iteration engine of nlmixr2est ([src/saem.cpp])

    A shallow embedding of the parts of [saem.cpp] that the specification
    makes promises about and of the code around them, followed by the
    theorems that settle the promises and by further properties of the
    code.

    - C [double] is IEEE binary64, modelled by Rocq's primitive [float]:
      [+ - * /] and [sqrt] round as the hardware does, comparisons with a
      NaN are false, and [std::isnan] is [is_nan].
    - C [int] and [unsigned int] are [Z]; the cast [(unsigned int)(n)] is
      written out as reduction modulo [2^32].
    - Armadillo's [vec] is a [list double]; a [mat] keeps its dimensions and
      its elements in column-major order, as Armadillo stores them, so that
      linear indexing ([.elem]) and [(row, col)] indexing agree with the
      library.  A read out of range yields 0 and a write out of range does
      nothing (Armadillo raises an error there, or the behaviour is
      undefined for [operator[]]); no theorem below rests on such an access.
    - What lives outside the file (libm, rxode2's [_powerD]/[_powerDi],
      BLAS-backed Armadillo reductions, the minimizers) is an operation of
      the class [Extern]: every theorem holds for all of them. *)

From Stdlib Require Import ZArith List Floats Bool Lia String.
From Stdlib Require Uint63.
Import ListNotations.
Set Warnings "-inexact-float".
Local Open Scope float_scope.

(* ================================================================== *)
(** ** Numbers *)

Abbreviation double := float (only parsing).

(** [double_xmin] and [xmax], the clipping bounds that [saem.cpp] repeats
    in every function that clips. *)
Definition double_xmin : double := 1.0e-200.
Definition xmax : double := 1e300.

(** [(unsigned int)(n)] for an [int n]. *)
Definition uint32 (n : Z) : Z := (n mod 2 ^ 32)%Z.

(** [kiter > (unsigned int)(nb)] and [kiter <= (unsigned int)(nb)]. *)
Definition ugt (kiter nb : Z) : bool := (uint32 nb <? kiter)%Z.
Definition ule (kiter nb : Z) : bool := (kiter <=? uint32 nb)%Z.

(** Conversion of an integer operand to [double] (exact below 2^53). *)
Definition double_of_int (n : Z) : double :=
  if (n <? 0)%Z then - of_uint63 (Uint63.of_Z (- n)) else of_uint63 (Uint63.of_Z n).

Definition fabs (x : double) : double := abs x.

(* ================================================================== *)
(** ** Armadillo containers *)

Definition vec := list double.
Definition uvec := list nat.

(** [l[i] = x]. *)
Fixpoint upd {A : Type} (i : nat) (x : A) (l : list A) : list A :=
  match l, i with
  | [], _ => []
  | _ :: t, O => x :: t
  | h :: t, S i' => h :: upd i' x t
  end.

Fixpoint zipWith {A B C : Type} (f : A -> B -> C) (l : list A) (l' : list B)
  : list C :=
  match l, l' with
  | a :: t, b :: t' => f a b :: zipWith f t t'
  | _, _ => []
  end.

Definition at_ (v : vec) (i : nat) : double := nth i v 0.

(** [find(p)]: the indices at which [p] holds, in increasing order. *)
Fixpoint find_from (i : nat) (p : list bool) : uvec :=
  match p with
  | [] => []
  | b :: t => if b then i :: find_from (S i) t else find_from (S i) t
  end.
Definition find (p : list bool) : uvec := find_from 0 p.

(** [v(ix)]: the elements of [v] at the indices [ix]. *)
Definition elems (v : vec) (ix : uvec) : vec := map (at_ v) ix.

Record mat : Type := Mat { n_rows : nat; n_cols : nat; mem : list double }.

Definition mat_at (M : mat) (r c : nat) : double :=
  nth (r + c * n_rows M) (mem M) 0.

Definition mat_set (M : mat) (r c : nat) (x : double) : mat :=
  Mat (n_rows M) (n_cols M) (upd (r + c * n_rows M) x (mem M)).

Definition mat_init (n m : nat) (f : nat -> nat -> double) : mat :=
  Mat n m (map (fun k => f (k mod n)%nat (k / n)%nat) (seq 0 (n * m))).

Definition zeros (n m : nat) : mat := mat_init n m (fun _ _ => 0).

Definition mat_map (f : double -> double) (A : mat) : mat :=
  Mat (n_rows A) (n_cols A) (map f (mem A)).

Definition mat_map2 (f : double -> double -> double) (A B : mat) : mat :=
  Mat (n_rows A) (n_cols A) (zipWith f (mem A) (mem B)).

Definition mat_add : mat -> mat -> mat := mat_map2 (fun a b => a + b).
Definition mat_sub : mat -> mat -> mat := mat_map2 (fun a b => a - b).
(** [A % B], the element-wise product. *)
Definition mat_schur : mat -> mat -> mat := mat_map2 (fun a b => a * b).
(** [A * s] and [A / s] for a scalar [s]. *)
Definition mat_scale (A : mat) (s : double) : mat := mat_map (fun x => x * s) A.
Definition scale_mat (s : double) (A : mat) : mat := mat_map (fun x => s * x) A.
Definition mat_div (A : mat) (s : double) : mat := mat_map (fun x => x / s) A.
(** [max(A, B)], element-wise, with [std::max]'s choice: [a < b ? b : a]. *)
Definition mat_max : mat -> mat -> mat :=
  mat_map2 (fun a b => if a <? b then b else a).

(** [A.diag()] of a square matrix. *)
Definition diag (A : mat) : vec :=
  map (fun j => mat_at A j j) (seq 0 (n_rows A)).

(** [diagmat(A)]: [A] with everything off the main diagonal set to zero. *)
Definition diagmat (A : mat) : mat :=
  mat_init (n_rows A) (n_cols A)
    (fun r c => if (r =? c)%nat then mat_at A r c else 0).

(** [diagmat(v)] for a vector. *)
Definition diagmat_vec (v : vec) : mat :=
  mat_init (List.length v) (List.length v)
    (fun r c => if (r =? c)%nat then at_ v r else 0).

(** [A.elem(ix) = B(ix)]: linear (column-major) indices. *)
Definition set_elems (A : mat) (ix : uvec) (B : mat) : mat :=
  fold_left (fun M k => Mat (n_rows M) (n_cols M) (upd k (nth k (mem B) 0) (mem M)))
            ix A.

(** [A(rows, cols) = B(rows, cols)]. *)
Definition set_submat (A : mat) (rows cols : uvec) (B : mat) : mat :=
  fold_left
    (fun M c => fold_left (fun M' r => mat_set M' r c (mat_at B r c)) rows M)
    cols A.

(** [A.rows(first, first + count - 1)] and [A.cols(ix)]. *)
Definition mat_rows (A : mat) (first count : nat) : mat :=
  mat_init count (n_cols A) (fun r c => mat_at A (first + r) c).
Definition mat_cols (A : mat) (ix : uvec) : mat :=
  mat_init (n_rows A) (List.length ix) (fun r c => mat_at A r (nth c ix O)).

(** [v(ix) = w(ix)] for vectors. *)
Definition set_vec_elems (v : vec) (ix : uvec) (w : vec) : vec :=
  fold_left (fun u k => upd k (at_ w k) u) ix v.

(* ================================================================== *)
(** ** What [saem.cpp] calls and does not define *)

(** [log] and [pow] are libm's.  [_powerD x lambda yj low hi] and its
    inverse [_powerDi] are rxode2's power/Box-Cox transform.  [dot] is
    [arma::dot] and [crossprod A] is [A.t() * A]; the order in which they
    add up is Armadillo's (and BLAS's) business.  [nelder_fn] is the
    Nelder-Mead minimizer ([func], [n], [start], [step], [itmax],
    [ftol_rel]; it returns [xmin]), [optimize1] is R's [.saemOpt1] and
    [newuoa] is R's [.newuoa], which yields [None] when its value is NA. *)
Class Extern : Type := {
  log : double -> double;
  pow : double -> double -> double;
  _powerD : double -> double -> Z -> double -> double -> double;
  _powerDi : double -> double -> Z -> double -> double -> double;
  dot : vec -> vec -> double;
  crossprod : mat -> mat;
  nelder_fn : (vec -> double) -> nat -> vec -> vec -> Z -> double -> vec;
  optimize1 : (vec -> double) -> double -> double;
  newuoa : (vec -> double) -> vec -> double -> Z -> option vec
}.

(* ================================================================== *)
(** ** Residual models and the file's global variables *)

(** The [res_mod] defines. *)
Definition rmAdd : Z := 1.
Definition rmProp : Z := 2.
Definition rmPow : Z := 3.
Definition rmAddProp : Z := 4.
Definition rmAddPow : Z := 5.
Definition rmAddLam : Z := 6.
Definition rmPropLam : Z := 7.
Definition rmPowLam : Z := 8.
Definition rmAddPropLam : Z := 9.
Definition rmAddPowLam : Z := 10.

(** The objective a [fn_ptr] points to. *)
Inductive fn_ptr : Type :=
  Obj | ObjC | ObjD | ObjE | ObjF | ObjG | ObjH | ObjI.

(** The process-wide variables the objectives and [_saemOpt] read. *)
Record globals : Type := {
  _saemYptr : vec;
  _saemFptr : vec;
  _saemLen : nat;
  _saemYj : Z;
  _saemAddProp : Z;
  _saemLambda : double;
  _saemLow : double;
  _saemHi : double;
  _saemFn : fn_ptr;
  _saemStart : vec;
  _saemStep : vec;
  _saemLambdaR : double;
  _saemPowR : double;
  _saemPropT : Z;
  _saemFixedIdx : list Z;
  _saemFixedValue : vec;
  _saemItmax : Z;
  _saemTol : double;
  _saemType : Z
}.

(** [handleF]: which prediction a proportional or power term scales with. *)
Definition handleF (powt : Z) (ft f : double) (trunc adjustF : bool) : double :=
  let fa := if (powt =? 0)%Z then f else ft in
  let fa := if adjustF && (fa =? 0) then 1 else fa in
  if trunc then
    if fa <? double_xmin then double_xmin
    else if xmax <? fa then xmax else fa
  else fa.

Section Objectives.
Context {E : Extern}.
Variable G : globals.

(** The macros [toLambda], [toLambdaEst], [toPow] and [toPowEst]. *)
Definition clamp99 (R x : double) : double :=
  if x <? - 0.99 * R then - 0.99 * R
  else if 0.99 * R <? x then 0.99 * R else x.

Definition toLambda (x : double) : double :=
  _powerDi x 1 4 (- _saemLambdaR G) (_saemLambdaR G).
Definition toLambdaEst (x : double) : double :=
  _powerD (clamp99 (_saemLambdaR G) x) 1 4 (- _saemLambdaR G) (_saemLambdaR G).
Definition toPow (x : double) : double :=
  _powerDi x 1 4 (- _saemPowR G) (_saemPowR G).
Definition toPowEst (x : double) : double :=
  _powerD (clamp99 (_saemPowR G) x) 1 4 (- _saemPowR G) (_saemPowR G).

(** The head of every objective, once per coordinate [k]:
    [if (_saemFixedIdx[k] == 1) v = _saemFixedValue[k]; else v = ab[curi++];]
    The result is the value together with the advanced [curi]. *)
Definition next_par (k : nat) (ab : vec) (curi : nat) : double * nat :=
  if (nth k (_saemFixedIdx G) 0 =? 1)%Z
  then (nth k (_saemFixedValue G) 0, curi)
  else (nth curi ab 0, S curi).

(** The two clipping statements [if (g < xmin) g = xmin; if (g > xmax) g = xmax;]. *)
Definition clip (g : double) : double :=
  let g := if g <? double_xmin then double_xmin else g in
  if xmax <? g then xmax else g.

(** The loop [for (i=0, sum=0; i<_saemLen; ++i) { ...; sum += cur*cur + 2*log(g); }]
    over the first [_saemLen] observations; [body f y] yields the
    transformed prediction, the transformed observation and the clipped [g]. *)
Definition obs_loop (body : double -> double -> double * double * double) : double :=
  fold_left
    (fun sum (fy : double * double) =>
       let '(ft, ytr, g) := body (fst fy) (snd fy) in
       let cur := (ytr - ft) / g in
       sum + (cur * cur + 2 * log g))
    (firstn (_saemLen G) (combine (_saemFptr G) (_saemYptr G))) 0.

(** add + prop *)
Definition obj (ab : vec) : double :=
  let '(ab02, curi) := next_par 0 ab 0 in
  let '(ab12, curi) := next_par 1 ab curi in
  let ab02 := ab02 * ab02 in
  let ab12 := ab12 * ab12 in
  obs_loop (fun f y =>
    let ft := _powerD f (_saemLambda G) (_saemYj G) (_saemLow G) (_saemHi G) in
    let ytr := _powerD y (_saemLambda G) (_saemYj G) (_saemLow G) (_saemHi G) in
    let fa := handleF (_saemPropT G) ft f false false in
    let g := if (_saemAddProp G =? 1)%Z then ab02 + ab12 * fa
             else sqrt (ab02 * ab02 + ab12 * ab12 * fa * fa) in
    (ft, ytr, clip g)).

(** add + pow *)
Definition objC (ab : vec) : double :=
  let '(ab02, curi) := next_par 0 ab 0 in
  let '(ab12, curi) := next_par 1 ab curi in
  let '(ab22, curi) := next_par 2 ab curi in
  let pw := toPow ab22 in
  obs_loop (fun f y =>
    let ft := _powerD f (_saemLambda G) (_saemYj G) (_saemLow G) (_saemHi G) in
    let ytr := _powerD y (_saemLambda G) (_saemYj G) (_saemLow G) (_saemHi G) in
    let fa := handleF (_saemPropT G) ft f false false in
    let g := if (_saemAddProp G =? 1)%Z then ab02 * ab02 + ab12 * ab12 * pow fa pw
             else
               let ab0 := ab02 * ab02 in
               let ab1 := ab12 * ab12 in
               ab0 * ab0 + ab1 * ab1 * pow fa (2 * pw) in
    (ft, ytr, clip g)).

(** power only *)
Definition objD (ab : vec) : double :=
  let '(ab02, curi) := next_par 0 ab 0 in
  let '(ab12, curi) := next_par 1 ab curi in
  let pw := toPow ab12 in
  obs_loop (fun f y =>
    let ft := _powerD f (_saemLambda G) (_saemYj G) (_saemLow G) (_saemHi G) in
    let ytr := _powerD y (_saemLambda G) (_saemYj G) (_saemLow G) (_saemHi G) in
    let fa := handleF (_saemPropT G) ft f false true in
    let g := ab02 * ab02 * pow fa pw in
    (ft, ytr, clip g)).

(** add + lambda *)
Definition objE (ab : vec) : double :=
  let '(ab02, curi) := next_par 0 ab 0 in
  let '(ab12, curi) := next_par 1 ab curi in
  let lambda := toLambda ab12 in
  obs_loop (fun f y =>
    let ft := _powerD f lambda (_saemYj G) (_saemLow G) (_saemHi G) in
    let ytr := _powerD y lambda (_saemYj G) (_saemLow G) (_saemHi G) in
    let g := ab02 * ab02 in
    (ft, ytr, clip g)).

(** prop + lambda *)
Definition objF (ab : vec) : double :=
  let '(ab02, curi) := next_par 0 ab 0 in
  let '(ab12, curi) := next_par 1 ab curi in
  let lambda := toLambda ab12 in
  obs_loop (fun f y =>
    let ft := _powerD f lambda (_saemYj G) (_saemLow G) (_saemHi G) in
    let ytr := _powerD y lambda (_saemYj G) (_saemLow G) (_saemHi G) in
    let fa := handleF (_saemPropT G) ft f false true in
    let g := ab02 * ab02 * fa in
    let g := if g =? 0 then 1 else g in
    (ft, ytr, clip g)).

(** pow + lambda *)
Definition objG (ab : vec) : double :=
  let '(ab02, curi) := next_par 0 ab 0 in
  let '(ab12, curi) := next_par 1 ab curi in
  let '(ab22, curi) := next_par 2 ab curi in
  let lambda := toLambda ab22 in
  let pw := toPow ab12 in
  obs_loop (fun f y =>
    let ft := _powerD f lambda (_saemYj G) (_saemLow G) (_saemHi G) in
    let ytr := _powerD y lambda (_saemYj G) (_saemLow G) (_saemHi G) in
    let fa := handleF (_saemPropT G) ft f false true in
    let g := ab02 * ab02 * pow fa pw in
    let g := if g =? 0 then 1 else g in
    (ft, ytr, clip g)).

(** add + prop + lambda *)
Definition objH (ab : vec) : double :=
  let '(ab02, curi) := next_par 0 ab 0 in
  let '(ab12, curi) := next_par 1 ab curi in
  let '(ab22, curi) := next_par 2 ab curi in
  let lambda := toLambda ab22 in
  obs_loop (fun f y =>
    let ft := _powerD f lambda (_saemYj G) (_saemLow G) (_saemHi G) in
    let ytr := _powerD y lambda (_saemYj G) (_saemLow G) (_saemHi G) in
    let fa := handleF (_saemPropT G) ft f false false in
    let g := if (_saemAddProp G =? 1)%Z then ab02 * ab02 + ab12 * ab12 * fa
             else
               let ab0 := ab02 * ab02 in
               let ab1 := ab12 * ab12 in
               sqrt (ab0 * ab0 + ab1 * ab1 * fa * fa) in
    (ft, ytr, clip g)).

(** add + pow + lambda *)
Definition objI (ab : vec) : double :=
  let '(ab02, curi) := next_par 0 ab 0 in
  let '(ab12, curi) := next_par 1 ab curi in
  let '(ab22, curi) := next_par 2 ab curi in
  let '(ab32, curi) := next_par 3 ab curi in
  let lambda := toLambda ab32 in
  let pw := toPow ab22 in
  obs_loop (fun f y =>
    let ft := _powerD f lambda (_saemYj G) (_saemLow G) (_saemHi G) in
    let ytr := _powerD y lambda (_saemYj G) (_saemLow G) (_saemHi G) in
    let fa := handleF (_saemPropT G) ft f false false in
    let g := if (_saemAddProp G =? 1)%Z then ab02 * ab02 + ab12 * ab12 * pow fa pw
             else
               let ab0 := ab02 * ab02 in
               let ab1 := ab12 * ab12 in
               let fa := pow fa pw in
               sqrt (ab0 * ab0 + ab1 * ab1 * fa * fa) in
    (ft, ytr, clip g)).

(** Calling through [_saemFn]. *)
Definition call_saemFn (ab : vec) : double :=
  match _saemFn G with
  | Obj => obj ab | ObjC => objC ab | ObjD => objD ab | ObjE => objE ab
  | ObjF => objF ab | ObjG => objG ab | ObjH => objH ab | ObjI => objI ab
  end.

End Objectives.

(* ================================================================== *)
(** ** The members of [class SAEM] that [inits] sets and the loop reads *)

Record config : Type := {
  niter : Z;
  nmc : Z;
  Nsub : nat;                      (* N *)
  ntotal : nat;
  nendpnt : nat;
  distribution : Z;
  pas : vec;
  minv : vec;
  (* covariance of the random effects *)
  nphi1 : nat;
  nphi0 : nat;
  i1 : uvec;
  i0 : uvec;
  nb_sa : Z;
  coef_sa : double;
  nb_correl : Z;
  nb_fixOmega : Z;
  covstruct1 : mat;
  Gamma2_phi1fixed : Z;
  Gamma2_phi1fixedIx : uvec;
  Gamma2_phi1fixedValues : mat;
  niter_phi0 : Z;
  coef_phi0 : double;
  (* residual models *)
  nb_fixResid : Z;
  resValue : vec;
  resFixed : list Z;
  res_mod : list Z;
  res_offset : uvec;
  yj : list Z;
  propT : list Z;
  addProp : list Z;
  lambda : vec;
  low : vec;
  hi : vec;
  ix_endpnt : uvec;
  ix_sorting : uvec;
  y_offset : uvec;
  ys : vec;
  ysM : vec
}.

(** [ares], [bres], [cres] and [lres]: one entry per endpoint. *)
Record res_pars : Type := {
  ares : vec;
  bres : vec;
  cres : vec;
  lres : vec
}.

Inductive res_par : Type := Ares | Bres | Cres | Lres.

(** [X(b)] and [X(b) = v]. *)
Definition get_par (X : res_par) (b : nat) (r : res_pars) : double :=
  match X with
  | Ares => at_ (ares r) b
  | Bres => at_ (bres r) b
  | Cres => at_ (cres r) b
  | Lres => at_ (lres r) b
  end.

Definition set_par (X : res_par) (b : nat) (v : double) (r : res_pars) : res_pars :=
  match X with
  | Ares => {| ares := upd b v (ares r); bres := bres r; cres := cres r; lres := lres r |}
  | Bres => {| ares := ares r; bres := upd b v (bres r); cres := cres r; lres := lres r |}
  | Cres => {| ares := ares r; bres := bres r; cres := upd b v (cres r); lres := lres r |}
  | Lres => {| ares := ares r; bres := bres r; cres := cres r; lres := upd b v (lres r) |}
  end.

(* ================================================================== *)
(** ** [_saemOpt] *)

Section Optimizer.
Context {E : Extern}.

(** [for (i < n) pxmin[i] = x[i]].  Where [n] exceeds the size of [pxmin]
    (the cases with three or four coordinates, [rmAddPow] apart, allocate
    [vec xmin(2)]) the writes are out of bounds in C++; the model keeps
    them. *)
Definition copy_front (n : nat) (x pxmin : vec) : vec :=
  firstn n x ++ skipn n pxmin.

Definition run_nelder (G : globals) (n : nat) (pxmin : vec) : vec :=
  copy_front n
    (nelder_fn (call_saemFn G) n (_saemStart G) (_saemStep G)
               (_saemItmax G * Z.of_nat n) (_saemTol G))
    pxmin.

Definition _saemOpt (G : globals) (n : nat) (pxmin : vec) : vec :=
  match n with
  | O => pxmin
  | 1%nat => upd 0 (optimize1 (call_saemFn G) (at_ (_saemStart G) 0)) pxmin
  | _ =>
      if (_saemType G =? 1)%Z then run_nelder G n pxmin
      else if (_saemType G =? 2)%Z then
        match newuoa (call_saemFn G) (firstn n (_saemStart G)) (_saemTol G)
                     (_saemItmax G * Z.of_nat n * Z.of_nat n) with
        | None => run_nelder G n pxmin
        | Some x => copy_front n x pxmin
        end
      else pxmin
  end.

End Optimizer.

(* ================================================================== *)
(** ** The residual-model fitter (the endpoint loop of [saem_fit]) *)

Section Fitter.
Context {E : Extern}.
Variable c : config.
Variable kiter : Z.
(** [fsM]: the predictions of all chains, sorted by endpoint. *)
Variable fsM : vec.
(** What a freshly allocated [vec xmin(k)] holds at index [i]. *)
Variable junk : nat -> double.

Definition alloc (k : nat) : vec := map junk (seq 0 k).

Definition post_burnin : bool := ugt kiter (nb_fixResid c).
Definition pas_k : double := at_ (pas c) (Z.to_nat kiter).

(** [x + pas(kiter)*(cand - x)]. *)
Definition blend (x cand : double) : double := x + pas_k * (cand - x).

Definition sq (x : double) : double := x * x.
(** [sqrt(fabs(x))]. *)
Definition sd0 (x : double) : double := sqrt (fabs x).

(** The variables the first half of a case works on. *)
Record prep : Type := {
  p_res : res_pars;
  p_idx : list Z;                  (* _saemFixedIdx *)
  p_val : vec;                     (* _saemFixedValue *)
  p_start : vec;                   (* start[] *)
  p_curi : nat;
  p_n : nat
}.

(** [n = 0; int curi = 0;] *)
Definition restart (p : prep) : prep :=
  {| p_res := p_res p; p_idx := p_idx p; p_val := p_val p;
     p_start := p_start p; p_curi := 0; p_n := 0 |}.

(** Coordinate [j] of a case, before the minimizer runs:
<<
    if (resFixed[offsetR + j] == 1) {
      X(b) = resValue[offsetR + j];
      _saemFixedIdx[j] = 1;
      _saemFixedValue[j] = enc(X(b));
    } else {
      start[curi++] = enc(X(b));
      n++;
    }
>> *)
Definition fix_or_start (b offsetR j : nat) (X : res_par)
           (enc : double -> double) (p : prep) : prep :=
  if (nth (offsetR + j) (resFixed c) 0 =? 1)%Z then
    let r := set_par X b (at_ (resValue c) (offsetR + j)) (p_res p) in
    {| p_res := r;
       p_idx := upd j 1%Z (p_idx p);
       p_val := upd j (enc (get_par X b r)) (p_val p);
       p_start := p_start p; p_curi := p_curi p; p_n := p_n p |}
  else
    {| p_res := p_res p; p_idx := p_idx p; p_val := p_val p;
       p_start := upd (p_curi p) (enc (get_par X b (p_res p))) (p_start p);
       p_curi := S (p_curi p);
       p_n := S (p_n p) |}.

(** Coordinate [j] of a case, after the minimizer ran:
<<
    if (resFixed[offsetR + j] == 0) {
      double v = pxmin[curi++];
      X(b) = X(b) + pas(kiter)*(dec(v) - X(b));
    }
>> *)
Definition adjust_back (b offsetR j : nat) (X : res_par)
           (dec : double -> double) (pxmin : vec) (s : res_pars * nat)
  : res_pars * nat :=
  let '(r, curi) := s in
  if (nth (offsetR + j) (resFixed c) 0 =? 0)%Z then
    let v := at_ pxmin curi in
    (set_par X b (blend (get_par X b r) (dec v)) r, S curi)
  else (r, curi).

(** [X(b) = X(b) + pas(kiter)*(cand - X(b))]. *)
Definition blend_par (X : res_par) (b : nat) (cand : double) (r : res_pars)
  : res_pars :=
  set_par X b (blend (get_par X b r) cand) r.

(** The assignments to the globals just before [_saemOpt] is called. *)
Definition set_globals (G : globals) (b : nat) (fn : fn_ptr) (step : vec)
           (p : prep) : globals :=
  let idx := find (map (fun e => (e =? b)%nat) (ix_endpnt c)) in
  let ysb := elems (ysM c) idx in
  let fsb := elems fsM idx in
  {| _saemYptr := ysb;
     _saemFptr := fsb;
     _saemLen := List.length ysb;
     _saemYj := nth b (yj c) 0%Z;
     _saemAddProp := nth b (addProp c) 0%Z;
     _saemLambda := at_ (lambda c) b;
     _saemLow := at_ (low c) b;
     _saemHi := at_ (hi c) b;
     _saemFn := fn;
     _saemStart := p_start p;
     _saemStep := step;
     _saemLambdaR := _saemLambdaR G;
     _saemPowR := _saemPowR G;
     _saemPropT := nth b (propT c) 0%Z;
     _saemFixedIdx := p_idx p;
     _saemFixedValue := p_val p;
     _saemItmax := _saemItmax G;
     _saemTol := _saemTol G;
     _saemType := _saemType G |}.

(** The state of a case when it starts: [_saemFixedIdx] was just zeroed,
    [start] holds every coordinate and [n] counts them all. *)
Definition prep0 (G : globals) (r : res_pars) (start : vec) : prep :=
  {| p_res := r; p_idx := [0; 0; 0; 0]%Z; p_val := _saemFixedValue G;
     p_start := start; p_curi := 0; p_n := List.length start |}.

(** [case rmAddProp] *)
Definition prep_rmAddProp (G : globals) (r : res_pars) (b offsetR : nat) : prep :=
  let p := prep0 G r [sd0 (at_ (ares r) b); sd0 (at_ (bres r) b)] in
  if post_burnin then
    fix_or_start b offsetR 1 Bres sd0
      (fix_or_start b offsetR 0 Ares sd0 (restart p))
  else p.

Definition fit_rmAddProp (G : globals) (r : res_pars) (b offsetR : nat)
  : res_pars * globals :=
  let p := prep_rmAddProp G r b offsetR in
  let G' := set_globals G b Obj [-0.2; -0.2] p in
  let pxmin := _saemOpt G' (p_n p) (alloc 2) in
  let r' :=
    if post_burnin then
      fst (adjust_back b offsetR 1 Bres sq pxmin
             (adjust_back b offsetR 0 Ares sq pxmin (p_res p, O)))
    else
      let ab02 := at_ pxmin 0 in
      let ab12 := at_ pxmin 1 in
      blend_par Bres b (ab12 * ab12) (blend_par Ares b (ab02 * ab02) (p_res p)) in
  (r', G').

(** [case rmAddPow] *)
Definition prep_rmAddPow (G : globals) (r : res_pars) (b offsetR : nat) : prep :=
  let p := prep0 G r [sd0 (at_ (ares r) b); sd0 (at_ (bres r) b);
                      toPowEst G (at_ (cres r) b)] in
  if post_burnin then
    fix_or_start b offsetR 2 Cres (toPowEst G)
      (fix_or_start b offsetR 1 Bres sd0
         (fix_or_start b offsetR 0 Ares sd0 (restart p)))
  else p.

Definition fit_rmAddPow (G : globals) (r : res_pars) (b offsetR : nat)
  : res_pars * globals :=
  let p := prep_rmAddPow G r b offsetR in
  let G' := set_globals G b ObjC [-0.2; -0.2; -0.2] p in
  let pxmin := _saemOpt G' (p_n p) (alloc 3) in
  let r' :=
    if post_burnin then
      fst (adjust_back b offsetR 2 Cres (toPow G) pxmin
             (adjust_back b offsetR 1 Bres sq pxmin
                (adjust_back b offsetR 0 Ares sq pxmin (p_res p, O))))
    else
      blend_par Cres b (toPow G (at_ pxmin 2))
        (blend_par Bres b (at_ pxmin 1 * at_ pxmin 1)
           (blend_par Ares b (at_ pxmin 0 * at_ pxmin 0) (p_res p))) in
  (r', G').

(** [case rmPow] *)
Definition prep_rmPow (G : globals) (r : res_pars) (b offsetR : nat) : prep :=
  let p := prep0 G r [sd0 (at_ (bres r) b); toPowEst G (at_ (cres r) b)] in
  if post_burnin then
    fix_or_start b offsetR 1 Cres (toPowEst G)
      (fix_or_start b offsetR 0 Bres sd0 (restart p))
  else p.

Definition fit_rmPow (G : globals) (r : res_pars) (b offsetR : nat)
  : res_pars * globals :=
  let p := prep_rmPow G r b offsetR in
  let G' := set_globals G b ObjD [-0.2; -0.2] p in
  let pxmin := _saemOpt G' (p_n p) (alloc 2) in
  let r' :=
    if post_burnin then
      fst (adjust_back b offsetR 1 Cres (toPow G) pxmin
             (adjust_back b offsetR 0 Bres sq pxmin (p_res p, O)))
    else
      blend_par Cres b (toPow G (at_ pxmin 1))
        (blend_par Bres b (at_ pxmin 0 * at_ pxmin 1) (p_res p)) in
  (r', G').

(** [case rmAddLam] *)
Definition prep_rmAddLam (G : globals) (r : res_pars) (b offsetR : nat) : prep :=
  let p := prep0 G r [sd0 (at_ (ares r) b); toLambdaEst G (at_ (lres r) b)] in
  if post_burnin then
    fix_or_start b offsetR 1 Lres (toLambdaEst G)
      (fix_or_start b offsetR 0 Ares sd0 (restart p))
  else p.

Definition fit_rmAddLam (G : globals) (r : res_pars) (b offsetR : nat)
  : res_pars * globals :=
  let p := prep_rmAddLam G r b offsetR in
  let G' := set_globals G b ObjE [-0.2; -0.2] p in
  let pxmin := _saemOpt G' (p_n p) (alloc 2) in
  let r' :=
    if post_burnin then
      fst (adjust_back b offsetR 1 Lres (toLambda G) pxmin
             (adjust_back b offsetR 0 Ares sq pxmin (p_res p, O)))
    else
      blend_par Lres b (toLambda G (at_ pxmin 1))
        (blend_par Ares b (at_ pxmin 0 * at_ pxmin 0) (p_res p)) in
  (r', G').

(** [case rmPropLam] *)
Definition prep_rmPropLam (G : globals) (r : res_pars) (b offsetR : nat) : prep :=
  let p := prep0 G r [sd0 (at_ (bres r) b); toLambdaEst G (at_ (lres r) b)] in
  if post_burnin then
    fix_or_start b offsetR 1 Lres (toLambdaEst G)
      (fix_or_start b offsetR 0 Bres sd0 (restart p))
  else p.

Definition fit_rmPropLam (G : globals) (r : res_pars) (b offsetR : nat)
  : res_pars * globals :=
  let p := prep_rmPropLam G r b offsetR in
  let G' := set_globals G b ObjF [-0.2; -0.2] p in
  let pxmin := _saemOpt G' (p_n p) (alloc 2) in
  let r' :=
    if post_burnin then
      fst (adjust_back b offsetR 1 Lres (toLambda G) pxmin
             (adjust_back b offsetR 0 Bres sq pxmin (p_res p, O)))
    else
      blend_par Lres b (toLambda G (at_ pxmin 1))
        (blend_par Bres b (at_ pxmin 0 * at_ pxmin 0) (p_res p)) in
  (r', G').

(** [case rmPowLam] *)
Definition prep_rmPowLam (G : globals) (r : res_pars) (b offsetR : nat) : prep :=
  let p := prep0 G r [sd0 (at_ (bres r) b); toPowEst G (at_ (cres r) b);
                      toLambdaEst G (at_ (lres r) b)] in
  if post_burnin then
    fix_or_start b offsetR 2 Lres (toLambdaEst G)
      (fix_or_start b offsetR 1 Cres (toPowEst G)
         (fix_or_start b offsetR 0 Bres sd0 (restart p)))
  else p.

Definition fit_rmPowLam (G : globals) (r : res_pars) (b offsetR : nat)
  : res_pars * globals :=
  let p := prep_rmPowLam G r b offsetR in
  let G' := set_globals G b ObjG [-0.2; -0.2; -0.2] p in
  let pxmin := _saemOpt G' (p_n p) (alloc 2) in
  let r' :=
    if post_burnin then
      fst (adjust_back b offsetR 2 Lres (toLambda G) pxmin
             (adjust_back b offsetR 1 Cres (toPow G) pxmin
                (adjust_back b offsetR 0 Bres sq pxmin (p_res p, O))))
    else
      blend_par Lres b (toLambda G (at_ pxmin 2))
        (blend_par Cres b (toPow G (at_ pxmin 1))
           (blend_par Bres b (at_ pxmin 0 * at_ pxmin 0) (p_res p))) in
  (r', G').

(** [case rmAddPropLam] *)
Definition prep_rmAddPropLam (G : globals) (r : res_pars) (b offsetR : nat) : prep :=
  let p := prep0 G r [sd0 (at_ (ares r) b); sd0 (at_ (bres r) b);
                      toLambdaEst G (at_ (lres r) b)] in
  if post_burnin then
    fix_or_start b offsetR 2 Lres (toLambdaEst G)
      (fix_or_start b offsetR 1 Bres sd0
         (fix_or_start b offsetR 0 Ares sd0 (restart p)))
  else p.

Definition fit_rmAddPropLam (G : globals) (r : res_pars) (b offsetR : nat)
  : res_pars * globals :=
  let p := prep_rmAddPropLam G r b offsetR in
  let G' := set_globals G b ObjH [-0.2; -0.2; -0.2] p in
  let pxmin := _saemOpt G' (p_n p) (alloc 2) in
  let r' :=
    if post_burnin then
      fst (adjust_back b offsetR 2 Lres (toLambda G) pxmin
             (adjust_back b offsetR 1 Bres sq pxmin
                (adjust_back b offsetR 0 Ares sq pxmin (p_res p, O))))
    else
      blend_par Lres b (toLambda G (at_ pxmin 2))
        (blend_par Bres b (at_ pxmin 1 * at_ pxmin 1)
           (blend_par Ares b (at_ pxmin 0 * at_ pxmin 0) (p_res p))) in
  (r', G').

(** [case rmAddPowLam] *)
Definition prep_rmAddPowLam (G : globals) (r : res_pars) (b offsetR : nat) : prep :=
  let p := prep0 G r [sd0 (at_ (ares r) b); sd0 (at_ (bres r) b);
                      toPowEst G (at_ (cres r) b);
                      toLambdaEst G (at_ (lres r) b)] in
  if post_burnin then
    fix_or_start b offsetR 3 Lres (toLambdaEst G)
      (fix_or_start b offsetR 2 Cres (toPowEst G)
         (fix_or_start b offsetR 1 Bres sd0
            (fix_or_start b offsetR 0 Ares sd0 (restart p))))
  else p.

Definition fit_rmAddPowLam (G : globals) (r : res_pars) (b offsetR : nat)
  : res_pars * globals :=
  let p := prep_rmAddPowLam G r b offsetR in
  let G' := set_globals G b ObjI [-0.2; -0.2; -0.2; -0.2] p in
  let pxmin := _saemOpt G' (p_n p) (alloc 2) in
  let r' :=
    if post_burnin then
      fst (adjust_back b offsetR 3 Lres (toLambda G) pxmin
             (adjust_back b offsetR 2 Cres (toPow G) pxmin
                (adjust_back b offsetR 1 Bres sq pxmin
                   (adjust_back b offsetR 0 Ares sq pxmin (p_res p, O)))))
    else
      blend_par Lres b (toLambda G (at_ pxmin 3))
        (blend_par Cres b (toPow G (at_ pxmin 2))
           (blend_par Bres b (at_ pxmin 1 * at_ pxmin 1)
              (blend_par Ares b (at_ pxmin 0 * at_ pxmin 0) (p_res p)))) in
  (r', G').

(** [_saemFixedIdx[0] = ... = _saemFixedIdx[3] = 0;] *)
Definition reset_FixedIdx (G : globals) : globals :=
  {| _saemYptr := _saemYptr G; _saemFptr := _saemFptr G; _saemLen := _saemLen G;
     _saemYj := _saemYj G; _saemAddProp := _saemAddProp G;
     _saemLambda := _saemLambda G; _saemLow := _saemLow G; _saemHi := _saemHi G;
     _saemFn := _saemFn G; _saemStart := _saemStart G; _saemStep := _saemStep G;
     _saemLambdaR := _saemLambdaR G; _saemPowR := _saemPowR G;
     _saemPropT := _saemPropT G;
     _saemFixedIdx := [0; 0; 0; 0]%Z;
     _saemFixedValue := _saemFixedValue G;
     _saemItmax := _saemItmax G; _saemTol := _saemTol G; _saemType := _saemType G |}.

(** The body of [for (int b=0; b<nendpnt; ++b)] up to the end of the
    [switch]: the new residual parameters, the globals, and [sig2]. *)
Definition fit_endpoint (G : globals) (r : res_pars) (statrese : vec) (b : nat)
  : res_pars * globals * double :=
  let sig2 := at_ statrese b /
              double_of_int (Z.of_nat (nth (S b) (y_offset c) O - nth b (y_offset c) O)) in
  let offsetR := nth b (res_offset c) O in
  let G := reset_FixedIdx G in
  let m := nth b (res_mod c) 0%Z in
  if (m =? rmAdd)%Z then
    if (nth offsetR (resFixed c) 0 =? 1)%Z && post_burnin
    then (set_par Ares b (at_ (resValue c) offsetR) r, G, sig2)
    else (set_par Ares b (sqrt sig2) r, G, sig2)
  else if (m =? rmProp)%Z then
    if (nth offsetR (resFixed c) 0 =? 1)%Z && post_burnin
    then (set_par Bres b (at_ (resValue c) offsetR) r, G, sig2)
    else
      let sig2 := if sig2 =? 0 then 1 else sig2 in
      (set_par Bres b (sqrt sig2) r, G, sig2)
  else if (m =? rmAddProp)%Z then (fit_rmAddProp G r b offsetR, sig2)
  else if (m =? rmAddPow)%Z then (fit_rmAddPow G r b offsetR, sig2)
  else if (m =? rmPow)%Z then (fit_rmPow G r b offsetR, sig2)
  else if (m =? rmAddLam)%Z then (fit_rmAddLam G r b offsetR, sig2)
  else if (m =? rmPropLam)%Z then (fit_rmPropLam G r b offsetR, sig2)
  else if (m =? rmPowLam)%Z then (fit_rmPowLam G r b offsetR, sig2)
  else if (m =? rmAddPropLam)%Z then (fit_rmAddPropLam G r b offsetR, sig2)
  else if (m =? rmAddPowLam)%Z then (fit_rmAddPowLam G r b offsetR, sig2)
  else (r, G, sig2).

(** The last three statements of the loop body:
    [sigma2[b] = sig2; if (sigma2[b]>1.0e99) sigma2[b] = 1.0e99;
     if (std::isnan(sigma2[b])) sigma2[b] = 1.0e99;] *)
Definition store_sigma2 (sig2 : double) : double :=
  let s := sig2 in
  let s := if 1.0e99 <? s then 1.0e99 else s in
  if is_nan s then 1.0e99 else s.

(** The whole loop over the endpoints. *)
Definition fit_residuals (G : globals) (r : res_pars) (statrese sigma2 : vec)
  : res_pars * globals * vec :=
  fold_left
    (fun (s : res_pars * globals * vec) b =>
       let '(r, G, sigma2) := s in
       let '(r', G', sig2) := fit_endpoint G r statrese b in
       (r', G', upd b (store_sigma2 sig2) sigma2))
    (seq 0 (nendpnt c)) (r, G, sigma2).

End Fitter.

(** One pass of the loop that copies the residual parameters of endpoint
    [b] into [vcsig2], from [res_offset[b]] on:
<<
    switch ((int)(res_mod(b))) {
    case rmAdd:  vcsig2[offset] = ares(b); break;
    case rmProp: vcsig2[offset] = bres(b); break;
    case rmPow:  vcsig2[offset] = bres(b); vcsig2[offset + 1] = cres(b); break;
    ...
    }
>> *)
Definition report_endpoint (c : config) (r : res_pars) (vcsig2 : vec) (b : nat)
  : vec :=
  let offset := nth b (res_offset c) O in
  let m := nth b (res_mod c) 0%Z in
  let a := at_ (ares r) b in
  let b_ := at_ (bres r) b in
  let c_ := at_ (cres r) b in
  let l := at_ (lres r) b in
  if (m =? rmAdd)%Z then upd offset a vcsig2
  else if (m =? rmProp)%Z then upd offset b_ vcsig2
  else if (m =? rmPow)%Z then upd (offset + 1) c_ (upd offset b_ vcsig2)
  else if (m =? rmAddProp)%Z then upd (offset + 1) b_ (upd offset a vcsig2)
  else if (m =? rmAddPow)%Z then
    upd (offset + 2) c_ (upd (offset + 1) b_ (upd offset a vcsig2))
  else if (m =? rmAddLam)%Z then upd (offset + 1) l (upd offset a vcsig2)
  else if (m =? rmPropLam)%Z then upd (offset + 1) l (upd offset b_ vcsig2)
  else if (m =? rmPowLam)%Z then
    upd (offset + 2) l (upd (offset + 1) c_ (upd offset b_ vcsig2))
  else if (m =? rmAddPropLam)%Z then
    upd (offset + 2) l (upd (offset + 1) b_ (upd offset a vcsig2))
  else if (m =? rmAddPowLam)%Z then
    upd (offset + 3) l
        (upd (offset + 2) c_ (upd (offset + 1) b_ (upd offset a vcsig2)))
  else vcsig2.

(** [for (int b=0; b<nendpnt; ++b) { int offset = res_offset[b]; switch ... }] *)
Definition report_vcsig2 (c : config) (r : res_pars) (vcsig2 : vec) : vec :=
  fold_left (report_endpoint c r) (seq 0 (nendpnt c)) vcsig2.

(* ================================================================== *)
(** ** The Metropolis-Hastings acceptance step ([do_mcmc]) *)

Section MCMC.
Context {E : Extern}.

(** [deltu]: [Uc_y-U_y] for kernel 1, [Uc_y-U_y+Uc_phi-U_phi] otherwise. *)
Definition deltu_of (method : Z) (U_y Uc_y U_phi Uc_phi : vec) : vec :=
  if (method =? 1)%Z then zipWith (fun a b => a - b) Uc_y U_y
  else
    zipWith (fun a b => a - b)
      (zipWith (fun a b => a + b) (zipWith (fun a b => a - b) Uc_y U_y) Uc_phi)
      U_phi.

(** [deltu < -log(randu<vec>(mx.nM))], element by element; [u] is the
    vector of uniform draws. *)
Definition accepted (deltu u : vec) : list bool :=
  zipWith (fun d ui => d <? - log ui) deltu u.

(** The end of the loop body of [do_mcmc], once the candidate [phiMc] and
    its [Uc_y] (and [Uc_phi]) are known:
<<
    ind = find( deltu < -log(randu<vec>(mx.nM)) );
    phiM(ind,i) = phiMc(ind,i);
    U_y(ind) = Uc_y(ind);
    if (method>1) U_phi(ind) = Uc_phi(ind);
>> *)
Definition mh_accept (method : Z) (i : uvec) (phiM phiMc : mat)
           (U_y Uc_y U_phi Uc_phi u : vec) : mat * vec * vec :=
  let deltu := deltu_of method U_y Uc_y U_phi Uc_phi in
  let ind := find (accepted deltu u) in
  let phiM := set_submat phiM ind i phiMc in
  let U_y := set_vec_elems U_y ind Uc_y in
  let U_phi := if (1 <? method)%Z then set_vec_elems U_phi ind Uc_phi else U_phi in
  (phiM, U_y, U_phi).

(** The double loop of [do_mcmc].  [candidate u k1 phiM] stands for the
    proposal of repetition [u] and coordinate [k1] from the current chain
    state together with what [user_fn] and the likelihood make of it:
    [phiMc], [Uc_y], [Uc_phi] and the uniform draws.  Kernels 1 and 2
    leave the inner loop after one pass ([if (method<3) break;]). *)
Variable candidate : nat -> nat -> mat -> mat * vec * vec * vec.

Definition mh_pass (method : Z) (i : uvec) (u k1 : nat) (s : mat * vec * vec)
  : mat * vec * vec :=
  let '(phiM, U_y, U_phi) := s in
  let '(phiMc, Uc_y, Uc_phi, us) := candidate u k1 phiM in
  mh_accept method i phiM phiMc U_y Uc_y U_phi Uc_phi us.

Definition do_mcmc (method : Z) (nu nphi : nat) (i : uvec) (s : mat * vec * vec)
  : mat * vec * vec :=
  fold_left
    (fun s u =>
       fold_left (fun s k1 => mh_pass method i u k1 s)
                 (seq 0 (if (method <? 3)%Z then Nat.min 1 nphi else nphi)) s)
    (seq 0 nu) s.

End MCMC.

(* ================================================================== *)
(** ** The stochastic approximation of the statistics *)

Section StochApprox.
Context {E : Extern}.
Variable c : config.

(** [v(span(first, last))] with [last = past - 1]. *)
Definition span (v : vec) (first past : nat) : vec :=
  firstn (past - first) (skipn first v).

(** One pass of [for (int i = y_cur.size(); i--;)]: the residual of one
    observation, or [None] where the code calls [Rcpp::stop]. *)
Definition resid_at (b : nat) (y f : double) : option double :=
  let r := _powerD y (at_ (lambda c) b) (nth b (yj c) 0%Z) (at_ (low c) b) (at_ (hi c) b) in
  if is_nan r then None
  else
    let ft := _powerD f (at_ (lambda c) b) (nth b (yj c) 0%Z) (at_ (low c) b) (at_ (hi c) b) in
    let r := r - ft in
    if (nth b (res_mod c) 0 =? rmProp)%Z then
      let fa := handleF (nth b (propT c) 0%Z) ft f true true in
      let fa := if fa <=? double_xmin then 1 else fa in
      Some (r / fa)
    else Some r.

(** The loop itself, from the last observation down to the first; the
    argument lists the observations in that order, the result too. *)
Fixpoint resid_loop (b : nat) (yf : list (double * double)) : option vec :=
  match yf with
  | [] => Some []
  | (y, f) :: t =>
      match resid_at b y f with
      | None => None
      | Some r =>
          match resid_loop b t with
          | None => None
          | Some rs => Some (r :: rs)
          end
      end
  end.

Definition resid_of (b : nat) (y_cur f_cur : vec) : option vec :=
  option_map (@rev double) (resid_loop b (rev (combine y_cur f_cur))).

(** [resk] of one endpoint and one chain. *)
Definition resk_of (b : nat) (resid : vec) : double :=
  if (nth b (res_mod c) 0 <=? rmProp)%Z then
    let resk := dot resid resid in
    if xmax <? resk then xmax
    else if resk <? double_xmin then double_xmin else resk
  else 1.

(** Chain [k], endpoint [b]: [fk], [y_cur], [f_cur], [resid] and [resk]. *)
Definition chain_resk (fsave : vec) (k b : nat) : option double :=
  let fk := span fsave (k * ntotal c) ((k + 1) * ntotal c) in
  let fk := elems fk (ix_sorting c) in
  let y_cur := span (ys c) (nth b (y_offset c) O) (nth (S b) (y_offset c) O) in
  let f_cur := span fk (nth b (y_offset c) O) (nth (S b) (y_offset c) O) in
  option_map (resk_of b) (resid_of b y_cur f_cur).

(** [for (b < nendpnt) statr[b] = statr[b] + resk;] within chain [k]. *)
Definition statr_chain (fsave : vec) (k : nat) (statr : vec) : option vec :=
  fold_left
    (fun (acc : option vec) b =>
       match acc with
       | None => None
       | Some statr =>
           option_map (fun resk => upd b (at_ statr b + resk) statr)
                      (chain_resk fsave k b)
       end)
    (seq 0 (nendpnt c)) (Some statr).

(** [statr] after the loop over the chains; it starts from zeros. *)
Definition statr_sum (fsave : vec) : option vec :=
  fold_left
    (fun (acc : option vec) k =>
       match acc with
       | None => None
       | Some statr => statr_chain fsave k statr
       end)
    (seq 0 (Z.to_nat (nmc c))) (Some (repeat 0 (nendpnt c))).

(** [phi.slice(k).cols(ix)]. *)
Definition phi_cols (phiM : mat) (k : nat) (ix : uvec) : mat :=
  mat_cols (mat_rows phiM (k * Nsub c) (Nsub c)) ix.

(** [Statphi11], [Statphi01] (sums of the chains' random effects) and
    [Statphi12], [Statphi02] (sums of their cross products). *)
Definition Statphi_1 (phiM : mat) (ix : uvec) (nphi : nat) : mat :=
  fold_left (fun S k => mat_add S (phi_cols phiM k ix))
            (seq 0 (Z.to_nat (nmc c))) (zeros (Nsub c) nphi).

Definition Statphi_2 (phiM : mat) (ix : uvec) (nphi : nat) : mat :=
  fold_left (fun S k => mat_add S (crossprod (phi_cols phiM k ix)))
            (seq 0 (Z.to_nat (nmc c))) (zeros nphi nphi).

(** [stat = stat + pas(kiter)*(Stat/nmc - stat)] for a matrix. *)
Definition sa_mat (step : double) (stat Stat : mat) : mat :=
  mat_add stat (scale_mat step (mat_sub (mat_div Stat (double_of_int (nmc c))) stat)).

(** [for (b < nendpnt) statrese[b] = statrese[b] + pas(kiter)*(statr[b]/nmc - statrese[b]);] *)
Definition sa_statrese (step : double) (statrese statr : vec) : vec :=
  fold_left
    (fun s b =>
       upd b (at_ s b + step * (at_ statr b / double_of_int (nmc c) - at_ s b)) s)
    (seq 0 (nendpnt c)) statrese.

Record stats : Type := {
  statphi11 : mat;
  statphi12 : mat;
  statphi01 : mat;
  statphi02 : mat;
  statrese : vec
}.

(** The statistics after iteration [kiter]; [None] if the integration
    stopped on a NaN. *)
Definition update_stats (kiter : Z) (phiM : mat) (fsave : vec) (s : stats)
  : option stats :=
  let step := at_ (pas c) (Z.to_nat kiter) in
  match statr_sum fsave with
  | None => None
  | Some statr =>
      Some {| statphi11 := sa_mat step (statphi11 s) (Statphi_1 phiM (i1 c) (nphi1 c));
              statphi12 := sa_mat step (statphi12 s) (Statphi_2 phiM (i1 c) (nphi1 c));
              statphi01 := sa_mat step (statphi01 s) (Statphi_1 phiM (i0 c) (nphi0 c));
              statphi02 := sa_mat step (statphi02 s) (Statphi_2 phiM (i0 c) (nphi0 c));
              statrese := sa_statrese step (statrese s) statr |}
  end.

End StochApprox.

(* ================================================================== *)
(** ** The covariance update *)

Section Covariance.
Variable c : config.
Variable kiter : Z.

(** [jDmin=find(G.diag()<Gmin); for (jm) G(jDmin(jm),jDmin(jm))=Gmin(jDmin(jm));] *)
Definition floor_diag (G : mat) (Gmin : vec) : mat :=
  let jDmin := find (zipWith (fun d m => d <? m) (diag G) Gmin) in
  fold_left (fun M jm => mat_set M jm jm (at_ Gmin jm)) jDmin G.

(** [Gamma2_phi1] after the update; [G1] is the moment estimate
    [(statphi12 + mprior_phi1.t()*mprior_phi1 - ...)/N] computed just
    before. *)
Definition update_Gamma2_phi1 (G1 Gamma2_phi1 : mat) : mat :=
  let G := if ule kiter (nb_sa c)
           then mat_max (mat_scale Gamma2_phi1 (coef_sa c)) (diagmat G1)
           else G1 in
  let G := mat_schur G (covstruct1 c) in
  let Gmin := elems (minv c) (i1 c) in
  let G := floor_diag G Gmin in
  let G := if (Gamma2_phi1fixed c =? 1)%Z && ugt kiter (nb_fixOmega c)
           then set_elems G (Gamma2_phi1fixedIx c) (Gamma2_phi1fixedValues c)
           else G in
  if ule kiter (nb_correl c) then diagmat G else G.

(** [Gamma2_phi0] and [dGamma2_phi0] after the update; [G0] is the moment
    estimate of the branch that estimates omega. *)
Definition update_Gamma2_phi0 (G0 Gamma2_phi0 : mat) (dGamma2_phi0 : vec)
  : mat * vec :=
  if (0 <? nphi0 c)%nat then
    let d := if ule kiter (niter_phi0 c)
             then diag (floor_diag G0 (elems (minv c) (i0 c)))
             else map (fun x => x * coef_phi0 c) dGamma2_phi0 in
    (diagmat_vec d, d)
  else (Gamma2_phi0, dGamma2_phi0).

End Covariance.

(* ================================================================== *)
(** ** The likelihood of the normal distribution *)

(** The residual scale of one observation, in [saem_fit] and again in
    [do_mcmc]:
<<
    g = vecares + vecbres % abs(ftT); //make sure g > 0
    g.elem( find( g == 0.0) ).fill(1.0);
    g.elem( find( g < double_xmin) ).fill(double_xmin);
    g.elem( find(g > xmax)).fill(xmax);
>> *)
Definition lik_scale (a b ftT : double) : double :=
  let g := a + b * fabs ftT in
  let g := if g =? 0 then 1 else g in
  let g := if g <? double_xmin then double_xmin else g in
  if xmax <? g then xmax else g.

Section Likelihood.
Context {E : Extern}.
Variable c : config.

(** The loop that prepares the likelihood in [saem_fit], where [ft] and
    [yt] start as copies of the prediction [f] and of [yM]:
<<
    vec ft = f;
    vec ftT(ft.size());
    vec yt = yM;
    for (int i = ft.size(); i--;) {
      int cur = ix_endpnt(i);
      limitT[i] = _powerD(limit[i], lambda(cur), yj(cur), low(cur), hi(cur));
      ft(i)   = _powerD(f(i), lambda(cur), yj(cur), low(cur), hi(cur));
      yt(i)   = _powerD(yM(i), lambda(cur), yj(cur), low(cur), hi(cur));
      ftT(i)  = handleF(propT(cur), ft(i), f(i), false, true);
    }
>>
    One pass over the state [(ft, yt, ftT)]; [limitT], which only the
    censoring step reads, is left out. *)
Definition fit_lik_pass (f yM : vec) (s : vec * vec * vec) (i : nat)
  : vec * vec * vec :=
  let '(ft, yt, ftT) := s in
  let cur := nth i (ix_endpnt c) O in
  let ft := upd i (_powerD (at_ f i) (at_ (lambda c) cur) (nth cur (yj c) 0%Z)
                           (at_ (low c) cur) (at_ (hi c) cur)) ft in
  let yt := upd i (_powerD (at_ yM i) (at_ (lambda c) cur) (nth cur (yj c) 0%Z)
                           (at_ (low c) cur) (at_ (hi c) cur)) yt in
  let ftT := upd i (handleF (nth cur (propT c) 0%Z) (at_ ft i) (at_ f i) false true)
                 ftT in
  (ft, yt, ftT).

(** The loop, from the last index down to 0.  [ftT] is created without
    initial values; every entry is written. *)
Definition fit_lik_loop (f yM : vec) : vec * vec * vec :=
  fold_left (fit_lik_pass f yM) (rev (seq 0 (List.length f)))
            (f, yM, repeat 0 (List.length f)).

(** The same preparation in [do_mcmc], where [fs] keeps the prediction
    and [fc] is overwritten by its transform:
<<
    fc = fcMat.col(0);
    vec fcT(fc.size());
    fs = fc;
    vec yt(fc.size());
    for (int i = fc.size(); i--;) {
      int cur = ix_endpnt(i);
      limitT[i] = _powerD(limit[i], lambda(cur), yj(cur), low(cur), hi(cur));
      fc(i)     = _powerD(fc(i), lambda(cur), yj(cur), low(cur), hi(cur));
      yt(i)     = _powerD(mx.yM(i), lambda(cur), yj(cur), low(cur), hi(cur));
      fcT(i)    = handleF(propT(cur), fs(i), fc(i), false, true);
    }
>>
    One pass over the state [(fc, yt, fcT)]. *)
Definition mcmc_lik_pass (fs yM : vec) (s : vec * vec * vec) (i : nat)
  : vec * vec * vec :=
  let '(fc, yt, fcT) := s in
  let cur := nth i (ix_endpnt c) O in
  let fc := upd i (_powerD (at_ fc i) (at_ (lambda c) cur) (nth cur (yj c) 0%Z)
                           (at_ (low c) cur) (at_ (hi c) cur)) fc in
  let yt := upd i (_powerD (at_ yM i) (at_ (lambda c) cur) (nth cur (yj c) 0%Z)
                           (at_ (low c) cur) (at_ (hi c) cur)) yt in
  let fcT := upd i (handleF (nth cur (propT c) 0%Z) (at_ fs i) (at_ fc i) false true)
                 fcT in
  (fc, yt, fcT).

(** The loop; [yt] and [fcT] are created without initial values, and
    every entry is written. *)
Definition mcmc_lik_loop (fc yM : vec) : vec * vec * vec :=
  fold_left (mcmc_lik_pass fc yM) (rev (seq 0 (List.length fc)))
            (fc, repeat 0 (List.length fc), repeat 0 (List.length fc)).

(** The vector of residual scales, [g] in [saem_fit] and [gc] in
    [do_mcmc], from [vecares], [vecbres] and [ftT] (or [fcT]); the three
    vectors have one entry per observation (Armadillo stops on operands
    of different sizes). *)
Definition lik_scales (vecares vecbres ftT : vec) : vec :=
  zipWith (fun ab t => lik_scale (fst ab) (snd ab) t) (combine vecares vecbres) ftT.

End Likelihood.

(* ================================================================== *)
(** ** The iteration loop and the exported [saem_fit] *)

(** What the console shows ([RSprintf]). *)
Inductive message : Type :=
  | Unknown_distribution (id : Z).

Section Engine.
(** The R-level argument, the mutable members of the object, an
    exception ([Rcpp::stop], an Armadillo error, a user interrupt) and the
    list that [saem_fit] returns. *)
Variables (input state exn fit_output : Type).
(** [setupRx], which may stop, and [inits]. *)
Variable setupRx : input -> option exn.
Variable inits : input -> config * state.
(** [fsaveMat = user_fn(phiM, evtM, optM)] and the four assignments after
    it. *)
Variable first_user_fn : config -> state -> exn + state.
(** The head of the loop body, up to [fsave = f]. *)
Variable begin_iteration : config -> Z -> state -> exn + state.
(** The loop body from the first branch on [distribution] on, for a
    distribution that has a branch. *)
Variable iteration : config -> Z -> state -> exn + state.
(** The getters and [List::create]. *)
Variable assemble : config -> state -> fit_output.

(** [for (unsigned int kiter=0; kiter<(unsigned int)(niter); kiter++)];
    [todo] counts the passes that are left. *)
Fixpoint saem_loop (c : config) (todo : nat) (kiter : Z) (s : state)
  : (exn + state) * list message :=
  match todo with
  | O => (inr s, [])
  | S todo' =>
      match begin_iteration c kiter s with
      | inl e => (inl e, [])
      | inr s1 =>
          if (distribution c =? 1)%Z || (distribution c =? 2)%Z
             || (distribution c =? 3)%Z then
            match iteration c kiter s1 with
            | inl e => (inl e, [])
            | inr s2 => saem_loop c todo' (kiter + 1)%Z s2
            end
          else
            (* RSprintf("unknown distribution (id=%d)\n", distribution); return; *)
            (inr s1, [Unknown_distribution (distribution c)])
      end
  end.

(** The method [SAEM::saem_fit]. *)
Definition saem_fit_method (c : config) (s : state)
  : (exn + state) * list message :=
  match first_user_fn c s with
  | inl e => (inl e, [])
  | inr s0 => saem_loop c (Z.to_nat (uint32 (niter c))) 0%Z s0
  end.

(** The exported [saem_fit]. *)
Definition saem_fit (x : input) : (exn + fit_output) * list message :=
  match setupRx x with
  | Some e => (inl e, [])
  | None =>
      let '(c, s) := inits x in
      match saem_fit_method c s with
      | (inl e, out) => (inl e, out)
      | (inr s', out) => (inr (assemble c s'), out)
      end
  end.

End Engine.

(* ================================================================== *)
(** ** The specification's formulas, written from its words *)

(** The Robbins-Monro recursion [stat + step*(avg - stat)]. *)
Definition robbins_monro (step avg stat : double) : double :=
  stat + step * (avg - stat).

(** The five statistics, each as the vector of its entries in storage
    order. *)
Inductive statistic : Type := Phi11 | Phi12 | Phi01 | Phi02 | Rese.

Definition stat_mem (s : stats) (w : statistic) : vec :=
  match w with
  | Phi11 => mem (statphi11 s)
  | Phi12 => mem (statphi12 s)
  | Phi01 => mem (statphi01 s)
  | Phi02 => mem (statphi02 s)
  | Rese => statrese s
  end.

(** What the loop over the chains leaves in [Statphi11], [Statphi12],
    [Statphi01], [Statphi02] and [statr]: the sums over the chains. *)
Definition chain_sums {E : Extern} (c : config) (phiM : mat) (statr : vec) : stats :=
  {| statphi11 := Statphi_1 c phiM (i1 c) (nphi1 c);
     statphi12 := Statphi_2 c phiM (i1 c) (nphi1 c);
     statphi01 := Statphi_1 c phiM (i0 c) (nphi0 c);
     statphi02 := Statphi_2 c phiM (i0 c) (nphi0 c);
     statrese := statr |}.

(** The average across the [nmc] chains of entry [k] of a statistic. *)
Definition mc_average (c : config) (sums : stats) (w : statistic) (k : nat)
  : double :=
  at_ (stat_mem sums w) k / double_of_int (nmc c).

(** The double [-0]. *)
Definition neg_zero (x : double) : bool :=
  match Prim2SF x with
  | S754_zero true => true
  | _ => false
  end.

(** Clipping into [[1e-200, 1e300]]. *)
Definition clip_into (g : double) : double :=
  if g <? 1.0e-200 then 1.0e-200 else if 1e300 <? g then 1e300 else g.

(** The terms of a residual model. *)
Inductive terms : Type := T_add | T_prop | T_pow | T_add_prop | T_add_pow.

Section Specification.
Context {E : Extern}.

(** The residual scale: [a] and [b] are the squared scale coordinates,
    [p] the power and [f] the prediction. *)
Definition g_spec (t : terms) (addProp : Z) (a b p f : double) : double :=
  match t with
  | T_add => a
  | T_prop => b * fabs f
  | T_pow => b * pow (fabs f) p
  | T_add_prop =>
      if (addProp =? 1)%Z then a + b * fabs f
      else sqrt (a * a + b * b * fabs f * fabs f)
  | T_add_pow =>
      let pf := pow (fabs f) p in
      if (addProp =? 1)%Z then a + b * pf
      else sqrt (a * a + b * b * pf * pf)
  end.

(** Which terms an objective has and which of its coordinates is the
    additive scale, the proportional (or power) scale, the power and the
    lambda. *)
Definition terms_of (fn : fn_ptr) : terms :=
  match fn with
  | Obj | ObjH => T_add_prop
  | ObjC | ObjI => T_add_pow
  | ObjD | ObjG => T_pow
  | ObjE => T_add
  | ObjF => T_prop
  end.

Definition coord_add (fn : fn_ptr) : option nat :=
  match fn with
  | Obj | ObjC | ObjE | ObjH | ObjI => Some 0%nat
  | ObjD | ObjF | ObjG => None
  end.

Definition coord_prop (fn : fn_ptr) : option nat :=
  match fn with
  | Obj | ObjC | ObjH | ObjI => Some 1%nat
  | ObjD | ObjF | ObjG => Some 0%nat
  | ObjE => None
  end.

Definition coord_pow (fn : fn_ptr) : option nat :=
  match fn with
  | ObjC | ObjI => Some 2%nat
  | ObjD | ObjG => Some 1%nat
  | Obj | ObjE | ObjF | ObjH => None
  end.

Definition coord_lambda (fn : fn_ptr) : option nat :=
  match fn with
  | ObjE | ObjF => Some 1%nat
  | ObjG | ObjH => Some 2%nat
  | ObjI => Some 3%nat
  | Obj | ObjC | ObjD => None
  end.

(** The coordinates of a model from the fixed mask, the fixed values and
    the free vector [ab]: a fixed coordinate takes its fixed value, a free
    one the next entry of [ab]. *)
Fixpoint merge_from (n k : nat) (idx : list Z) (val ab : vec) : vec :=
  match n with
  | O => []
  | S n' =>
      if (nth k idx 0 =? 1)%Z then nth k val 0 :: merge_from n' (S k) idx val ab
      else hd 0 ab :: merge_from n' (S k) idx val (tl ab)
  end.

Definition merge_fixed (idx : list Z) (val ab : vec) : vec :=
  merge_from 4 0 idx val ab.

Definition coord (co : vec) (k : option nat) : double :=
  match k with Some k => at_ co k | None => 0 end.

(** The objective: the running sum over the observations of
    [((y_transformed - f_transformed)/g)^2 + 2*log(g)], with [g] clipped. *)
Definition objective_spec (G : globals) (ab : vec) : double :=
  let fn := _saemFn G in
  let co := merge_fixed (_saemFixedIdx G) (_saemFixedValue G) ab in
  let a := coord co (coord_add fn) * coord co (coord_add fn) in
  let b := coord co (coord_prop fn) * coord co (coord_prop fn) in
  let p := toPow G (coord co (coord_pow fn)) in
  let lam := match coord_lambda fn with
             | Some k => toLambda G (at_ co k)
             | None => _saemLambda G
             end in
  fold_left
    (fun sum (fy : double * double) =>
       let ft := _powerD (fst fy) lam (_saemYj G) (_saemLow G) (_saemHi G) in
       let ytr := _powerD (snd fy) lam (_saemYj G) (_saemLow G) (_saemHi G) in
       let f := if (_saemPropT G =? 0)%Z then fst fy else ft in
       let g := clip_into (g_spec (terms_of fn) (_saemAddProp G) a b p f) in
       let res := (ytr - ft) / g in
       sum + (res * res + 2 * log g))
    (firstn (_saemLen G) (combine (_saemFptr G) (_saemYptr G))) 0.

(** The standardized residual of one observation of endpoint [b]: both
    sides transformed; for the proportional model divided by the
    prediction (transformed or not, by the endpoint's [propT] flag),
    zero-adjusted and truncated into [[1e-200, 1e300]]. *)
Definition std_resid_spec (c : config) (b : nat) (y f : double) : double :=
  let T x := _powerD x (at_ (lambda c) b) (nth b (yj c) 0%Z)
                     (at_ (low c) b) (at_ (hi c) b) in
  if (nth b (res_mod c) 0 =? rmProp)%Z then
    let fa := if (nth b (propT c) 0 =? 0)%Z then f else T f in
    let fa := if fa =? 0 then 1 else fa in
    (T y - T f) / clip_into fa
  else T y - T f.

(** The clipped sum of squared standardized residuals. *)
Definition resk_spec (c : config) (b : nat) (y_cur f_cur : vec) : double :=
  let res := zipWith (std_resid_spec c b) y_cur f_cur in
  clip_into (dot res res).

End Specification.


(** [statrese[b]] divided by the number of observations of endpoint [b]. *)
Definition sig2_raw (c : config) (statrese : vec) (b : nat) : double :=
  at_ statrese b /
  double_of_int (Z.of_nat (nth (S b) (y_offset c) O - nth b (y_offset c) O)).

(** What [sig2] holds when the [switch] is left: the proportional case
    replaces an exact zero by one unless the parameter is held fixed. *)
Definition sig2_out (c : config) (kiter : Z) (statrese : vec) (b : nat) : double :=
  let s := sig2_raw c statrese b in
  if (nth b (res_mod c) 0 =? rmProp)%Z
     && negb ((nth (nth b (res_offset c) O) (resFixed c) 0 =? 1)%Z
              && ugt kiter (nb_fixResid c))
     && (s =? 0)
  then 1 else s.


(* ================================================================== *)
(** ** The coordinates of each residual model *)

(** Which parameters a residual model has, in the order of its slots in
    [resFixed], [resValue] and [vcsig2]: the second [switch] over
    [res_mod(b)] of the loop body, which stores them at [offset],
    [offset+1], ... *)
Definition slots (m : Z) : list res_par :=
  if (m =? rmAdd)%Z then [Ares]
  else if (m =? rmProp)%Z then [Bres]
  else if (m =? rmPow)%Z then [Bres; Cres]
  else if (m =? rmAddProp)%Z then [Ares; Bres]
  else if (m =? rmAddPow)%Z then [Ares; Bres; Cres]
  else if (m =? rmAddLam)%Z then [Ares; Lres]
  else if (m =? rmPropLam)%Z then [Bres; Lres]
  else if (m =? rmPowLam)%Z then [Bres; Cres; Lres]
  else if (m =? rmAddPropLam)%Z then [Ares; Bres; Lres]
  else if (m =? rmAddPowLam)%Z then [Ares; Bres; Cres; Lres]
  else [].

(** The residual models whose case calls [_saemOpt]. *)
Definition uses_minimizer (m : Z) : bool := (3 <=? m)%Z && (m <=? 10)%Z.

(** The size of [xmin] that the case of a residual model allocates. *)
Definition xmin_size (m : Z) : nat := if (m =? rmAddPow)%Z then 3 else 2.

Section Coordinates.
Context {E : Extern}.

(** How a parameter is mapped to the minimizer's coordinate and back: a
    scale by [sqrt(fabs(.))] and squaring, the power by [toPowEst] and
    [toPow], the lambda by [toLambdaEst] and [toLambda]. *)
Definition enc_par (G : globals) (X : res_par) : double -> double :=
  match X with
  | Ares | Bres => sd0
  | Cres => toPowEst G
  | Lres => toLambdaEst G
  end.

Definition dec_par (G : globals) (X : res_par) : double -> double :=
  match X with
  | Ares | Bres => sq
  | Cres => toPow G
  | Lres => toLambda G
  end.

(** The start values of the slots from [j] on whose flag is not 1. *)
Fixpoint free_starts (c : config) (G : globals) (r : res_pars)
         (b offsetR j : nat) (sl : list res_par) : vec :=
  match sl with
  | [] => []
  | X :: sl' =>
      if (nth (offsetR + j) (resFixed c) 0 =? 1)%Z
      then free_starts c G r b offsetR (S j) sl'
      else enc_par G X (get_par X b r) :: free_starts c G r b offsetR (S j) sl'
  end.

(** The first half of the case of endpoint [b], for a residual model
    that has one. *)
Definition prep_endpoint (c : config) (kiter : Z) (G : globals) (r : res_pars)
           (b : nat) : option prep :=
  let offsetR := nth b (res_offset c) O in
  let G := reset_FixedIdx G in
  let m := nth b (res_mod c) 0%Z in
  if (m =? rmAddProp)%Z then Some (prep_rmAddProp c kiter G r b offsetR)
  else if (m =? rmAddPow)%Z then Some (prep_rmAddPow c kiter G r b offsetR)
  else if (m =? rmPow)%Z then Some (prep_rmPow c kiter G r b offsetR)
  else if (m =? rmAddLam)%Z then Some (prep_rmAddLam c kiter G r b offsetR)
  else if (m =? rmPropLam)%Z then Some (prep_rmPropLam c kiter G r b offsetR)
  else if (m =? rmPowLam)%Z then Some (prep_rmPowLam c kiter G r b offsetR)
  else if (m =? rmAddPropLam)%Z then Some (prep_rmAddPropLam c kiter G r b offsetR)
  else if (m =? rmAddPowLam)%Z then Some (prep_rmAddPowLam c kiter G r b offsetR)
  else None.

(** The coordinates of a case taken in turn from slot [j] on: the chain of
    [if (resFixed[offsetR + j] == 1) ... else ...] statements that every
    case runs after the burn-in, one per parameter of its residual model. *)
Fixpoint prep_slots (c : config) (G : globals) (b offsetR j : nat)
         (sl : list res_par) (p : prep) : prep :=
  match sl with
  | [] => p
  | X :: sl' =>
      prep_slots c G b offsetR (S j) sl'
                 (fix_or_start c b offsetR j X (enc_par G X) p)
  end.

(** The start vector a case fills in before it looks at the flags. *)
Definition all_starts (G : globals) (r : res_pars) (b : nat)
           (sl : list res_par) : vec :=
  map (fun X => enc_par G X (get_par X b r)) sl.

(** The second half of a case after the burn-in, slot by slot: the chain
    of [if (resFixed[offsetR + j] == 0) { v = pxmin[curi++]; ... }]
    statements. *)
Fixpoint adjust_slots (c : config) (kiter : Z) (G : globals) (b offsetR j : nat)
         (sl : list res_par) (pxmin : vec) (s : res_pars * nat)
  : res_pars * nat :=
  match sl with
  | [] => s
  | X :: sl' =>
      adjust_slots c kiter G b offsetR (S j) sl' pxmin
                   (adjust_back c kiter b offsetR j X (dec_par G X) pxmin s)
  end.

(** The coordinates an objective reads at its head, [n] of them from
    coordinate [k] on, as [next_par] yields them one after another. *)
Fixpoint read_pars (G : globals) (n k : nat) (ab : vec) (curi : nat) : vec :=
  match n with
  | O => []
  | S n' =>
      fst (next_par G k ab curi)
      :: read_pars G n' (S k) ab (snd (next_par G k ab curi))
  end.

(** What each slot stands at when the minimizer is called, as the
    coordinate the minimizer works on: the supplied value where the flag
    is set and the burn-in is over ([post]), the current value otherwise. *)
Fixpoint held_pars (c : config) (post : bool) (G : globals) (r : res_pars)
         (b offsetR j : nat) (sl : list res_par) : vec :=
  match sl with
  | [] => []
  | X :: sl' =>
      enc_par G X
              (if (nth (offsetR + j) (resFixed c) 0 =? 1)%Z && post
               then at_ (resValue c) (offsetR + j)
               else get_par X b r)
      :: held_pars c post G r b offsetR (S j) sl'
  end.

(** The coordinates that an objective squares before it uses them: the
    additive and the proportional (or power) scale. *)
Definition scale_coords (fn : fn_ptr) : list nat :=
  match fn with
  | Obj | ObjC | ObjH | ObjI => [0; 1]%nat
  | ObjD | ObjE | ObjF | ObjG => [0%nat]
  end.

(** [ab] with the sign of entry [k] flipped. *)
Definition flip_at (k : nat) (ab : vec) : vec := upd k (- at_ ab k) ab.

(** The candidate that the branch [kiter <= nb_fixResid] of a case blends
    into the parameter of slot [j]: the minimizer's coordinate [j] mapped
    back, except that [case rmPow] blends [pxmin[0]*pxmin[1]] into [bres]. *)
Definition burnin_candidate (G : globals) (m : Z) (j : nat) (X : res_par)
           (pxmin : vec) : double :=
  if (m =? rmPow)%Z && (j =? 0)%nat then at_ pxmin 0 * at_ pxmin 1
  else dec_par G X (at_ pxmin j).

End Coordinates.

(** [c] with other fixed flags and fixed values. *)
Definition with_fixed (c : config) (fixed : list Z) (value : vec) : config := {|
  niter := niter c; nmc := nmc c; Nsub := Nsub c; ntotal := ntotal c;
  nendpnt := nendpnt c; distribution := distribution c; pas := pas c;
  minv := minv c; nphi1 := nphi1 c; nphi0 := nphi0 c; i1 := i1 c; i0 := i0 c;
  nb_sa := nb_sa c; coef_sa := coef_sa c; nb_correl := nb_correl c;
  nb_fixOmega := nb_fixOmega c; covstruct1 := covstruct1 c;
  Gamma2_phi1fixed := Gamma2_phi1fixed c;
  Gamma2_phi1fixedIx := Gamma2_phi1fixedIx c;
  Gamma2_phi1fixedValues := Gamma2_phi1fixedValues c;
  niter_phi0 := niter_phi0 c; coef_phi0 := coef_phi0 c;
  nb_fixResid := nb_fixResid c;
  resValue := value;
  resFixed := fixed;
  res_mod := res_mod c; res_offset := res_offset c; yj := yj c;
  propT := propT c; addProp := addProp c; lambda := lambda c; low := low c;
  hi := hi c; ix_endpnt := ix_endpnt c; ix_sorting := ix_sorting c;
  y_offset := y_offset c; ys := ys c; ysM := ysM c
|}.

(** Endpoint [b] has an entry in each of the four parameter vectors. *)
Definition in_range (b : nat) (r : res_pars) : Prop :=
  (b < List.length (ares r))%nat /\ (b < List.length (bres r))%nat
  /\ (b < List.length (cres r))%nat /\ (b < List.length (lres r))%nat.

(** The distribution identifiers that the loop body has a branch for. *)
Definition supported (d : Z) : bool := (d =? 1)%Z || (d =? 2)%Z || (d =? 3)%Z.

(** A matrix whose memory has [n_rows * n_cols] elements. *)
Definition wf_mat (M : mat) : Prop :=
  List.length (mem M) = (n_rows M * n_cols M)%nat.

(** Membership of an index in an index vector. *)
Definition has (ix : uvec) (k : nat) : bool := existsb (Nat.eqb k) ix.

(** An [n] by [n] matrix. *)
Definition square (n : nat) (M : mat) : Prop :=
  n_rows M = n /\ n_cols M = n /\ List.length (mem M) = (n * n)%nat.

(** Whether the update of [Gamma2_phi1] overwrites the diagonal entry [j]
    with a fixed value: the override is on, the burn-in of the fixed
    elements is over, and the entry is one of the fixed elements. *)
Definition diag_overridden (c : config) (kiter : Z) (j : nat) : bool :=
  (Gamma2_phi1fixed c =? 1)%Z && ugt kiter (nb_fixOmega c)
  && has (Gamma2_phi1fixedIx c) (j + j * nphi1 c).

(** [Gamma2_phi1] after the mask and before the floor. *)
Definition masked_Gamma2_phi1 (c : config) (kiter : Z) (G1 Gamma2_phi1 : mat)
  : mat :=
  mat_schur
    (if ule kiter (nb_sa c)
     then mat_max (mat_scale Gamma2_phi1 (coef_sa c)) (diagmat G1)
     else G1)
    (covstruct1 c).

(** The sign bit of [f] is clear (or [f] is a NaN): [fabs f] is [f]. *)
Definition sign_clear (f : double) : bool :=
  match Prim2SF f with
  | S754_zero s | S754_infinity s | S754_finite s _ _ => negb s
  | S754_nan => true
  end.

(** The objectives that call [handleF] with [adjustF] set, and those that
    replace a scale of zero by one. *)
Definition adjusts_zero_f (fn : fn_ptr) : bool :=
  match fn with ObjD | ObjF | ObjG => true | _ => false end.

Definition replaces_zero_g (fn : fn_ptr) : bool :=
  match fn with ObjF | ObjG => true | _ => false end.

Section RegularInput.
Context {E : Extern}.

(** The inputs on which the objectives are compared with
    [objective_spec]: a prediction that scales a term has a clear sign
    bit; it is not zero where the objective would replace it by one; the
    scale is not zero where the objective would replace it by one; and
    [objC] is in sum mode. *)
Definition regular_input (G : globals) (ab : vec) : bool :=
  let fn := _saemFn G in
  let co := merge_fixed (_saemFixedIdx G) (_saemFixedValue G) ab in
  let a := coord co (coord_add fn) * coord co (coord_add fn) in
  let b := coord co (coord_prop fn) * coord co (coord_prop fn) in
  let p := toPow G (coord co (coord_pow fn)) in
  let lam := match coord_lambda fn with
             | Some k => toLambda G (at_ co k)
             | None => _saemLambda G
             end in
  match fn with
  | ObjC => (_saemAddProp G =? 1)%Z
  | _ => true
  end
  && forallb
       (fun fy : double * double =>
          let ft := _powerD (fst fy) lam (_saemYj G) (_saemLow G) (_saemHi G) in
          let f := if (_saemPropT G =? 0)%Z then fst fy else ft in
          match fn with
          | ObjE => true
          | _ => sign_clear f
          end
          && (negb (adjusts_zero_f fn) || negb (f =? 0))
          && (negb (replaces_zero_g fn)
              || negb (g_spec (terms_of fn) (_saemAddProp G) a b p f =? 0)))
       (firstn (_saemLen G) (combine (_saemFptr G) (_saemYptr G))).

End RegularInput.

(** The transform of endpoint [b]. *)
Definition transform {E : Extern} (c : config) (b : nat) (x : double) : double :=
  _powerD x (at_ (lambda c) b) (nth b (yj c) 0%Z) (at_ (low c) b) (at_ (hi c) b).

(** The transform of the endpoint of observation [i], and that
    endpoint's [propT]. *)
Definition T_at {E : Extern} (c : config) (i : nat) (x : double) : double :=
  transform c (nth i (ix_endpnt c) O) x.
Definition propT_at (c : config) (i : nat) : Z :=
  nth (nth i (ix_endpnt c) O) (propT c) 0%Z.

(** No transformed observation is a NaN. *)
Definition data_ok {E : Extern} (c : config) (b : nat)
           (yf : list (double * double)) : bool :=
  forallb (fun p => negb (is_nan (transform c b (fst p)))) yf.

(** What a pass of the residual loop leaves in [resid(i)] when the
    transformed observation is a number:
<<
    ft = _powerD(f_cur[i], lambda(b), yj(b), low(b), hi(b));
    resid(i) -=  ft;
    if (res_mod(b) == rmProp) {
      fa = handleF(propT(b), ft, f_cur[i], true, true);
      if (fa <= double_xmin) {
        fa = 1;
      }
      resid(i) = resid(i)/fa;
    }
>> *)
Definition resid_value {E : Extern} (c : config) (b : nat) (y f : double) : double :=
  let ft := transform c b f in
  let r := transform c b y - ft in
  if (nth b (res_mod c) 0 =? rmProp)%Z then
    let fa := handleF (nth b (propT c) 0%Z) ft f true true in
    r / (if fa <=? double_xmin then 1 else fa)
  else r.

(** [inits]: [for (int b=0; b<nendpnt; ++b) { ... statrese[b] = 0.0; }] *)
Definition inits_statrese (c : config) : vec := repeat 0 (nendpnt c).

(** One pass of the loop over the endpoints, with the last three
    statements of its body. *)
Definition endpoint_pass {E : Extern} (c : config) (kiter : Z) (fsM : vec)
           (junk : nat -> double) (statrese : vec)
           (s : res_pars * globals * vec) (b : nat)
  : res_pars * globals * vec :=
  let '(r, G, sigma2) := s in
  let '(r', G', sig2) := fit_endpoint c kiter fsM junk G r statrese b in
  (r', G', upd b (store_sigma2 sig2) sigma2).

(* ================================================================== *)
(** ** Data for the examples *)

(** Stand-ins for what is outside the file, with which the examples are
    evaluated: the transform and its inverse are the identity, [pow x p]
    is [x], [log] is zero, [dot] and [crossprod] add from left to right,
    and every minimizer returns its start point with one added to each
    coordinate.  No theorem depends on them. *)
Definition example_extern : Extern := {|
  log := fun _ => 0;
  pow := fun x _ => x;
  _powerD := fun x _ _ _ _ => x;
  _powerDi := fun x _ _ _ _ => x;
  dot := fun u v => fold_left (fun s p => s + fst p * snd p) (combine u v) 0;
  crossprod := fun A => mat_schur A A;
  nelder_fn := fun _ n start _ _ _ => map (fun x => x + 1) (firstn n start);
  optimize1 := fun _ x => x + 1;
  newuoa := fun _ start _ _ => Some (map (fun x => x + 1) start)
|}.

(** Stand-ins with another [pow] and another transform [T] (whose
    inverse is taken as the identity). *)
Definition example_extern_of (pow' : double -> double -> double)
           (T : double -> double) : Extern := {|
  log := fun _ => 0;
  pow := pow';
  _powerD := fun x _ _ _ _ => T x;
  _powerDi := fun x _ _ _ _ => x;
  dot := fun u v => fold_left (fun s p => s + fst p * snd p) (combine u v) 0;
  crossprod := fun A => mat_schur A A;
  nelder_fn := fun _ n start _ _ _ => map (fun x => x + 1) (firstn n start);
  optimize1 := fun _ x => x + 1;
  newuoa := fun _ start _ _ => Some (map (fun x => x + 1) start)
|}.

(** [pow x 2] is [x*x]; the transform is the identity. *)
Definition example_extern_sq : Extern :=
  example_extern_of (fun x p => if p =? 2 then x * x else x) (fun x => x).

(** The transform adds one. *)
Definition example_extern_shift : Extern :=
  example_extern_of (fun x _ => x) (fun x => x + 1).

(** [c] with another distribution identifier. *)
Definition with_distribution (c : config) (d : Z) : config := {|
  niter := niter c; nmc := nmc c; Nsub := Nsub c; ntotal := ntotal c;
  nendpnt := nendpnt c; distribution := d; pas := pas c;
  minv := minv c; nphi1 := nphi1 c; nphi0 := nphi0 c; i1 := i1 c; i0 := i0 c;
  nb_sa := nb_sa c; coef_sa := coef_sa c; nb_correl := nb_correl c;
  nb_fixOmega := nb_fixOmega c; covstruct1 := covstruct1 c;
  Gamma2_phi1fixed := Gamma2_phi1fixed c;
  Gamma2_phi1fixedIx := Gamma2_phi1fixedIx c;
  Gamma2_phi1fixedValues := Gamma2_phi1fixedValues c;
  niter_phi0 := niter_phi0 c; coef_phi0 := coef_phi0 c;
  nb_fixResid := nb_fixResid c;
  resValue := resValue c;
  resFixed := resFixed c;
  res_mod := res_mod c; res_offset := res_offset c; yj := yj c;
  propT := propT c; addProp := addProp c; lambda := lambda c; low := low c;
  hi := hi c; ix_endpnt := ix_endpnt c; ix_sorting := ix_sorting c;
  y_offset := y_offset c; ys := ys c; ysM := ysM c
|}.

(** [c] with other fixed elements of [Gamma2_phi1] and another floor. *)
Definition with_fixed_omega (c : config) (flag : Z) (ix : uvec) (vals : mat)
           (floor : vec) : config := {|
  niter := niter c; nmc := nmc c; Nsub := Nsub c; ntotal := ntotal c;
  nendpnt := nendpnt c; distribution := distribution c; pas := pas c;
  minv := floor; nphi1 := nphi1 c; nphi0 := nphi0 c; i1 := i1 c; i0 := i0 c;
  nb_sa := nb_sa c; coef_sa := coef_sa c; nb_correl := nb_correl c;
  nb_fixOmega := nb_fixOmega c; covstruct1 := covstruct1 c;
  Gamma2_phi1fixed := flag;
  Gamma2_phi1fixedIx := ix;
  Gamma2_phi1fixedValues := vals;
  niter_phi0 := niter_phi0 c; coef_phi0 := coef_phi0 c;
  nb_fixResid := nb_fixResid c;
  resValue := resValue c;
  resFixed := resFixed c;
  res_mod := res_mod c; res_offset := res_offset c; yj := yj c;
  propT := propT c; addProp := addProp c; lambda := lambda c; low := low c;
  hi := hi c; ix_endpnt := ix_endpnt c; ix_sorting := ix_sorting c;
  y_offset := y_offset c; ys := ys c; ysM := ysM c
|}.

(** One endpoint with two observations, one chain, one subject and one
    random effect; the residual model, its fixed flags and the burn-in
    count are left open. *)
Definition example_config (m : Z) (fixed : list Z) (nbfix : Z) : config := {|
  niter := 3; nmc := 1; Nsub := 1; ntotal := 2; nendpnt := 1;
  distribution := 1;
  pas := [1; 0.5; 0.25];
  minv := [0.5];
  nphi1 := 1; nphi0 := 0; i1 := [O]; i0 := [];
  nb_sa := 0; coef_sa := 0.9; nb_correl := 0; nb_fixOmega := 0;
  covstruct1 := Mat 1 1 [1];
  Gamma2_phi1fixed := 0; Gamma2_phi1fixedIx := [];
  Gamma2_phi1fixedValues := Mat 1 1 [1];
  niter_phi0 := 0; coef_phi0 := 0.9;
  nb_fixResid := nbfix;
  resValue := [0.25; 0.5; 0.75; 0.125];
  resFixed := fixed;
  res_mod := [m];
  res_offset := [O; 4%nat];
  yj := [2%Z]; propT := [0%Z]; addProp := [1%Z];
  lambda := [1]; low := [0]; hi := [1];
  ix_endpnt := [O; O];
  ix_sorting := [O; 1%nat];
  y_offset := [O; 2%nat];
  ys := [3; 5];
  ysM := [3; 5]
|}.

(** [c] with another schedule of step sizes. *)
Definition with_pas (c : config) (steps : vec) : config := {|
  niter := niter c; nmc := nmc c; Nsub := Nsub c; ntotal := ntotal c;
  nendpnt := nendpnt c; distribution := distribution c; pas := steps;
  minv := minv c; nphi1 := nphi1 c; nphi0 := nphi0 c; i1 := i1 c; i0 := i0 c;
  nb_sa := nb_sa c; coef_sa := coef_sa c; nb_correl := nb_correl c;
  nb_fixOmega := nb_fixOmega c; covstruct1 := covstruct1 c;
  Gamma2_phi1fixed := Gamma2_phi1fixed c;
  Gamma2_phi1fixedIx := Gamma2_phi1fixedIx c;
  Gamma2_phi1fixedValues := Gamma2_phi1fixedValues c;
  niter_phi0 := niter_phi0 c; coef_phi0 := coef_phi0 c;
  nb_fixResid := nb_fixResid c;
  resValue := resValue c;
  resFixed := resFixed c;
  res_mod := res_mod c; res_offset := res_offset c; yj := yj c;
  propT := propT c; addProp := addProp c; lambda := lambda c; low := low c;
  hi := hi c; ix_endpnt := ix_endpnt c; ix_sorting := ix_sorting c;
  y_offset := y_offset c; ys := ys c; ysM := ysM c
|}.

(** [c] with two random effects, both estimated, and another burn-in
    count for the correlations. *)
Definition with_two_effects (c : config) (nbcorrel : Z) : config := {|
  niter := niter c; nmc := nmc c; Nsub := Nsub c; ntotal := ntotal c;
  nendpnt := nendpnt c; distribution := distribution c; pas := pas c;
  minv := [0.5; 0.5]; nphi1 := 2; nphi0 := nphi0 c; i1 := [O; 1%nat]; i0 := i0 c;
  nb_sa := nb_sa c; coef_sa := coef_sa c; nb_correl := nbcorrel;
  nb_fixOmega := nb_fixOmega c; covstruct1 := Mat 2 2 [1; 1; 1; 1];
  Gamma2_phi1fixed := Gamma2_phi1fixed c;
  Gamma2_phi1fixedIx := Gamma2_phi1fixedIx c;
  Gamma2_phi1fixedValues := Gamma2_phi1fixedValues c;
  niter_phi0 := niter_phi0 c; coef_phi0 := coef_phi0 c;
  nb_fixResid := nb_fixResid c;
  resValue := resValue c;
  resFixed := resFixed c;
  res_mod := res_mod c; res_offset := res_offset c; yj := yj c;
  propT := propT c; addProp := addProp c; lambda := lambda c; low := low c;
  hi := hi c; ix_endpnt := ix_endpnt c; ix_sorting := ix_sorting c;
  y_offset := y_offset c; ys := ys c; ysM := ysM c
|}.

Definition example_globals : globals := {|
  _saemYptr := []; _saemFptr := []; _saemLen := 0;
  _saemYj := 0; _saemAddProp := 0;
  _saemLambda := 1; _saemLow := 0; _saemHi := 1;
  _saemFn := Obj; _saemStart := []; _saemStep := [];
  _saemLambdaR := 3; _saemPowR := 10; _saemPropT := 0;
  _saemFixedIdx := [0; 0; 0; 0]%Z;
  _saemFixedValue := [0; 0; 0; 0];
  _saemItmax := 100; _saemTol := 1e-4; _saemType := 1
|}.

Definition example_res : res_pars :=
  {| ares := [1]; bres := [4]; cres := [0.5]; lres := [0.25] |}.

(** A run of the engine in which every call outside it succeeds: the
    argument is the distribution identifier, the state counts the
    iterations that were completed, and the result is that count. *)
Definition example_saem_fit (d : Z) : (unit + nat) * list message :=
  saem_fit Z nat unit nat
    (fun _ => None)
    (fun d => (with_distribution (example_config rmAdd [0; 0; 0; 0]%Z 0) d, O))
    (fun _ s => inr s)
    (fun _ _ s => inr s)
    (fun _ _ s => inr (S s))
    (fun _ s => s)
    d.

(** The globals of a minimizer run over the predictions [F] and the
    observations [Y], nothing fixed. *)
Definition example_problem (fn : fn_ptr) (addprop : Z) (F Y : vec) : globals := {|
  _saemYptr := Y; _saemFptr := F; _saemLen := List.length Y;
  _saemYj := 2; _saemAddProp := addprop;
  _saemLambda := 1; _saemLow := 0; _saemHi := 1;
  _saemFn := fn; _saemStart := []; _saemStep := [];
  _saemLambdaR := 3; _saemPowR := 10; _saemPropT := 0;
  _saemFixedIdx := [0; 0; 0; 0]%Z;
  _saemFixedValue := [0; 0; 0; 0];
  _saemItmax := 100; _saemTol := 1e-4; _saemType := 1
|}.
(* ================================================================== *)
(** * Lemmas *)

(** ** Comparisons of doubles *)

Lemma SFcompare_refl (x : spec_float) :
  x <> S754_nan -> SFcompare x x = Some Eq.
Proof.
  destruct x as [s|s| |s m e]; simpl; intros H; try congruence.
  - destruct s; reflexivity.
  - rewrite Z.compare_refl, Pos.compare_cont_refl. destruct s; reflexivity.
Qed.

Lemma SFcompare_None (x y : spec_float) :
  SFcompare x y = None -> x = S754_nan \/ y = S754_nan.
Proof.
  destruct x as [s|s| |s m e], y as [s'|s'| |s' m' e']; simpl; intros H;
    try discriminate; auto.
Qed.

Lemma SFcompare_antisym (x y : spec_float) (c : comparison) :
  SFcompare x y = Some c -> SFcompare y x = Some (CompOpp c).
Proof.
  destruct x as [s|s| |s m e], y as [s'|s'| |s' m' e']; simpl; intros H;
    try discriminate; inversion H; clear H; subst;
    try (destruct s; try destruct s'; reflexivity);
    try (destruct s'; reflexivity).
  rewrite (Z.compare_antisym e e'), (ZC4 m' m).
  destruct s, s'; simpl; try reflexivity;
    destruct (e ?= e')%Z; simpl; try reflexivity;
    destruct (Pos.compare_cont Eq m m'); reflexivity.
Qed.

Lemma is_nan_spec (x : double) : is_nan x = true <-> Prim2SF x = S754_nan.
Proof.
  unfold is_nan. rewrite FloatAxioms.eqb_spec. unfold SFeqb. split.
  - intros H. destruct (Prim2SF x) eqn:Ex; try reflexivity;
      rewrite SFcompare_refl in H by congruence; discriminate.
  - intros ->. reflexivity.
Qed.

Lemma is_nan_false (x : double) : is_nan x = false <-> Prim2SF x <> S754_nan.
Proof.
  rewrite <- is_nan_spec. destruct (is_nan x); split; congruence.
Qed.

(** Without a NaN, [not (x < y)] is [y <= x]. *)
Lemma ltb_false_leb (x y : double) :
  is_nan x = false -> is_nan y = false -> (x <? y) = false -> (y <=? x) = true.
Proof.
  rewrite !is_nan_false, ltb_spec, leb_spec. unfold SFltb, SFleb.
  intros Hx Hy. destruct (SFcompare (Prim2SF x) (Prim2SF y)) as [o|] eqn:Ec.
  - rewrite (SFcompare_antisym _ _ _ Ec). destruct o; simpl; congruence.
  - destruct (SFcompare_None _ _ Ec); contradiction.
Qed.

Lemma ltb_true_not_nan (x y : double) :
  (x <? y) = true -> is_nan x = false /\ is_nan y = false.
Proof.
  rewrite !is_nan_false, ltb_spec. unfold SFltb.
  destruct (Prim2SF x), (Prim2SF y); simpl; try discriminate; split; congruence.
Qed.

Lemma ltb_leb (x y : double) : (x <? y) = true -> (x <=? y) = true.
Proof.
  rewrite ltb_spec, leb_spec. unfold SFltb, SFleb.
  destruct (SFcompare (Prim2SF x) (Prim2SF y)) as [[ | | ]|]; congruence.
Qed.

Lemma leb_refl (x : double) : is_nan x = false -> (x <=? x) = true.
Proof.
  rewrite is_nan_false, leb_spec. unfold SFleb. intros H.
  now rewrite SFcompare_refl.
Qed.

(** ** Lists updated by index *)

Lemma upd_length {A : Type} (i : nat) (x : A) (l : list A) :
  List.length (upd i x l) = List.length l.
Proof.
  revert i; induction l as [|h t IH]; intros [|i]; simpl; auto.
Qed.

Lemma nth_upd_eq {A : Type} (i : nat) (x d : A) (l : list A) :
  (i < List.length l)%nat -> nth i (upd i x l) d = x.
Proof.
  revert i; induction l as [|h t IH]; intros [|i]; simpl; intros H;
    try lia; auto. apply IH. lia.
Qed.

Lemma nth_upd_ne {A : Type} (i j : nat) (x d : A) (l : list A) :
  i <> j -> nth j (upd i x l) d = nth j l d.
Proof.
  revert i j; induction l as [|h t IH]; intros [|i] [|j]; simpl; intros H;
    try reflexivity; try congruence. apply IH. congruence.
Qed.

Lemma nth_upd {A : Type} (i j : nat) (x d : A) (l : list A) :
  nth j (upd i x l) d =
  if (i =? j)%nat && (i <? List.length l)%nat then x else nth j l d.
Proof.
  destruct (Nat.eqb_spec i j) as [->|Hne]; simpl.
  - destruct (Nat.ltb_spec j (List.length l)).
    + now apply nth_upd_eq.
    + clear -H. revert j H. induction l as [|h t IH]; intros [|j]; simpl;
        intros H; try reflexivity; try lia. apply IH. lia.
  - now apply nth_upd_ne.
Qed.

(* ================================================================== *)
(** * The residual variance that is stored (C10) *)

Section Sigma2.
Context {E : Extern}.
Variables (c : config) (kiter : Z) (fsM : vec) (junk : nat -> double).

Lemma store_sigma2_bounded (sig2 : double) :
  is_nan (store_sigma2 sig2) = false /\ (store_sigma2 sig2 <=? 1.0e99) = true.
Proof.
  unfold store_sigma2; cbv zeta.
  destruct (1.0e99 <? sig2) eqn:Hgt.
  - split; reflexivity.
  - destruct (is_nan sig2) eqn:Hnan.
    + split; reflexivity.
    + split; [exact Hnan | now apply ltb_false_leb].
Qed.

Lemma store_sigma2_replaces (sig2 : double) :
  is_nan sig2 || (1.0e99 <? sig2) = true -> store_sigma2 sig2 = 1.0e99.
Proof.
  unfold store_sigma2; cbv zeta. intros H.
  destruct (1.0e99 <? sig2) eqn:Hgt; [reflexivity|].
  rewrite orb_false_r in H. now rewrite H.
Qed.

(** [sig2] at the end of the [switch] does not depend on the minimizer,
    on the globals or on the residual parameters. *)
Lemma fit_endpoint_sig2 (G : globals) (r : res_pars) (statrese : vec) (b : nat) :
  snd (fit_endpoint c kiter fsM junk G r statrese b) = sig2_out c kiter statrese b.
Proof.
  unfold fit_endpoint, sig2_out, sig2_raw, post_burnin; cbv zeta.
  destruct (nth b (res_mod c) 0%Z =? rmAdd)%Z eqn:E1.
  { apply Z.eqb_eq in E1. rewrite E1. simpl.
    destruct (_ && _); reflexivity. }
  destruct (nth b (res_mod c) 0%Z =? rmProp)%Z eqn:E2.
  { simpl. destruct ((_ =? 1)%Z && _); simpl; [reflexivity|].
    destruct (_ =? 0); reflexivity. }
  simpl.
  repeat match goal with
         | |- context [if ?t then _ else _] => destruct t
         end; reflexivity.
Qed.

Lemma endpoint_pass_sigma2 (statrese : vec) (s : res_pars * globals * vec) (b : nat) :
  snd (endpoint_pass c kiter fsM junk statrese s b) =
  upd b (store_sigma2 (sig2_out c kiter statrese b)) (snd s).
Proof.
  destruct s as [[r G] sigma2]. unfold endpoint_pass.
  pose proof (fit_endpoint_sig2 G r statrese b) as H.
  destruct (fit_endpoint c kiter fsM junk G r statrese b) as [[r' G'] sig2].
  simpl in *. now subst.
Qed.

Lemma endpoint_loop_sigma2 (statrese : vec) (l : list nat)
      (s : res_pars * globals * vec) (b : nat) :
  In b l -> (b < List.length (snd s))%nat ->
  at_ (snd (fold_left (endpoint_pass c kiter fsM junk statrese) l s)) b =
  store_sigma2 (sig2_out c kiter statrese b).
Proof.
  revert s. induction l as [|a l IH]; intros s Hin Hlen; [contradiction|].
  simpl. destruct (in_dec Nat.eq_dec b l) as [Hl|Hl].
  - apply IH; auto. rewrite endpoint_pass_sigma2, upd_length. exact Hlen.
  - destruct Hin as [->|Hin]; [|contradiction].
    assert (forall l' s', ~ In b l' ->
              at_ (snd (fold_left (endpoint_pass c kiter fsM junk statrese) l' s')) b = at_ (snd s') b)
      as Hkeep.
    { clear. induction l' as [|a' l' IH']; intros s' Hn; [reflexivity|].
      simpl. rewrite IH' by (intros H; apply Hn; now right).
      rewrite endpoint_pass_sigma2. unfold at_. apply nth_upd_ne.
      intros ->. apply Hn. now left. }
    rewrite Hkeep by exact Hl. rewrite endpoint_pass_sigma2.
    unfold at_. now apply nth_upd_eq.
Qed.

(** C10.  After the loop over the endpoints of any iteration, [sigma2[b]]
    of every endpoint [b] is not a NaN and is at most [1.0e99]; it is
    [1.0e99] whenever [statrese[b]] divided by the number of observations
    of the endpoint is a NaN or exceeds [1.0e99]. *)
Theorem sigma2_capped (G : globals) (r : res_pars) (statrese sigma2 : vec) (b : nat) :
  (b < nendpnt c)%nat ->
  (nendpnt c <= List.length sigma2)%nat ->
  let sigma2' := snd (fit_residuals c kiter fsM junk G r statrese sigma2) in
  is_nan (at_ sigma2' b) = false
  /\ (at_ sigma2' b <=? 1.0e99) = true
  /\ (is_nan (sig2_raw c statrese b) || (1.0e99 <? sig2_raw c statrese b) = true ->
      at_ sigma2' b = 1.0e99).
Proof.
  intros Hb Hlen sigma2'. subst sigma2'.
  assert (fit_residuals c kiter fsM junk G r statrese sigma2 =
          fold_left (endpoint_pass c kiter fsM junk statrese) (seq 0 (nendpnt c)) (r, G, sigma2))
    as -> by reflexivity.
  rewrite endpoint_loop_sigma2 by (try apply in_seq; simpl; lia).
  destruct (store_sigma2_bounded (sig2_out c kiter statrese b)) as [Hn Hle].
  repeat split; auto.
  intros Hbad. apply store_sigma2_replaces.
  unfold sig2_out; cbv zeta.
  destruct (sig2_raw c statrese b =? 0) eqn:Hz; [|now rewrite !andb_false_r].
  exfalso. apply orb_true_iff in Hbad. destruct Hbad as [Hbad|Hbad].
  - apply is_nan_spec in Hbad. rewrite FloatAxioms.eqb_spec, Hbad in Hz. discriminate.
  - rewrite ltb_spec in Hbad. rewrite FloatAxioms.eqb_spec in Hz.
    unfold SFltb, SFeqb in *.
    destruct (SFcompare (Prim2SF (sig2_raw c statrese b)) (Prim2SF 0)) as [o|] eqn:Ec;
      [|discriminate].
    destruct o; try discriminate.
    apply SFcompare_antisym in Ec. simpl in Ec.
    replace (Prim2SF 0) with (S754_zero false) in * by reflexivity.
    destruct (Prim2SF (sig2_raw c statrese b)); simpl in *; try discriminate.
    all: repeat match goal with s : bool |- _ => destruct s end; discriminate.
Qed.

End Sigma2.

Lemma sigma2_capped_witness :
  (0 < nendpnt (example_config rmAdd [0; 0; 0; 0]%Z 0))%nat
  /\ (nendpnt (example_config rmAdd [0; 0; 0; 0]%Z 0) <= List.length [10])%nat
  /\ (let sigma2' :=
        snd (fit_residuals (E := example_extern)
               (example_config rmAdd [0; 0; 0; 0]%Z 0) 1 [2; 6] (fun _ => 0)
               example_globals example_res [infinity] [10]) in
      is_nan (at_ sigma2' 0) = false
      /\ (at_ sigma2' 0 <=? 1.0e99) = true
      /\ (is_nan (sig2_raw (example_config rmAdd [0; 0; 0; 0]%Z 0) [infinity] 0)
          || (1.0e99 <? sig2_raw (example_config rmAdd [0; 0; 0; 0]%Z 0) [infinity] 0)
          = true -> at_ sigma2' 0 = 1.0e99)).
Proof.
  split; [simpl; lia|]. split; [simpl; lia|].
  apply (sigma2_capped (E := example_extern)); simpl; lia.
Defined.

(* ================================================================== *)
(** * Fixed residual parameters and the burn-in (C7, C9) *)

Lemma uint32_id (n : Z) : (0 <= n < 2 ^ 32)%Z -> uint32 n = n.
Proof. intros H. unfold uint32. now apply Z.mod_small. Qed.

Lemma ugt_true (kiter nb : Z) :
  (0 <= nb)%Z -> (nb < kiter)%Z -> (kiter < 2 ^ 32)%Z -> ugt kiter nb = true.
Proof.
  intros H0 H1 H2. unfold ugt. rewrite uint32_id by lia. now apply Z.ltb_lt.
Qed.

Lemma ugt_ule (kiter nb : Z) : ugt kiter nb = negb (ule kiter nb).
Proof. unfold ugt, ule. now rewrite Z.leb_antisym, negb_involutive. Qed.

Lemma get_set_par_eq (X : res_par) (b : nat) (v : double) (r : res_pars) :
  (b < List.length (ares r))%nat -> (b < List.length (bres r))%nat ->
  (b < List.length (cres r))%nat -> (b < List.length (lres r))%nat ->
  get_par X b (set_par X b v r) = v.
Proof.
  intros Ha Hb Hc Hl. destruct X; simpl; unfold at_; now apply nth_upd_eq.
Qed.

Lemma get_set_par_ne (X Y : res_par) (b : nat) (v : double) (r : res_pars) :
  X <> Y -> get_par X b (set_par Y b v r) = get_par X b r.
Proof. intros H. destruct X, Y; simpl; congruence. Qed.

Lemma set_par_length (Y : res_par) (b : nat) (v : double) (r : res_pars) :
  List.length (ares (set_par Y b v r)) = List.length (ares r)
  /\ List.length (bres (set_par Y b v r)) = List.length (bres r)
  /\ List.length (cres (set_par Y b v r)) = List.length (cres r)
  /\ List.length (lres (set_par Y b v r)) = List.length (lres r).
Proof. destruct Y; simpl; rewrite ?upd_length; auto. Qed.

Lemma in_range_set_par (b : nat) (Y : res_par) (v : double) (r : res_pars) :
  in_range b r -> in_range b (set_par Y b v r).
Proof.
  unfold in_range. destruct (set_par_length Y b v r) as (-> & -> & -> & ->). auto.
Qed.

Lemma get_set_par (X : res_par) (b : nat) (v : double) (r : res_pars) :
  in_range b r -> get_par X b (set_par X b v r) = v.
Proof. intros (Ha & Hb & Hc & Hl). now apply get_set_par_eq. Qed.

Section FixedParameters.
Context {E : Extern}.
Variables (c : config) (kiter : Z) (fsM : vec) (junk : nat -> double).

Lemma fix_or_start_in_range (b o j : nat) (Y : res_par) (enc : double -> double)
      (p : prep) :
  in_range b (p_res p) -> in_range b (p_res (fix_or_start c b o j Y enc p)).
Proof.
  intros H. unfold fix_or_start. destruct (_ =? 1)%Z; simpl; auto.
  now apply in_range_set_par.
Qed.

Lemma fix_or_start_fixed (b o j : nat) (Y : res_par) (enc : double -> double)
      (p : prep) :
  nth (o + j) (resFixed c) 0%Z = 1%Z -> in_range b (p_res p) ->
  get_par Y b (p_res (fix_or_start c b o j Y enc p)) = at_ (resValue c) (o + j).
Proof.
  intros Hf Hr. unfold fix_or_start. rewrite Hf. simpl. now apply get_set_par.
Qed.

Lemma fix_or_start_other (X : res_par) (b o j : nat) (Y : res_par)
      (enc : double -> double) (p : prep) :
  X <> Y ->
  get_par X b (p_res (fix_or_start c b o j Y enc p)) = get_par X b (p_res p).
Proof.
  intros Hne. unfold fix_or_start. destruct (_ =? 1)%Z; simpl; auto.
  now apply get_set_par_ne.
Qed.

Lemma adjust_back_fixed (b o j : nat) (Y : res_par) (dec : double -> double)
      (pxmin : vec) (s : res_pars * nat) :
  nth (o + j) (resFixed c) 0%Z = 1%Z ->
  adjust_back c kiter b o j Y dec pxmin s = s.
Proof. intros Hf. unfold adjust_back. destruct s. now rewrite Hf. Qed.

Lemma adjust_back_other (X : res_par) (b o j : nat) (Y : res_par)
      (dec : double -> double) (pxmin : vec) (s : res_pars * nat) :
  X <> Y ->
  get_par X b (fst (adjust_back c kiter b o j Y dec pxmin s)) = get_par X b (fst s).
Proof.
  intros Hne. unfold adjust_back. destruct s as [r k].
  destruct (_ =? 0)%Z; simpl; auto. now apply get_set_par_ne.
Qed.

Ltac split_res_mod m :=
  destruct (Z.eqb_spec m rmAdd);
  [|destruct (Z.eqb_spec m rmProp);
    [|destruct (Z.eqb_spec m rmAddProp);
      [|destruct (Z.eqb_spec m rmAddPow);
        [|destruct (Z.eqb_spec m rmPow);
          [|destruct (Z.eqb_spec m rmAddLam);
            [|destruct (Z.eqb_spec m rmPropLam);
              [|destruct (Z.eqb_spec m rmPowLam);
                [|destruct (Z.eqb_spec m rmAddPropLam);
                  [|destruct (Z.eqb_spec m rmAddPowLam)]]]]]]]]].

(** After the burn-in a parameter whose flag is set leaves its case with
    the supplied value, whatever the minimizer returned. *)
Lemma fit_endpoint_fixed (G : globals) (r : res_pars) (statrese : vec)
      (b j : nat) (X : res_par) :
  ugt kiter (nb_fixResid c) = true ->
  in_range b r ->
  nth_error (slots (nth b (res_mod c) 0%Z)) j = Some X ->
  nth (nth b (res_offset c) O + j) (resFixed c) 0%Z = 1%Z ->
  get_par X b (fst (fst (fit_endpoint c kiter fsM junk G r statrese b)))
  = at_ (resValue c) (nth b (res_offset c) O + j).
Proof.
  intros Hpost Hr Hslot Hfix.
  unfold fit_endpoint. cbv zeta.
  unfold fit_rmAddProp, fit_rmAddPow, fit_rmPow, fit_rmAddLam, fit_rmPropLam,
    fit_rmPowLam, fit_rmAddPropLam, fit_rmAddPowLam,
    prep_rmAddProp, prep_rmAddPow, prep_rmPow, prep_rmAddLam, prep_rmPropLam,
    prep_rmPowLam, prep_rmAddPropLam, prep_rmAddPowLam, post_burnin.
  cbv zeta. rewrite Hpost.
  set (offsetR := nth b (res_offset c) O) in *.
  set (m := nth b (res_mod c) 0%Z) in *.
  assert (Hfix0 := Hfix).
  split_res_mod m;
    match goal with
    | H : m = _ |- _ => rewrite H in Hslot
    | _ => idtac
    end;
    unfold slots in Hslot; simpl in Hslot;
    try (destruct j as [|[|[|[|[|j]]]]]; simpl in Hslot; try discriminate;
         inversion Hslot; subst X; clear Hslot).
  1-2: rewrite Nat.add_0_r in Hfix0; rewrite Hfix0; rewrite Nat.add_0_r;
    cbn [andb fst]; now apply get_set_par.
  all: cbn [fst];
    repeat first
           [ rewrite adjust_back_fixed by exact Hfix
           | rewrite adjust_back_other by discriminate ];
    cbn [fst];
    repeat rewrite fix_or_start_other by discriminate;
    try (apply fix_or_start_fixed;
         [exact Hfix | repeat apply fix_or_start_in_range; exact Hr]).
  exfalso. unfold slots in Hslot.
  repeat match type of Hslot with
         | context [(m =? ?k)%Z] =>
             destruct (Z.eqb_spec m k); [contradiction|]
         end.
  destruct j; discriminate.
Qed.

Lemma uses_minimizer_cases (m : Z) :
  uses_minimizer m = true ->
  m = rmPow \/ m = rmAddProp \/ m = rmAddPow \/ m = rmAddLam \/ m = rmPropLam
  \/ m = rmPowLam \/ m = rmAddPropLam \/ m = rmAddPowLam.
Proof.
  unfold uses_minimizer. intros H. apply andb_prop in H.
  destruct H as [H3 H10]. apply Z.leb_le in H3, H10.
  unfold rmPow, rmAddProp, rmAddPow, rmAddLam, rmPropLam, rmPowLam,
    rmAddPropLam, rmAddPowLam. lia.
Qed.

(** After the burn-in the first half of a case is the chain of its slots,
    run on the state that [n = 0; curi = 0] leaves. *)
Lemma prep_endpoint_slots (G : globals) (r : res_pars) (b : nat) :
  ugt kiter (nb_fixResid c) = true ->
  uses_minimizer (nth b (res_mod c) 0%Z) = true ->
  prep_endpoint c kiter G r b
  = Some (prep_slots c G b (nth b (res_offset c) O) 0
            (slots (nth b (res_mod c) 0%Z))
            (restart (prep0 (reset_FixedIdx G) r
                            (all_starts G r b (slots (nth b (res_mod c) 0%Z)))))).
Proof.
  intros Hpost. unfold prep_endpoint. cbv zeta.
  generalize (nth b (res_mod c) 0%Z) as m. intros m Hm.
  destruct (uses_minimizer_cases m Hm) as [H|[H|[H|[H|[H|[H|[H|H]]]]]]];
    subst m;
    unfold prep_rmAddProp, prep_rmAddPow, prep_rmPow, prep_rmAddLam,
      prep_rmPropLam, prep_rmPowLam, prep_rmAddPropLam, prep_rmAddPowLam,
      post_burnin; rewrite Hpost; reflexivity.
Qed.

Lemma slots_NoDup (m : Z) : NoDup (slots m).
Proof.
  unfold slots.
  repeat match goal with
         | |- context [(m =? ?k)%Z] => destruct (m =? k)%Z
         end;
    repeat constructor; simpl; intuition discriminate.
Qed.

Lemma slots_length (m : Z) : (List.length (slots m) <= 4)%nat.
Proof.
  unfold slots.
  repeat match goal with
         | |- context [(m =? ?k)%Z] => destruct (m =? k)%Z
         end; simpl; lia.
Qed.

Lemma firstn_upd_snoc {A : Type} (n : nat) (x : A) (l : list A) :
  (n < List.length l)%nat -> firstn (S n) (upd n x l) = firstn n l ++ [x].
Proof.
  revert l. induction n as [|n IH]; intros [|h t] Hl; simpl in *; try lia.
  - reflexivity.
  - f_equal. apply IH. lia.
Qed.

Lemma prep_slots_free (G : globals) (r : res_pars) (b o : nat)
      (sl : list res_par) :
  forall (j : nat) (p : prep) (fs : vec),
    NoDup sl ->
    (forall X, In X sl -> get_par X b (p_res p) = get_par X b r) ->
    p_curi p = p_n p ->
    p_n p = List.length fs ->
    firstn (p_n p) (p_start p) = fs ->
    (p_n p + List.length sl <= List.length (p_start p))%nat ->
    p_n (prep_slots c G b o j sl p)
    = List.length (fs ++ free_starts c G r b o j sl)
    /\ firstn (p_n (prep_slots c G b o j sl p))
              (p_start (prep_slots c G b o j sl p))
       = fs ++ free_starts c G r b o j sl.
Proof.
  induction sl as [|X sl IH]; intros j p fs Hnd Hget Hcuri Hn Hfs Hlen.
  - cbn [prep_slots free_starts]. rewrite app_nil_r. auto.
  - cbn [prep_slots free_starts]. apply NoDup_cons_iff in Hnd. destruct Hnd as [Hnotin Hnd'].
    unfold fix_or_start.
    destruct (nth (o + j) (resFixed c) 0 =? 1)%Z.
    + apply IH; cbn [p_res p_curi p_n p_start]; auto.
      * intros Y HY. rewrite get_set_par_ne.
        -- apply Hget. now right.
        -- intros ->. contradiction.
      * cbn [List.length] in Hlen. lia.
    + replace (fs ++ enc_par G X (get_par X b r) :: free_starts c G r b o (S j) sl)
        with ((fs ++ [enc_par G X (get_par X b r)]) ++ free_starts c G r b o (S j) sl)
        by (now rewrite <- app_assoc).
      apply IH; cbn [p_res p_curi p_n p_start].
      * assumption.
      * intros Y HY. apply Hget. now right.
      * now rewrite Hcuri.
      * rewrite length_app, Hn. cbn [List.length]. lia.
      * rewrite Hcuri, firstn_upd_snoc by (cbn [List.length] in Hlen; lia).
        rewrite Hfs, (Hget X) by now left. reflexivity.
      * rewrite upd_length. cbn [List.length] in Hlen. lia.
Qed.

(** What the first half of a case hands to the minimizer after the
    burn-in: [n] counts the slots whose flag is not set and the first [n]
    entries of [start] are their start values, in order. *)
Lemma prep_endpoint_free (G : globals) (r : res_pars) (b : nat) :
  ugt kiter (nb_fixResid c) = true ->
  uses_minimizer (nth b (res_mod c) 0%Z) = true ->
  exists p, prep_endpoint c kiter G r b = Some p
    /\ p_n p = List.length (free_starts c G r b (nth b (res_offset c) O) 0
                                        (slots (nth b (res_mod c) 0%Z)))
    /\ firstn (p_n p) (p_start p)
       = free_starts c G r b (nth b (res_offset c) O) 0
                     (slots (nth b (res_mod c) 0%Z)).
Proof.
  intros Hpost Hm. eexists. split; [now apply prep_endpoint_slots|].
  apply (prep_slots_free G r b _ _ 0 _ []).
  - apply slots_NoDup.
  - reflexivity.
  - reflexivity.
  - reflexivity.
  - reflexivity.
  - cbn [restart prep0 p_n p_start plus]. unfold all_starts.
    now rewrite length_map.
Qed.

(** The globals as the case leaves them hold the mask, the fixed values
    and the start vector of its first half. *)
Lemma fit_endpoint_globals (G : globals) (r : res_pars) (statrese : vec) (b : nat)
      (p : prep) :
  prep_endpoint c kiter G r b = Some p ->
  let G' := snd (fst (fit_endpoint c kiter fsM junk G r statrese b)) in
  _saemFixedIdx G' = p_idx p /\ _saemFixedValue G' = p_val p
  /\ _saemStart G' = p_start p.
Proof.
  unfold prep_endpoint, fit_endpoint. cbv zeta.
  set (m := nth b (res_mod c) 0%Z).
  split_res_mod m;
    match goal with
    | H : m = _ |- _ => rewrite H
    | _ => idtac
    end; simpl; try discriminate;
    try (intros H; inversion H; subst p; clear H; repeat split; reflexivity).
Qed.

Lemma prep_slots_in_range (G : globals) (b o : nat) (sl : list res_par) :
  forall (j : nat) (p : prep),
    in_range b (p_res p) -> in_range b (p_res (prep_slots c G b o j sl p)).
Proof.
  induction sl as [|X sl IH]; intros j p H; cbn [prep_slots]; auto.
  apply IH. now apply fix_or_start_in_range.
Qed.

Lemma fix_or_start_masks (b o j : nat) (X : res_par) (enc : double -> double)
      (p : prep) :
  List.length (p_idx (fix_or_start c b o j X enc p)) = List.length (p_idx p)
  /\ List.length (p_val (fix_or_start c b o j X enc p)) = List.length (p_val p)
  /\ (forall i, i <> j ->
        nth i (p_idx (fix_or_start c b o j X enc p)) 0%Z = nth i (p_idx p) 0%Z
        /\ at_ (p_val (fix_or_start c b o j X enc p)) i = at_ (p_val p) i).
Proof.
  unfold fix_or_start. destruct (_ =? 1)%Z; cbn [p_idx p_val].
  - rewrite !upd_length. repeat split; auto; unfold at_;
      apply nth_upd_ne; congruence.
  - auto.
Qed.

(** Later slots leave the mask and the values of earlier ones alone. *)
Lemma prep_slots_below (G : globals) (b o : nat) (sl : list res_par) :
  forall (j : nat) (p : prep) (i : nat),
    (i < j)%nat ->
    nth i (p_idx (prep_slots c G b o j sl p)) 0%Z = nth i (p_idx p) 0%Z
    /\ at_ (p_val (prep_slots c G b o j sl p)) i = at_ (p_val p) i.
Proof.
  induction sl as [|X sl IH]; intros j p i Hi; cbn [prep_slots]; auto.
  destruct (IH (S j) (fix_or_start c b o j X (enc_par G X) p) i) as [H1 H2]; [lia|].
  destruct (fix_or_start_masks b o j X (enc_par G X) p) as (_ & _ & H).
  destruct (H i) as [H3 H4]; [lia|]. rewrite H1, H2. auto.
Qed.

Lemma prep_slots_mask (G : globals) (b o : nat) (sl : list res_par) :
  forall (j0 : nat) (p : prep) (j : nat) (X : res_par),
    nth_error sl j = Some X ->
    nth (o + (j0 + j)) (resFixed c) 0%Z = 1%Z ->
    in_range b (p_res p) ->
    (j0 + j < List.length (p_idx p))%nat ->
    (j0 + j < List.length (p_val p))%nat ->
    nth (j0 + j) (p_idx (prep_slots c G b o j0 sl p)) 0%Z = 1%Z
    /\ at_ (p_val (prep_slots c G b o j0 sl p)) (j0 + j)
       = enc_par G X (at_ (resValue c) (o + (j0 + j))).
Proof.
  induction sl as [|Y sl IH]; intros j0 p j X Hnth Hfix Hr Hi Hv.
  - destruct j; discriminate.
  - cbn [prep_slots]. destruct j as [|j].
    + cbn [nth_error] in Hnth. injection Hnth as ->.
      rewrite Nat.add_0_r in *.
      destruct (prep_slots_below G b o sl (S j0)
                  (fix_or_start c b o j0 X (enc_par G X) p) j0) as [H1 H2]; [lia|].
      rewrite H1, H2. unfold fix_or_start. rewrite Hfix.
      change (1 =? 1)%Z with true. cbn [p_idx p_val p_res].
      unfold at_ at 1. rewrite !nth_upd_eq by assumption.
      rewrite get_set_par by assumption. auto.
    + cbn [nth_error] in Hnth.
      destruct (fix_or_start_masks b o j0 Y (enc_par G Y) p) as (Hl1 & Hl2 & _).
      replace (j0 + S j)%nat with (S j0 + j)%nat in * by lia.
      apply IH; auto.
      * now apply fix_or_start_in_range.
      * now rewrite Hl1.
      * now rewrite Hl2.
Qed.

(** The mask and the fixed value of a flagged slot. *)
Lemma prep_endpoint_mask (G : globals) (r : res_pars) (b j : nat) (X : res_par)
      (p : prep) :
  ugt kiter (nb_fixResid c) = true ->
  in_range b r ->
  List.length (_saemFixedValue G) = 4%nat ->
  nth_error (slots (nth b (res_mod c) 0%Z)) j = Some X ->
  nth (nth b (res_offset c) O + j) (resFixed c) 0%Z = 1%Z ->
  prep_endpoint c kiter G r b = Some p ->
  nth j (p_idx p) 0%Z = 1%Z
  /\ at_ (p_val p) j
     = enc_par G X (at_ (resValue c) (nth b (res_offset c) O + j)).
Proof.
  intros Hpost Hr Hlen Hslot Hfix Hp.
  assert (Hj : (j < 4)%nat).
  { assert (H : nth_error (slots (nth b (res_mod c) 0%Z)) j <> None) by congruence.
    apply nth_error_Some in H.
    pose proof (slots_length (nth b (res_mod c) 0%Z)). lia. }
  destruct (uses_minimizer (nth b (res_mod c) 0%Z)) eqn:Hm.
  - rewrite prep_endpoint_slots in Hp by assumption. injection Hp as <-.
    apply (prep_slots_mask G b _ _ 0 _ j X); auto.
    cbn [restart prep0 p_val reset_FixedIdx _saemFixedValue]. rewrite Hlen. exact Hj.
  - exfalso. revert Hp. unfold prep_endpoint. cbv zeta.
    revert Hm. unfold uses_minimizer.
    generalize (nth b (res_mod c) 0%Z) as m. intros m Hm.
    repeat match goal with
           | |- context [(m =? ?k)%Z] =>
               destruct (Z.eqb_spec m k);
               [subst m; discriminate Hm|]
           end.
    discriminate.
Qed.
(** C7.  At an iteration past the burn-in ([kiter > nb_fixResid], a
    count), a residual parameter whose fixed flag is set leaves the case
    of its endpoint with the supplied value [resValue], whatever the
    minimizer returned.  Where the case calls the minimizer, the
    parameter's coordinate is marked in [_saemFixedIdx] with its value in
    [_saemFixedValue], and the vector handed over (the first [n] entries
    of [start]) holds the start values of the unflagged slots only. *)
Theorem fixed_parameter_held (G : globals) (r : res_pars) (statrese : vec)
        (b j : nat) (X : res_par) :
  (0 <= nb_fixResid c)%Z -> (nb_fixResid c < kiter)%Z -> (kiter < 2 ^ 32)%Z ->
  in_range b r ->
  List.length (_saemFixedValue G) = 4%nat ->
  nth_error (slots (nth b (res_mod c) 0%Z)) j = Some X ->
  nth (nth b (res_offset c) O + j) (resFixed c) 0%Z = 1%Z ->
  let offsetR := nth b (res_offset c) O in
  let m := nth b (res_mod c) 0%Z in
  let out := fit_endpoint c kiter fsM junk G r statrese b in
  get_par X b (fst (fst out)) = at_ (resValue c) (offsetR + j)
  /\ (uses_minimizer m = true ->
      exists p, prep_endpoint c kiter G r b = Some p
        /\ _saemFixedIdx (snd (fst out)) = p_idx p
        /\ _saemFixedValue (snd (fst out)) = p_val p
        /\ _saemStart (snd (fst out)) = p_start p
        /\ nth j (p_idx p) 0%Z = 1%Z
        /\ at_ (p_val p) j = enc_par G X (at_ (resValue c) (offsetR + j))
        /\ p_n p = List.length (free_starts c G r b offsetR 0 (slots m))
        /\ firstn (p_n p) (p_start p) = free_starts c G r b offsetR 0 (slots m)).
Proof.
  intros Hnb0 Hnb Hk Hr Hlen Hslot Hfix offsetR m out.
  pose proof (ugt_true _ _ Hnb0 Hnb Hk) as Hpost.
  split.
  - now apply fit_endpoint_fixed.
  - intros Hm.
    destruct (prep_endpoint_free G r b Hpost Hm) as (p & Hp & Hn & Hstart).
    exists p. split; [exact Hp|].
    destruct (fit_endpoint_globals G r statrese b p Hp) as (Hi & Hv & Hs).
    destruct (prep_endpoint_mask G r b j X p Hpost Hr Hlen Hslot Hfix Hp) as (Hmask & Hval).
    repeat split; assumption.
Qed.

End FixedParameters.

Lemma fixed_parameter_held_witness :
  let c := example_config rmAddPowLam [1; 0; 1; 0]%Z 0 in
  let out := fit_endpoint (E := example_extern) c 1 [2; 6] (fun _ => 0)
               example_globals example_res [8] 0 in
  ((0 <= nb_fixResid c)%Z /\ (nb_fixResid c < 1)%Z /\ (1 < 2 ^ 32)%Z
   /\ in_range 0 example_res
   /\ List.length (_saemFixedValue example_globals) = 4%nat
   /\ nth_error (slots (nth 0 (res_mod c) 0%Z)) 2 = Some Cres
   /\ nth (nth 0 (res_offset c) O + 2) (resFixed c) 0%Z = 1%Z)
  /\ get_par Cres 0 (fst (fst out)) = 0.75
  /\ nth 2 (_saemFixedIdx (snd (fst out))) 0%Z = 1%Z
  /\ firstn 2 (_saemStart (snd (fst out))) = [2; 0.25].
Proof.
  intros c out.
  assert ((0 <= nb_fixResid c)%Z /\ (nb_fixResid c < 1)%Z /\ (1 < 2 ^ 32)%Z
          /\ in_range 0 example_res
          /\ List.length (_saemFixedValue example_globals) = 4%nat
          /\ nth_error (slots (nth 0 (res_mod c) 0%Z)) 2 = Some Cres
          /\ nth (nth 0 (res_offset c) O + 2) (resFixed c) 0%Z = 1%Z) as H.
  { unfold in_range. simpl. repeat split; try lia; reflexivity. }
  split; [exact H|].
  destruct H as (H1 & H2 & H3 & H4 & H5 & H6 & H7).
  destruct (fixed_parameter_held (E := example_extern) c 1 [2; 6] (fun _ => 0)
              example_globals example_res [8] 0 2 Cres H1 H2 H3 H4 H5 H6 H7)
    as [Hval _].
  split; [exact Hval|]. split; vm_compute; reflexivity.
Defined.


Section BurnIn.
Context {E : Extern}.
Variables (c : config) (kiter : Z) (fsM : vec) (junk : nat -> double).

Lemma blend_par_in_range (b : nat) (Y : res_par) (cand : double) (r : res_pars) :
  in_range b r -> in_range b (blend_par c kiter Y b cand r).
Proof. apply in_range_set_par. Qed.

Lemma blend_par_same (X : res_par) (b : nat) (cand : double) (r : res_pars) :
  in_range b r ->
  get_par X b (blend_par c kiter X b cand r) = blend c kiter (get_par X b r) cand.
Proof. intros H. unfold blend_par. now apply get_set_par. Qed.

Lemma blend_par_other (X Y : res_par) (b : nat) (cand : double) (r : res_pars) :
  X <> Y -> get_par X b (blend_par c kiter Y b cand r) = get_par X b r.
Proof. intros H. unfold blend_par. now apply get_set_par_ne. Qed.

Ltac split_res_mod m :=
  destruct (Z.eqb_spec m rmAdd);
  [|destruct (Z.eqb_spec m rmProp);
    [|destruct (Z.eqb_spec m rmAddProp);
      [|destruct (Z.eqb_spec m rmAddPow);
        [|destruct (Z.eqb_spec m rmPow);
          [|destruct (Z.eqb_spec m rmAddLam);
            [|destruct (Z.eqb_spec m rmPropLam);
              [|destruct (Z.eqb_spec m rmPowLam);
                [|destruct (Z.eqb_spec m rmAddPropLam);
                  [|destruct (Z.eqb_spec m rmAddPowLam)]]]]]]]]].

(** During the burn-in the case of an endpoint does not read the fixed
    flags or the fixed values. *)
Lemma fit_endpoint_burnin_flags (G : globals) (r : res_pars) (statrese : vec)
      (b : nat) (fixed : list Z) (value : vec) :
  ugt kiter (nb_fixResid c) = false ->
  fit_endpoint (with_fixed c fixed value) kiter fsM junk G r statrese b
  = fit_endpoint c kiter fsM junk G r statrese b.
Proof.
  intros Hburn.
  unfold fit_endpoint, fit_rmAddProp, fit_rmAddPow, fit_rmPow, fit_rmAddLam,
    fit_rmPropLam, fit_rmPowLam, fit_rmAddPropLam, fit_rmAddPowLam,
    prep_rmAddProp, prep_rmAddPow, prep_rmPow, prep_rmAddLam, prep_rmPropLam,
    prep_rmPowLam, prep_rmAddPropLam, prep_rmAddPowLam, post_burnin.
  cbn [nb_fixResid with_fixed]. rewrite Hburn, !andb_false_r. reflexivity.
Qed.

(** What the first half of a case hands to the minimizer during the
    burn-in: every slot of the model, and an empty mask. *)
Lemma prep_endpoint_burnin (G : globals) (r : res_pars) (b : nat) :
  ugt kiter (nb_fixResid c) = false ->
  uses_minimizer (nth b (res_mod c) 0%Z) = true ->
  exists p, prep_endpoint c kiter G r b = Some p
    /\ p_res p = r
    /\ p_idx p = [0; 0; 0; 0]%Z
    /\ p_n p = List.length (slots (nth b (res_mod c) 0%Z))
    /\ p_start p = map (fun X => enc_par G X (get_par X b r))
                       (slots (nth b (res_mod c) 0%Z)).
Proof.
  intros Hburn Hm. unfold prep_endpoint. cbv zeta.
  unfold prep_rmAddProp, prep_rmAddPow, prep_rmPow, prep_rmAddLam, prep_rmPropLam,
    prep_rmPowLam, prep_rmAddPropLam, prep_rmAddPowLam, post_burnin.
  cbv zeta. rewrite Hburn.
  destruct (uses_minimizer_cases _ Hm) as [H|[H|[H|[H|[H|[H|[H|H]]]]]]];
    rewrite H; simpl; eexists; repeat split; reflexivity.
Qed.

(** The blend of the burn-in branch, slot by slot. *)
Lemma fit_endpoint_burnin_blend (G : globals) (r : res_pars) (statrese : vec)
      (b j : nat) (X : res_par) (p : prep) :
  ugt kiter (nb_fixResid c) = false ->
  in_range b r ->
  prep_endpoint c kiter G r b = Some p ->
  nth_error (slots (nth b (res_mod c) 0%Z)) j = Some X ->
  let m := nth b (res_mod c) 0%Z in
  let out := fit_endpoint c kiter fsM junk G r statrese b in
  let pxmin := _saemOpt (snd (fst out)) (p_n p) (alloc junk (xmin_size m)) in
  get_par X b (fst (fst out))
  = blend c kiter (get_par X b r) (burnin_candidate G m j X pxmin).
Proof.
  intros Hburn Hr. unfold prep_endpoint, fit_endpoint. cbv zeta.
  unfold fit_rmAddProp, fit_rmAddPow, fit_rmPow, fit_rmAddLam, fit_rmPropLam,
    fit_rmPowLam, fit_rmAddPropLam, fit_rmAddPowLam,
    prep_rmAddProp, prep_rmAddPow, prep_rmPow, prep_rmAddLam, prep_rmPropLam,
    prep_rmPowLam, prep_rmAddPropLam, prep_rmAddPowLam, post_burnin.
  cbv zeta. rewrite Hburn.
  set (m := nth b (res_mod c) 0%Z) in *.
  split_res_mod m;
    match goal with
    | H : m = _ |- _ => rewrite H; try rewrite H
    | _ => idtac
    end; try discriminate;
    intros Hp Hslot; inversion Hp; subst p; clear Hp;
    unfold slots in Hslot; simpl in Hslot;
    destruct j as [|[|[|[|[|j]]]]]; simpl in Hslot; try discriminate;
    inversion Hslot; subst X; clear Hslot;
    cbn [fst snd p_res p_n prep0 List.length];
    repeat rewrite blend_par_other by discriminate;
    rewrite blend_par_same by (repeat apply blend_par_in_range; exact Hr);
    repeat rewrite blend_par_other by discriminate;
    reflexivity.
Qed.

Lemma ugt_false (nb : Z) :
  (0 <= kiter)%Z -> (kiter <= nb)%Z -> (nb < 2 ^ 32)%Z -> ugt kiter nb = false.
Proof.
  intros H0 H1 H2. unfold ugt. rewrite uint32_id by lia. now apply Z.ltb_ge.
Qed.

(** C9.  At an iteration of the burn-in ([kiter <= nb_fixResid]) the
    fixed flags are ignored: the case of an endpoint computes the same
    with any flags and fixed values, and where it calls the minimizer,
    every slot of the model is in the start vector ([n] counts them all,
    the mask is empty) and every parameter is blended from the minimizer's
    result by [X + pas(kiter)*(candidate - X)], flagged or not.  The
    candidate is the minimizer's coordinate of the slot mapped back; in
    [case rmPow] the code takes [pxmin[0]*pxmin[1]] for [bres]. *)
Theorem burnin_ignores_fixed_flags (G : globals) (r : res_pars) (statrese : vec)
        (b : nat) :
  (0 <= kiter)%Z -> (kiter <= nb_fixResid c)%Z -> (nb_fixResid c < 2 ^ 32)%Z ->
  in_range b r ->
  let m := nth b (res_mod c) 0%Z in
  let out := fit_endpoint c kiter fsM junk G r statrese b in
  (forall fixed value,
      fit_endpoint (with_fixed c fixed value) kiter fsM junk G r statrese b = out)
  /\ (uses_minimizer m = true ->
      exists p, prep_endpoint c kiter G r b = Some p
        /\ p_n p = List.length (slots m)
        /\ p_start p = map (fun X => enc_par G X (get_par X b r)) (slots m)
        /\ _saemStart (snd (fst out)) = p_start p
        /\ _saemFixedIdx (snd (fst out)) = [0; 0; 0; 0]%Z
        /\ (forall j X, nth_error (slots m) j = Some X ->
              get_par X b (fst (fst out))
              = blend c kiter (get_par X b r)
                  (burnin_candidate G m j X
                     (_saemOpt (snd (fst out)) (p_n p) (alloc junk (xmin_size m)))))).
Proof.
  intros Hk0 Hk Hnb Hr m out.
  pose proof (ugt_false _ Hk0 Hk Hnb) as Hburn.
  split.
  - intros fixed value. now apply fit_endpoint_burnin_flags.
  - intros Hm.
    destruct (prep_endpoint_burnin G r b Hburn Hm) as (p & Hp & Hres & Hidx & Hn & Hstart).
    exists p. split; [exact Hp|].
    destruct (fit_endpoint_globals c kiter fsM junk G r statrese b p Hp)
      as (Hi & Hv & Hs).
    repeat split; try assumption.
    + fold out in Hi. now rewrite Hi.
    + intros j X Hslot.
      now apply (fit_endpoint_burnin_blend G r statrese b j X p Hburn Hr Hp Hslot).
Qed.

(** In [case rmPow] the burn-in branch blends the product of the two
    coordinates into [bres]. *)
Lemma rmPow_burnin_bres (G : globals) (r : res_pars) (statrese : vec) (b : nat) :
  ugt kiter (nb_fixResid c) = false ->
  in_range b r ->
  nth b (res_mod c) 0%Z = rmPow ->
  let out := fit_endpoint c kiter fsM junk G r statrese b in
  let pxmin := _saemOpt (snd (fst out)) 2 (alloc junk 2) in
  at_ (bres (fst (fst out))) b
  = at_ (bres r) b + pas_k c kiter * (at_ pxmin 0 * at_ pxmin 1 - at_ (bres r) b).
Proof.
  intros Hburn Hr Hm out pxmin.
  assert (uses_minimizer (nth b (res_mod c) 0%Z) = true) as Hu by now rewrite Hm.
  destruct (prep_endpoint_burnin G r b Hburn Hu) as (p & Hp & _ & _ & Hn & _).
  pose proof (fit_endpoint_burnin_blend G r statrese b 0 Bres p Hburn Hr Hp) as H.
  rewrite Hm in H, Hn. specialize (H eq_refl). simpl in Hn. rewrite Hn in H.
  exact H.
Qed.

End BurnIn.

Lemma burnin_ignores_fixed_flags_witness :
  let c := example_config rmAddPow [1; 0; 1; 0]%Z 5 in
  let out := fit_endpoint (E := example_extern) c 2 [2; 6] (fun _ => 0)
               example_globals example_res [8] 0 in
  ((0 <= 2)%Z /\ (2 <= nb_fixResid c)%Z /\ (nb_fixResid c < 2 ^ 32)%Z
   /\ in_range 0 example_res)
  /\ fit_endpoint (E := example_extern)
       (with_fixed c [0; 0; 0; 0]%Z [0; 0; 0; 0]) 2 [2; 6] (fun _ => 0)
       example_globals example_res [8] 0 = out
  /\ firstn 3 (_saemStart (snd (fst out))) = [1; 2; 0.5]
  /\ fst (fst out) = {| ares := [1.75]; bres := [5.25]; cres := [0.75]; lres := [0.25] |}.
Proof.
  intros c out.
  assert ((0 <= 2)%Z /\ (2 <= nb_fixResid c)%Z /\ (nb_fixResid c < 2 ^ 32)%Z
          /\ in_range 0 example_res) as H.
  { unfold in_range. simpl. repeat split; lia. }
  split; [exact H|].
  destruct H as (H1 & H2 & H3 & H4).
  destruct (burnin_ignores_fixed_flags (E := example_extern) c 2 [2; 6] (fun _ => 0)
              example_globals example_res [8] 0 H1 H2 H3 H4) as [Hsame _].
  split; [apply Hsame|]. split; vm_compute; reflexivity.
Defined.

(** C6, where the code departs from it.  Endpoint 0 has the power model,
    no parameter is fixed, the iteration is the first one (inside the
    burn-in, [pas = 1]), [bres] is 4 and the minimizer returns [(3, 1.5)]:
    the code leaves [bres] at [4 + 1*(3*1.5 - 4) = 4.5], where blending the
    squared scale coordinate gives [4 + 1*(3*3 - 4) = 9]. *)
Theorem rmPow_burnin_blends_product :
  let c := example_config rmPow [0; 0; 0; 0]%Z 0 in
  let out := fit_endpoint (E := example_extern) c 0 [2; 6] (fun _ => 0)
               example_globals example_res [8] 0 in
  let pxmin := _saemOpt (E := example_extern) (snd (fst out)) 2
                        (alloc (fun _ => 0) 2) in
  pxmin = [3; 1.5]
  /\ at_ (bres (fst (fst out))) 0 = 4.5
  /\ robbins_monro (at_ (pas c) 0) (at_ pxmin 0 * at_ pxmin 0) (at_ (bres example_res) 0) = 9.
Proof. vm_compute. repeat split; reflexivity. Qed.

(* ================================================================== *)
(** * An unknown distribution identifier (C8) *)

Section UnknownDistribution.
Variables (input state exn fit_output : Type).
Variable setupRx : input -> option exn.
Variable inits : input -> config * state.
Variable first_user_fn : config -> state -> exn + state.
Variable begin_iteration : config -> Z -> state -> exn + state.
Variable assemble : config -> state -> fit_output.

(** X1.  With an unknown distribution identifier the part of the loop
    body that follows the branch on the distribution never runs:
    whatever it would do, [saem_fit] returns the same and prints the
    same. *)
Lemma unknown_distribution_skips_iteration
      (iteration iteration' : config -> Z -> state -> exn + state) (x : input) :
  supported (distribution (fst (inits x))) = false ->
  saem_fit input state exn fit_output setupRx inits first_user_fn
           begin_iteration iteration assemble x
  = saem_fit input state exn fit_output setupRx inits first_user_fn
             begin_iteration iteration' assemble x.
Proof.
  unfold supported, saem_fit, saem_fit_method. intros Hd.
  destruct (setupRx x); [reflexivity|].
  destruct (inits x) as [c s]. simpl in Hd.
  destruct (first_user_fn c s) as [e|s0]; [reflexivity|].
  destruct (Z.to_nat (uint32 (niter c))) as [|todo]; [reflexivity|].
  simpl. rewrite Hd. reflexivity.
Qed.

(** C8, where the code departs from it.  When nothing outside the engine
    fails and at least one iteration is asked for, an unknown distribution
    identifier makes the method print its message and return, and the
    exported [saem_fit] then returns the list assembled from the object as
    the first pass of the loop left it: no exception reaches the caller. *)
Theorem unknown_distribution_returns_fit
        (iteration : config -> Z -> state -> exn + state)
        (x : input) (c : config) (s s0 s1 : state) :
  setupRx x = None ->
  inits x = (c, s) ->
  supported (distribution c) = false ->
  (0 < uint32 (niter c))%Z ->
  first_user_fn c s = inr s0 ->
  begin_iteration c 0%Z s0 = inr s1 ->
  saem_fit input state exn fit_output setupRx inits first_user_fn
           begin_iteration iteration assemble x
  = (inr (assemble c s1), [Unknown_distribution (distribution c)]).
Proof.
  intros Hsetup Hinits Hd Hn Hfirst Hbegin.
  unfold saem_fit, saem_fit_method. rewrite Hsetup, Hinits, Hfirst.
  destruct (Z.to_nat (uint32 (niter c))) as [|todo] eqn:Htodo; [lia|].
  simpl. rewrite Hbegin. unfold supported in Hd. rewrite Hd. reflexivity.
Qed.

End UnknownDistribution.

Lemma unknown_distribution_returns_fit_witness :
  let c := with_distribution (example_config rmAdd [0; 0; 0; 0]%Z 0) 4 in
  (supported (distribution c) = false /\ (0 < uint32 (niter c))%Z)
  /\ example_saem_fit 4 = (inr O, [Unknown_distribution 4]).
Proof.
  intros c. split; [split; [reflexivity | vm_compute; reflexivity]|].
  unfold example_saem_fit.
  apply (unknown_distribution_returns_fit Z nat unit nat (fun _ => None)
           (fun d => (with_distribution (example_config rmAdd [0; 0; 0; 0]%Z 0) d, O))
           (fun _ s => inr s) (fun _ _ s => inr s) (fun _ s => s)
           (fun _ _ s => inr (S s)) 4%Z c O O O);
    try reflexivity.
Defined.

(* ================================================================== *)
(** * Index vectors and assignments through them *)

Lemma find_from_In (i : nat) (p : list bool) (r : nat) :
  In r (find_from i p) <-> (i <= r)%nat /\ nth (r - i) p false = true.
Proof.
  revert i. induction p as [|h t IH]; intros i; simpl.
  - split; [contradiction|]. intros [_ H]. destruct (r - i)%nat; discriminate.
  - assert (In r (find_from (S i) t) <->
            (i <= r)%nat /\ r <> i /\ nth (r - S i) t false = true) as Ht.
    { rewrite IH. split; intros H; repeat split; try lia; apply H. }
    destruct h; simpl; rewrite Ht.
    + split.
      * intros [->|(Hle & Hne & Hn)].
        -- split; [lia|]. now rewrite Nat.sub_diag.
        -- split; [lia|]. destruct (r - i)%nat as [|k] eqn:Ek; [lia|].
           replace (r - S i)%nat with k in Hn by lia. exact Hn.
      * intros [Hle Hn]. destruct (Nat.eq_dec i r) as [->|Hne]; [now left|].
        right. repeat split; try lia.
        destruct (r - i)%nat as [|k] eqn:Ek; [lia|].
        replace (r - S i)%nat with k by lia. exact Hn.
    + split.
      * intros (Hle & Hne & Hn). split; [lia|].
        destruct (r - i)%nat as [|k] eqn:Ek; [lia|].
        replace (r - S i)%nat with k in Hn by lia. exact Hn.
      * intros [Hle Hn]. destruct (r - i)%nat as [|k] eqn:Ek; [discriminate|].
        repeat split; try lia. replace (r - S i)%nat with k by lia. exact Hn.
Qed.

Lemma find_In (p : list bool) (r : nat) :
  In r (find p) <-> nth r p false = true.
Proof.
  unfold find. rewrite find_from_In, Nat.sub_0_r. split; [tauto|].
  intros H; split; [lia|exact H].
Qed.

Lemma find_lt (p : list bool) (r : nat) :
  In r (find p) -> (r < List.length p)%nat.
Proof.
  rewrite find_In. intros H. destruct (Nat.lt_ge_cases r (List.length p)); auto.
  rewrite nth_overflow in H by assumption. discriminate.
Qed.

Lemma has_In (ix : uvec) (k : nat) : has ix k = true <-> In k ix.
Proof.
  unfold has. rewrite existsb_exists. split.
  - intros (x & Hx & He). apply Nat.eqb_eq in He. now subst.
  - intros H. exists k. split; [exact H | apply Nat.eqb_refl].
Qed.

Lemma has_find (p : list bool) (r : nat) : has (find p) r = nth r p false.
Proof.
  destruct (nth r p false) eqn:Hn.
  - apply has_In, find_In, Hn.
  - destruct (has (find p) r) eqn:Hh; [|reflexivity].
    apply has_In, find_In in Hh. congruence.
Qed.

Lemma zipWith_length {A B C : Type} (f : A -> B -> C) (l : list A) (l' : list B) :
  List.length (zipWith f l l') = Nat.min (List.length l) (List.length l').
Proof.
  revert l'. induction l as [|a l IH]; intros [|b l']; simpl; auto.
Qed.

Lemma nth_zipWith {A B C : Type} (f : A -> B -> C) (l : list A) (l' : list B)
      (k : nat) (da : A) (db : B) (dc : C) :
  (k < List.length l)%nat -> (k < List.length l')%nat ->
  nth k (zipWith f l l') dc = f (nth k l da) (nth k l' db).
Proof.
  revert l' k. induction l as [|a l IH]; intros [|b l'] [|k]; simpl;
    intros H H'; try lia; auto. apply IH; lia.
Qed.

(** [v(ix) = w(ix)], entry by entry. *)
Lemma set_vec_elems_at (v : vec) (ix : uvec) (w : vec) (r : nat) :
  at_ (set_vec_elems v ix w) r =
  if has ix r && (r <? List.length v)%nat then at_ w r else at_ v r.
Proof.
  unfold set_vec_elems, has. revert v.
  induction ix as [|k ix IH]; intros v; simpl; [reflexivity|].
  rewrite IH, upd_length. unfold at_. rewrite nth_upd.
  destruct (Nat.eqb_spec r k) as [->|Hne]; simpl.
  - rewrite Nat.eqb_refl. simpl.
    destruct (existsb (Nat.eqb k) ix); simpl;
      destruct (k <? List.length v)%nat; reflexivity.
  - destruct (Nat.eqb_spec k r) as [->|_]; [congruence|]. reflexivity.
Qed.

Lemma set_vec_elems_length (v : vec) (ix : uvec) (w : vec) :
  List.length (set_vec_elems v ix w) = List.length v.
Proof.
  unfold set_vec_elems. revert v.
  induction ix as [|k ix IH]; intros v; simpl; [reflexivity|].
  now rewrite IH, upd_length.
Qed.

Lemma mat_at_set (A : mat) (r0 c0 : nat) (x : double) (r c : nat) :
  mat_at (mat_set A r0 c0 x) r c =
  if ((r0 + c0 * n_rows A =? r + c * n_rows A)%nat
      && (r0 + c0 * n_rows A <? List.length (mem A))%nat)%bool
  then x else mat_at A r c.
Proof. unfold mat_at, mat_set. simpl. apply nth_upd. Qed.

(** Column-major indices of cells in range determine the cell. *)
Lemma cell_index_inj (n r c r' c' : nat) :
  (r < n)%nat -> (r' < n)%nat ->
  (r + c * n = r' + c' * n)%nat -> r = r' /\ c = c'.
Proof.
  intros Hr Hr' He.
  assert (c = c') as Hc.
  { pose proof (Nat.div_add_l c n r ltac:(lia)) as H1.
    pose proof (Nat.div_add_l c' n r' ltac:(lia)) as H2.
    rewrite (Nat.div_small r), Nat.add_0_r in H1 by lia.
    rewrite (Nat.div_small r'), Nat.add_0_r in H2 by lia.
    replace (c * n + r)%nat with (c' * n + r')%nat in H1 by lia. congruence. }
  subst. split; lia.
Qed.

(** One column of [A(rows, cols) = B(rows, cols)]. *)
Lemma set_rows_at (B : mat) (c0 : nat) (rows : uvec) (A : mat) (r c : nat) :
  (r < n_rows A)%nat ->
  Forall (fun r0 => (r0 < n_rows A)%nat) rows ->
  (r + c * n_rows A < List.length (mem A))%nat ->
  let A' := fold_left (fun M r0 => mat_set M r0 c0 (mat_at B r0 c0)) rows A in
  n_rows A' = n_rows A /\ n_cols A' = n_cols A
  /\ List.length (mem A') = List.length (mem A)
  /\ mat_at A' r c =
     if (c =? c0)%nat && has rows r then mat_at B r c else mat_at A r c.
Proof.
  revert A. induction rows as [|r0 rows IH]; intros A Hr Hrows Hlen; simpl.
  - rewrite andb_false_r. auto.
  - inversion Hrows as [|? ? Hr0 Hrows']; subst.
    specialize (IH (mat_set A r0 c0 (mat_at B r0 c0))).
    simpl in IH. rewrite upd_length in IH.
    destruct (IH Hr Hrows' Hlen) as (Hn & Hm & Hl & Hat). clear IH.
    repeat split; auto. rewrite Hat. unfold has. simpl.
    rewrite mat_at_set.
    destruct (Nat.eqb_spec (r0 + c0 * n_rows A) (r + c * n_rows A)) as [He|Hne];
      simpl.
    + destruct (cell_index_inj _ _ _ _ _ Hr0 Hr He) as [-> ->].
      rewrite !Nat.eqb_refl. simpl.
      apply Nat.ltb_lt in Hlen. rewrite Hlen.
      destruct (existsb (Nat.eqb r) rows); reflexivity.
    + destruct (Nat.eqb_spec c c0) as [->|Hc]; simpl; [|reflexivity].
      destruct (Nat.eqb_spec r r0) as [->|Hrr]; [congruence|]. reflexivity.
Qed.

(** [A(rows, cols) = B(rows, cols)], entry by entry. *)
Lemma set_submat_at (A : mat) (rows cols : uvec) (B : mat) (r c : nat) :
  (r < n_rows A)%nat ->
  Forall (fun r0 => (r0 < n_rows A)%nat) rows ->
  (r + c * n_rows A < List.length (mem A))%nat ->
  mat_at (set_submat A rows cols B) r c =
  if has rows r && has cols c then mat_at B r c else mat_at A r c.
Proof.
  unfold set_submat. revert A.
  induction cols as [|c0 cols IH]; intros A Hr Hrows Hlen; simpl.
  - now rewrite andb_false_r.
  - destruct (set_rows_at B c0 rows A r c Hr Hrows Hlen) as (Hn & Hm & Hl & Hat).
    rewrite IH; rewrite ?Hn, ?Hl; auto.
    rewrite Hat. unfold has at 2. simpl.
    destruct (has rows r); simpl; [|now rewrite andb_false_r].
    rewrite andb_true_r.
    destruct (Nat.eqb_spec c c0) as [->|Hc]; simpl; [|reflexivity].
    fold (has cols c0). destruct (has cols c0); reflexivity.
Qed.

(* ================================================================== *)
(** * The Metropolis-Hastings acceptance step (C3) *)

Section Acceptance.
Context {E : Extern}.

Lemma deltu_of_length (method : Z) (U_y Uc_y U_phi Uc_phi : vec) (n : nat) :
  List.length U_y = n -> List.length Uc_y = n ->
  (method <> 1%Z -> List.length U_phi = n /\ List.length Uc_phi = n) ->
  List.length (deltu_of method U_y Uc_y U_phi Uc_phi) = n.
Proof.
  intros Hy Hcy Hphi. unfold deltu_of.
  destruct (Z.eqb_spec method 1) as [Hm|Hm]; cbv iota; rewrite ?zipWith_length.
  - lia.
  - destruct (Hphi Hm). lia.
Qed.

(** C3.  In one pass of a Metropolis-Hastings kernel, row [r] (a subject
    of a chain) is accepted exactly when its [deltu] is strictly less than
    [-log(U)] for the row's uniform draw [U].  Afterwards the entries of
    row [r] of [phiM] in the target columns [i] are the proposal's if the
    row was accepted, and every other entry of [phiM] is what it was;
    [U_y(r)] is the proposal's if the row was accepted and unchanged
    otherwise; so is [U_phi(r)] for kernels 2 and 3, and kernel 1 leaves
    [U_phi] alone. *)
Theorem mh_accept_rows (method : Z) (i : uvec) (phiM phiMc : mat)
        (U_y Uc_y U_phi Uc_phi u : vec) (r : nat) :
  wf_mat phiM ->
  List.length U_y = n_rows phiM ->
  List.length Uc_y = n_rows phiM ->
  List.length u = n_rows phiM ->
  (method <> 1%Z ->
   List.length U_phi = n_rows phiM /\ List.length Uc_phi = n_rows phiM) ->
  (r < n_rows phiM)%nat ->
  let deltu := deltu_of method U_y Uc_y U_phi Uc_phi in
  let out := mh_accept method i phiM phiMc U_y Uc_y U_phi Uc_phi u in
  let acc := at_ deltu r <? - log (at_ u r) in
  at_ deltu r =
    (if (method =? 1)%Z then at_ Uc_y r - at_ U_y r
     else at_ Uc_y r - at_ U_y r + at_ Uc_phi r - at_ U_phi r)
  /\ (forall c, (c < n_cols phiM)%nat ->
        mat_at (fst (fst out)) r c =
        if acc && has i c then mat_at phiMc r c else mat_at phiM r c)
  /\ at_ (snd (fst out)) r = (if acc then at_ Uc_y r else at_ U_y r)
  /\ at_ (snd out) r =
     (if acc && (1 <? method)%Z then at_ Uc_phi r else at_ U_phi r).
Proof.
  intros Hwf Hy Hcy Hu Hphi Hr deltu out acc.
  assert (List.length deltu = n_rows phiM) as Hd
      by (apply deltu_of_length; auto).
  assert (nth r (accepted deltu u) false = acc) as Hacc.
  { unfold accepted, acc, at_.
    apply (nth_zipWith (fun d ui => d <? - log ui)); lia. }
  assert (Forall (fun r0 => (r0 < n_rows phiM)%nat) (find (accepted deltu u)))
    as Hind.
  { apply Forall_forall. intros r0 H0. apply find_lt in H0.
    unfold accepted in H0. rewrite zipWith_length in H0. lia. }
  repeat split.
  - unfold deltu, deltu_of, at_.
    destruct (Z.eqb_spec method 1) as [Hm|Hm]; cbv iota.
    + apply (nth_zipWith (fun a b => a - b)); lia.
    + destruct (Hphi Hm) as [Hp Hcp].
      rewrite (nth_zipWith (fun a b => a - b) _ _ _ 0 0)
        by (rewrite ?zipWith_length; lia).
      rewrite (nth_zipWith (fun a b => a + b) _ _ _ 0 0)
        by (rewrite ?zipWith_length; lia).
      rewrite (nth_zipWith (fun a b => a - b) _ _ _ 0 0) by lia.
      reflexivity.
  - intros c Hc. unfold out, mh_accept. cbv zeta. cbn [fst snd].
    fold deltu. rewrite set_submat_at; auto.
    + now rewrite has_find, Hacc.
    + red in Hwf. rewrite Hwf. nia.
  - unfold out, mh_accept. cbv zeta. cbn [fst snd]. fold deltu.
    rewrite set_vec_elems_at, has_find, Hacc, Hy.
    apply Nat.ltb_lt in Hr. rewrite Hr, andb_true_r. reflexivity.
  - unfold out, mh_accept. cbv zeta. cbn [fst snd]. fold deltu.
    destruct (1 <? method)%Z eqn:Hm.
    + assert (method <> 1%Z) as Hne by (apply Z.ltb_lt in Hm; lia).
      destruct (Hphi Hne) as [Hp Hcp].
      rewrite set_vec_elems_at, has_find, Hacc, Hp.
      apply Nat.ltb_lt in Hr. rewrite Hr, !andb_true_r. reflexivity.
    + now rewrite andb_false_r.
Qed.

End Acceptance.

Lemma mh_accept_rows_witness :
  let phiM := Mat 2 2 [1; 2; 3; 4] in
  let phiMc := Mat 2 2 [10; 20; 30; 40] in
  let out := mh_accept (E := example_extern) 2 [1%nat] phiM phiMc
               [5; 5] [4; 6] [1; 1] [1; 1] [0.5; 0.5] in
  (wf_mat phiM /\ (0 < n_rows phiM)%nat /\ (1 < n_cols phiM)%nat)
  /\ out = (Mat 2 2 [1; 2; 30; 4], [4; 5], [1; 1])
  /\ mat_at (fst (fst out)) 0 1 = mat_at phiMc 0 1.
Proof.
  intros phiM phiMc out.
  assert (wf_mat phiM) as Hwf by reflexivity.
  split; [repeat split; simpl; lia|].
  split; [vm_compute; reflexivity|].
  destruct (mh_accept_rows (E := example_extern) 2 [1%nat] phiM phiMc
              [5; 5] [4; 6] [1; 1] [1; 1] [0.5; 0.5] 0 Hwf
              eq_refl eq_refl eq_refl (fun _ => conj eq_refl eq_refl)
              ltac:(simpl; lia)) as (_ & Hcols & _).
  exact (Hcols 1%nat ltac:(simpl; lia)).
Defined.

(* ================================================================== *)
(** * The floor under the diagonal of the covariance (C4) *)

Lemma nth_map_seq {A : Type} (g : nat -> A) (len k : nat) (d : A) :
  (k < len)%nat -> nth k (map g (seq 0 len)) d = g k.
Proof.
  intros H. rewrite (nth_indep _ d (g O)) by now rewrite length_map, length_seq.
  rewrite map_nth, seq_nth by assumption. reflexivity.
Qed.

Lemma mat_at_init (n m : nat) (f : nat -> nat -> double) (r c : nat) :
  (r < n)%nat -> (c < m)%nat -> mat_at (mat_init n m f) r c = f r c.
Proof.
  intros Hr Hc. unfold mat_at, mat_init. simpl.
  rewrite nth_map_seq by nia.
  rewrite Nat.Div0.mod_add, Nat.mod_small by lia.
  rewrite Nat.div_add, Nat.div_small by lia. reflexivity.
Qed.

Lemma mat_init_square (n : nat) (f : nat -> nat -> double) :
  square n (mat_init n n f).
Proof.
  unfold square, mat_init. simpl. now rewrite length_map, length_seq.
Qed.

Lemma mat_map_square (n : nat) (f : double -> double) (A : mat) :
  square n A -> square n (mat_map f A).
Proof.
  unfold square, mat_map. simpl. now rewrite length_map.
Qed.

Lemma mat_map2_square (n : nat) (f : double -> double -> double) (A B : mat) :
  square n A -> square n B -> square n (mat_map2 f A B).
Proof.
  unfold square, mat_map2. simpl. rewrite zipWith_length.
  intros (? & ? & ->) (? & ? & ->). rewrite Nat.min_id. auto.
Qed.

Lemma diag_at (A : mat) (j : nat) :
  (j < n_rows A)%nat -> at_ (diag A) j = mat_at A j j.
Proof. intros H. unfold at_, diag. now rewrite nth_map_seq. Qed.

Lemma diag_length (A : mat) : List.length (diag A) = n_rows A.
Proof. unfold diag. now rewrite length_map, length_seq. Qed.

(** Assignments to diagonal cells, entry by entry. *)
Lemma set_diag_at (v : vec) (js : uvec) (A : mat) (r c : nat) :
  (r < n_rows A)%nat ->
  Forall (fun j => (j < n_rows A)%nat) js ->
  (r + c * n_rows A < List.length (mem A))%nat ->
  let A' := fold_left (fun M jm => mat_set M jm jm (at_ v jm)) js A in
  n_rows A' = n_rows A /\ n_cols A' = n_cols A
  /\ List.length (mem A') = List.length (mem A)
  /\ mat_at A' r c =
     if (r =? c)%nat && has js r then at_ v r else mat_at A r c.
Proof.
  revert A. induction js as [|j js IH]; intros A Hr Hjs Hlen; simpl.
  - rewrite andb_false_r. auto.
  - inversion Hjs as [|? ? Hj Hjs']; subst.
    specialize (IH (mat_set A j j (at_ v j))).
    simpl in IH. rewrite upd_length in IH.
    destruct (IH Hr Hjs' Hlen) as (Hn & Hm & Hl & Hat). clear IH.
    repeat split; auto. rewrite Hat. unfold has. simpl.
    rewrite mat_at_set.
    destruct (Nat.eqb_spec (j + j * n_rows A) (r + c * n_rows A)) as [He|Hne];
      simpl.
    + destruct (cell_index_inj _ _ _ _ _ Hj Hr He) as [H1 H2]. subst r c.
      rewrite !Nat.eqb_refl. simpl.
      apply Nat.ltb_lt in Hlen. rewrite Hlen.
      destruct (existsb (Nat.eqb j) js); reflexivity.
    + destruct (Nat.eqb_spec r c) as [->|Hc]; simpl; [|reflexivity].
      destruct (Nat.eqb_spec c j) as [->|Hrr]; [congruence|]. reflexivity.
Qed.

(** The floor, entry by entry. *)
Lemma floor_diag_at (n : nat) (G : mat) (Gmin : vec) (j : nat) :
  square n G -> List.length Gmin = n -> (j < n)%nat ->
  square n (floor_diag G Gmin)
  /\ mat_at (floor_diag G Gmin) j j =
     if mat_at G j j <? at_ Gmin j then at_ Gmin j else mat_at G j j.
Proof.
  intros (Hr & Hc & Hl) Hg Hj. unfold floor_diag. cbv zeta.
  set (jDmin := find (zipWith (fun d m => d <? m) (diag G) Gmin)).
  assert (Forall (fun k => (k < n_rows G)%nat) jDmin) as Hjs.
  { apply Forall_forall. intros k Hk. apply find_lt in Hk.
    rewrite zipWith_length, diag_length in Hk. lia. }
  destruct (set_diag_at Gmin jDmin G j j ltac:(lia) Hjs ltac:(nia))
    as (Hn & Hm & Hlen & Hat).
  split; [unfold square; rewrite Hn, Hm, Hlen; auto|].
  rewrite Hat, Nat.eqb_refl. simpl. unfold jDmin. rewrite has_find.
  rewrite (nth_zipWith (fun d m => d <? m) _ _ _ 0 0)
    by (rewrite ?diag_length; lia).
  fold (at_ (diag G) j). fold (at_ Gmin j). rewrite diag_at by lia. reflexivity.
Qed.

(** The floored value is at least the floor, NaNs apart. *)
Lemma floored_ge (d m : double) :
  let d' := if d <? m then m else d in
  is_nan d' = false -> is_nan m = false -> (m <=? d') = true.
Proof.
  cbv zeta. destruct (d <? m) eqn:Hlt; intros Hd Hm.
  - now apply leb_refl.
  - now apply ltb_false_leb.
Qed.

(** [A.elem(ix) = B(ix)], entry by entry. *)
Lemma set_elems_at (A : mat) (ix : uvec) (B : mat) (k : nat) :
  let A' := set_elems A ix B in
  n_rows A' = n_rows A /\ n_cols A' = n_cols A
  /\ List.length (mem A') = List.length (mem A)
  /\ nth k (mem A') 0 =
     if has ix k && (k <? List.length (mem A))%nat
     then nth k (mem B) 0 else nth k (mem A) 0.
Proof.
  unfold set_elems, has. revert A.
  induction ix as [|i ix IH]; intros A; simpl; [auto|].
  destruct (IH (Mat (n_rows A) (n_cols A) (upd i (nth i (mem B) 0) (mem A))))
    as (Hn & Hm & Hl & Hat). simpl in *. rewrite upd_length in *.
  repeat split; auto. rewrite Hat, nth_upd.
  destruct (Nat.eqb_spec k i) as [->|Hne]; simpl.
  - rewrite Nat.eqb_refl. simpl.
    destruct (existsb (Nat.eqb i) ix); simpl;
      destruct (i <? List.length (mem A))%nat; reflexivity.
  - destruct (Nat.eqb_spec i k) as [->|_]; [congruence|]. reflexivity.
Qed.

Lemma diagmat_at (n : nat) (A : mat) (j : nat) :
  square n A -> (j < n)%nat ->
  square n (diagmat A) /\ mat_at (diagmat A) j j = mat_at A j j.
Proof.
  intros (Hr & Hc & Hl) Hj. unfold diagmat. rewrite Hr, Hc.
  split; [apply mat_init_square|].
  rewrite mat_at_init, Nat.eqb_refl by lia. reflexivity.
Qed.

Lemma diagmat_vec_at (v : vec) (j : nat) :
  (j < List.length v)%nat -> mat_at (diagmat_vec v) j j = at_ v j.
Proof.
  intros Hj. unfold diagmat_vec. rewrite mat_at_init, Nat.eqb_refl by lia.
  reflexivity.
Qed.

Section CovarianceFloor.
Variables (c : config) (kiter : Z).

Lemma elems_length (v : vec) (ix : uvec) :
  List.length (elems v ix) = List.length ix.
Proof. unfold elems. apply length_map. Qed.

Lemma masked_Gamma2_phi1_square (n : nat) (G1 Gamma2_phi1 : mat) :
  square n G1 -> square n Gamma2_phi1 -> square n (covstruct1 c) ->
  square n (masked_Gamma2_phi1 c kiter G1 Gamma2_phi1).
Proof.
  intros H1 H2 H3. unfold masked_Gamma2_phi1, mat_schur.
  apply mat_map2_square; [|exact H3].
  destruct (ule kiter (nb_sa c)); [|exact H1].
  apply mat_map2_square.
  - now apply mat_map_square.
  - destruct H1 as (Hr & Hc & Hl). unfold diagmat. rewrite Hr, Hc.
    apply mat_init_square.
Qed.

(** A diagonal entry of [Gamma2_phi1] after the update: a fixed value if
    it is overridden, the floored estimate otherwise. *)
Lemma update_Gamma2_phi1_diag (G1 Gamma2_phi1 : mat) (j : nat) :
  square (nphi1 c) G1 -> square (nphi1 c) Gamma2_phi1 ->
  square (nphi1 c) (covstruct1 c) ->
  List.length (i1 c) = nphi1 c -> (j < nphi1 c)%nat ->
  let d := mat_at (masked_Gamma2_phi1 c kiter G1 Gamma2_phi1) j j in
  let m := at_ (elems (minv c) (i1 c)) j in
  mat_at (update_Gamma2_phi1 c kiter G1 Gamma2_phi1) j j =
  if diag_overridden c kiter j
  then nth (j + j * nphi1 c) (mem (Gamma2_phi1fixedValues c)) 0
  else if d <? m then m else d.
Proof.
  intros H1 H2 H3 Hi Hj d m.
  pose proof (masked_Gamma2_phi1_square _ _ _ H1 H2 H3) as Hsq.
  destruct (floor_diag_at (nphi1 c) (masked_Gamma2_phi1 c kiter G1 Gamma2_phi1)
              (elems (minv c) (i1 c)) j Hsq
              ltac:(now rewrite elems_length) Hj) as [Hfsq Hfat].
  unfold update_Gamma2_phi1. cbv zeta. fold (masked_Gamma2_phi1 c kiter G1 Gamma2_phi1).
  set (F := floor_diag (masked_Gamma2_phi1 c kiter G1 Gamma2_phi1)
                       (elems (minv c) (i1 c))) in *.
  unfold diag_overridden.
  destruct ((Gamma2_phi1fixed c =? 1)%Z && ugt kiter (nb_fixOmega c)) eqn:Hov;
    cbn [andb].
  - destruct (set_elems_at F (Gamma2_phi1fixedIx c) (Gamma2_phi1fixedValues c)
                (j + j * nphi1 c)) as (Hn & Hm & Hl & Hat).
    destruct Hfsq as (Fr & Fc & Fl).
    assert (square (nphi1 c)
              (set_elems F (Gamma2_phi1fixedIx c) (Gamma2_phi1fixedValues c)))
      as Hsq' by (unfold square; rewrite Hn, Hm, Hl; auto).
    assert (mat_at (set_elems F (Gamma2_phi1fixedIx c) (Gamma2_phi1fixedValues c)) j j
            = if has (Gamma2_phi1fixedIx c) (j + j * nphi1 c)
              then nth (j + j * nphi1 c) (mem (Gamma2_phi1fixedValues c)) 0
              else if d <? m then m else d) as Hjj.
    { unfold mat_at at 1. rewrite Hn, Fr, Hat, Fl.
      assert ((j + j * nphi1 c <? nphi1 c * nphi1 c)%nat = true) as ->
          by (apply Nat.ltb_lt; nia).
      rewrite andb_true_r.
      destruct (has (Gamma2_phi1fixedIx c) (j + j * nphi1 c)); [reflexivity|].
      unfold d, m. rewrite <- Hfat. unfold mat_at. now rewrite Fr. }
    destruct (ule kiter (nb_correl c)); [|exact Hjj].
    destruct (diagmat_at _ _ j Hsq' Hj) as [_ ->]. exact Hjj.
  - destruct (ule kiter (nb_correl c)); [|exact Hfat].
    destruct (diagmat_at _ _ j Hfsq Hj) as [_ ->]. exact Hfat.
Qed.

(** A diagonal entry of [Gamma2_phi0] after an update inside its
    estimation window. *)
Lemma update_Gamma2_phi0_diag (G0 Gamma2_phi0 : mat) (dGamma2_phi0 : vec) (j : nat) :
  (0 < nphi0 c)%nat -> ule kiter (niter_phi0 c) = true ->
  square (nphi0 c) G0 -> List.length (i0 c) = nphi0 c -> (j < nphi0 c)%nat ->
  let m := at_ (elems (minv c) (i0 c)) j in
  mat_at (fst (update_Gamma2_phi0 c kiter G0 Gamma2_phi0 dGamma2_phi0)) j j =
  if mat_at G0 j j <? m then m else mat_at G0 j j.
Proof.
  intros Hn0 Hwin Hsq Hi Hj m. unfold update_Gamma2_phi0.
  apply Nat.ltb_lt in Hn0. rewrite Hn0, Hwin. cbn [fst].
  destruct (floor_diag_at (nphi0 c) G0 (elems (minv c) (i0 c)) j Hsq
              ltac:(now rewrite elems_length) Hj) as [(Fr & Fc & Fl) Hfat].
  rewrite diagmat_vec_at by (rewrite diag_length; lia).
  rewrite diag_at by lia. exact Hfat.
Qed.

(** C4, as the code has it.  After the covariance update of an
    iteration, a diagonal entry of [Gamma2_phi1] that is not overridden by
    a fixed element is at least the minimum [minv] of its dimension,
    unless the entry or the minimum is a NaN; this holds with the
    structural mask, the simulated-annealing maximum and the diagonal-only
    constraint applied.  An entry that is overridden holds the supplied
    fixed value.  While [nphi0 > 0] and inside its estimation window the
    same bound holds for every diagonal entry of [Gamma2_phi0]. *)
Theorem covariance_diagonal_floor (G1 Gamma2_phi1 : mat) (j : nat) :
  square (nphi1 c) G1 -> square (nphi1 c) Gamma2_phi1 ->
  square (nphi1 c) (covstruct1 c) ->
  List.length (i1 c) = nphi1 c -> (j < nphi1 c)%nat ->
  let G' := update_Gamma2_phi1 c kiter G1 Gamma2_phi1 in
  (diag_overridden c kiter j = false ->
   is_nan (mat_at G' j j) = false ->
   is_nan (at_ (elems (minv c) (i1 c)) j) = false ->
   (at_ (elems (minv c) (i1 c)) j <=? mat_at G' j j) = true)
  /\ (diag_overridden c kiter j = true ->
      mat_at G' j j = nth (j + j * nphi1 c) (mem (Gamma2_phi1fixedValues c)) 0)
  /\ (forall (G0 Gamma2_phi0 : mat) (dGamma2_phi0 : vec) (k : nat),
        (0 < nphi0 c)%nat -> ule kiter (niter_phi0 c) = true ->
        square (nphi0 c) G0 -> List.length (i0 c) = nphi0 c -> (k < nphi0 c)%nat ->
        let G0' := fst (update_Gamma2_phi0 c kiter G0 Gamma2_phi0 dGamma2_phi0) in
        is_nan (mat_at G0' k k) = false ->
        is_nan (at_ (elems (minv c) (i0 c)) k) = false ->
        (at_ (elems (minv c) (i0 c)) k <=? mat_at G0' k k) = true).
Proof.
  intros H1 H2 H3 Hi Hj G'.
  pose proof (update_Gamma2_phi1_diag G1 Gamma2_phi1 j H1 H2 H3 Hi Hj) as Hd.
  cbv zeta in Hd. fold G' in Hd.
  repeat split.
  - intros Hov Hnan Hmin. rewrite Hov in Hd. rewrite Hd in *.
    now apply floored_ge.
  - intros Hov. now rewrite Hov in Hd.
  - intros G0 Gamma2_phi0 dGamma2_phi0 k Hn0 Hwin Hsq Hi0 Hk G0' Hnan Hmin.
    pose proof (update_Gamma2_phi0_diag G0 Gamma2_phi0 dGamma2_phi0 k
                  Hn0 Hwin Hsq Hi0 Hk) as Hd0.
    cbv zeta in Hd0. fold G0' in Hd0. rewrite Hd0 in *.
    now apply floored_ge.
Qed.

End CovarianceFloor.

Lemma covariance_diagonal_floor_witness :
  let c := example_config rmAdd [0; 0; 0; 0]%Z 0 in
  let G1 := Mat 1 1 [0.2] in
  let Gamma2_phi1 := Mat 1 1 [1] in
  let G' := update_Gamma2_phi1 c 1 G1 Gamma2_phi1 in
  (square (nphi1 c) G1 /\ square (nphi1 c) Gamma2_phi1
   /\ square (nphi1 c) (covstruct1 c) /\ List.length (i1 c) = nphi1 c
   /\ (0 < nphi1 c)%nat)
  /\ G' = Mat 1 1 [0.5]
  /\ (at_ (elems (minv c) (i1 c)) 0 <=? mat_at G' 0 0) = true.
Proof.
  intros c G1 Gamma2_phi1 G'.
  assert (square (nphi1 c) G1 /\ square (nphi1 c) Gamma2_phi1
          /\ square (nphi1 c) (covstruct1 c) /\ List.length (i1 c) = nphi1 c
          /\ (0 < nphi1 c)%nat) as H.
  { unfold square. simpl. repeat split; lia. }
  split; [exact H|]. destruct H as (H1 & H2 & H3 & H4 & H5).
  split; [vm_compute; reflexivity|].
  destruct (covariance_diagonal_floor c 1 G1 Gamma2_phi1 0 H1 H2 H3 H4 H5)
    as (Hfloor & _ & _).
  apply Hfloor; vm_compute; reflexivity.
Defined.

(** C4 as stated fails where a fixed element sits on the diagonal: the
    override comes after the floor.  One random effect, minimum 0.5, the
    only element of [Gamma2_phi1] fixed at 0.1, second iteration (past
    [nb_fixOmega = 0]): the entry ends at 0.1, below the minimum. *)
Lemma fixed_diagonal_below_floor :
  let c := with_fixed_omega (example_config rmAdd [0; 0; 0; 0]%Z 0)
                            1 [O] (Mat 1 1 [0.1]) [0.5] in
  let G' := update_Gamma2_phi1 c 1 (Mat 1 1 [2]) (Mat 1 1 [1]) in
  G' = Mat 1 1 [0.1]
  /\ at_ (elems (minv c) (i1 c)) 0 = 0.5
  /\ (at_ (elems (minv c) (i1 c)) 0 <=? mat_at G' 0 0) = false
  /\ (mat_at G' 0 0 <? at_ (elems (minv c) (i1 c)) 0) = true.
Proof. vm_compute. repeat split; reflexivity. Qed.

(* ================================================================== *)
(** * Clipping *)

Lemma above_xmax_not_below_xmin (r : double) :
  (1e300 <? r) = true -> (r <? 1.0e-200) = false.
Proof.
  rewrite !ltb_spec. unfold SFltb.
  let v := eval vm_compute in (Prim2SF 1e300) in change (Prim2SF 1e300) with v.
  let v := eval vm_compute in (Prim2SF 1.0e-200) in change (Prim2SF 1.0e-200) with v.
  destruct (Prim2SF r) as [s|s| |s m e]; cbn [SFcompare]; try discriminate;
    try (destruct s; intros; try discriminate; reflexivity).
  destruct s; [discriminate|].
  destruct (Z.compare_spec 944 e) as [He|He|He]; intros H; try discriminate;
    destruct (Z.compare_spec e (-717)) as [He'|He'|He']; try lia; reflexivity.
Qed.

(** The two orders in which the code clips agree with [clip_into]. *)
Lemma clip_clip_into (g : double) : clip g = clip_into g.
Proof.
  unfold clip, clip_into, double_xmin, xmax.
  destruct (g <? 1.0e-200); reflexivity.
Qed.

Lemma clip_high_first (r : double) :
  (if xmax <? r then xmax else if r <? double_xmin then double_xmin else r)
  = clip_into r.
Proof.
  unfold clip_into, double_xmin, xmax.
  destruct (1e300 <? r) eqn:Hhi.
  - now rewrite (above_xmax_not_below_xmin r Hhi).
  - reflexivity.
Qed.

Lemma clip_into_bounds (g : double) :
  is_nan g = false ->
  (1.0e-200 <=? clip_into g) && (clip_into g <=? 1e300) = true.
Proof.
  intros Hnan. unfold clip_into.
  destruct (g <? 1.0e-200) eqn:Hlo; [reflexivity|].
  destruct (1e300 <? g) eqn:Hhi; [reflexivity|].
  rewrite (ltb_false_leb g 1.0e-200), (ltb_false_leb 1e300 g); auto.
Qed.

(* ================================================================== *)
(** * The residual statistic of a chain (C5) *)

Section ResidualStatistic.
Context {E : Extern}.
Variable c : config.

Lemma zipWith_combine {A B C : Type} (g : A -> B -> C) (l : list A) (l' : list B) :
  zipWith g l l' = map (fun p => g (fst p) (snd p)) (combine l l').
Proof.
  revert l'. induction l as [|a l IH]; intros [|b l']; simpl; auto.
  now rewrite IH.
Qed.

Lemma zipWith_ext_in {A B C : Type} (g h : A -> B -> C) (l : list A) (l' : list B) :
  (forall a b, In b l' -> g a b = h a b) -> zipWith g l l' = zipWith h l l'.
Proof.
  revert l'. induction l as [|a l IH]; intros [|b l'] Hgh; simpl; auto.
  rewrite Hgh by now left. f_equal. apply IH. intros; apply Hgh; now right.
Qed.

Lemma resid_at_value (b : nat) (y f : double) :
  resid_at c b y f =
  if is_nan (transform c b y) then None else Some (resid_value c b y f).
Proof.
  unfold resid_at, resid_value, transform. cbv zeta.
  destruct (is_nan _); [reflexivity|].
  destruct (_ =? rmProp)%Z; reflexivity.
Qed.

Lemma resid_loop_value (b : nat) (yf : list (double * double)) :
  resid_loop c b yf =
  if data_ok c b yf
  then Some (map (fun p => resid_value c b (fst p) (snd p)) yf)
  else None.
Proof.
  induction yf as [|[y f] t IH]; simpl; [reflexivity|].
  rewrite resid_at_value, IH. simpl.
  destruct (is_nan (transform c b y)); simpl; [reflexivity|].
  destruct (data_ok c b t); reflexivity.
Qed.

Lemma data_ok_rev (b : nat) (yf : list (double * double)) :
  data_ok c b (rev yf) = data_ok c b yf.
Proof.
  unfold data_ok.
  destruct (forallb _ yf) eqn:H.
  - rewrite forallb_forall in *. intros x Hx. apply H. now apply in_rev.
  - destruct (forallb _ (rev yf)) eqn:H'; [|reflexivity].
    rewrite <- H. symmetry. rewrite forallb_forall in *.
    intros x Hx. apply H'. now apply in_rev in Hx.
Qed.

Lemma resid_of_value (b : nat) (y_cur f_cur : vec) :
  resid_of c b y_cur f_cur =
  if data_ok c b (combine y_cur f_cur)
  then Some (zipWith (resid_value c b) y_cur f_cur)
  else None.
Proof.
  unfold resid_of. rewrite resid_loop_value, data_ok_rev.
  destruct (data_ok c b (combine y_cur f_cur)); simpl; [|reflexivity].
  now rewrite map_rev, rev_involutive, zipWith_combine.
Qed.

Lemma resk_of_clip (b : nat) (resid : vec) :
  resk_of c b resid =
  if (nth b (res_mod c) 0 <=? rmProp)%Z then clip_into (dot resid resid) else 1.
Proof.
  unfold resk_of. destruct (_ <=? rmProp)%Z; [|reflexivity].
  apply clip_high_first.
Qed.

(** Where the loop does not replace the divisor by 1, its residual is the
    one of the specification. *)
Lemma resid_value_spec (b : nat) (y f : double) :
  ((nth b (res_mod c) 0 = rmProp)%Z ->
   (handleF (nth b (propT c) 0%Z) (transform c b f) f true true <=? 1.0e-200) = false) ->
  resid_value c b y f = std_resid_spec c b y f.
Proof.
  unfold resid_value, std_resid_spec. cbv zeta. fold (transform c b f).
  fold (transform c b y).
  destruct (_ =? rmProp)%Z eqn:Hm; [|reflexivity].
  intros H. apply Z.eqb_eq in Hm. specialize (H Hm).
  change double_xmin with 1.0e-200. rewrite H.
  unfold handleF, clip_into. cbv zeta. cbn [andb].
  destruct (_ =? 0)%Z; reflexivity.
Qed.

(** C5.  For an endpoint whose residual model is past the proportional
    one ([res_mod(b) > rmProp]: the power model, the combined models and
    the models with an estimated lambda), the contribution [resk] of a
    chain to [statr[b]] is the constant 1, whatever the observations and
    the predictions are, as long as no transformed observation is a NaN:
    the residuals are computed and then not used. *)
Theorem resk_is_one_past_proportional (fsave : vec) (k b : nat) :
  let fk := elems (span fsave (k * ntotal c) ((k + 1) * ntotal c)) (ix_sorting c) in
  let y_cur := span (ys c) (nth b (y_offset c) O) (nth (S b) (y_offset c) O) in
  let f_cur := span fk (nth b (y_offset c) O) (nth (S b) (y_offset c) O) in
  (rmProp < nth b (res_mod c) 0)%Z ->
  data_ok c b (combine y_cur f_cur) = true ->
  chain_resk c fsave k b = Some 1.
Proof.
  intros fk y_cur f_cur Hm Hok.
  unfold chain_resk. cbv zeta. fold fk. fold y_cur. fold f_cur.
  rewrite resid_of_value, Hok. cbn [option_map]. rewrite resk_of_clip.
  apply Z.leb_gt in Hm. now rewrite Hm.
Qed.

(** X21.  For an endpoint whose residual model is additive or
    proportional ([res_mod(b) <= rmProp]) and whose transformed
    observations are numbers, the contribution of a chain to [statr[b]]
    is the sum of the squares of the endpoint's residuals, both sides
    transformed and, for the proportional model, divided by the
    zero-adjusted and truncated prediction, clipped into
    [[1e-200, 1e300]], provided that no truncated divisor of the
    proportional model is at or below [1e-200] (the code divides by 1
    there).  Unless the contribution is a NaN it lies within
    [[1e-200, 1e300]]. *)
Theorem resk_sums_squared_residuals (fsave : vec) (k b : nat) :
  let fk := elems (span fsave (k * ntotal c) ((k + 1) * ntotal c)) (ix_sorting c) in
  let y_cur := span (ys c) (nth b (y_offset c) O) (nth (S b) (y_offset c) O) in
  let f_cur := span fk (nth b (y_offset c) O) (nth (S b) (y_offset c) O) in
  (nth b (res_mod c) 0 <= rmProp)%Z ->
  data_ok c b (combine y_cur f_cur) = true ->
  ((nth b (res_mod c) 0 = rmProp)%Z ->
   forall f, In f f_cur ->
     (handleF (nth b (propT c) 0%Z) (transform c b f) f true true <=? 1.0e-200) = false) ->
  chain_resk c fsave k b = Some (resk_spec c b y_cur f_cur)
  /\ (is_nan (resk_spec c b y_cur f_cur) = false ->
      (1.0e-200 <=? resk_spec c b y_cur f_cur)
      && (resk_spec c b y_cur f_cur <=? 1e300) = true).
Proof.
  intros fk y_cur f_cur Hm Hok Hdiv. split.
  - unfold chain_resk. cbv zeta. fold fk. fold y_cur. fold f_cur.
    rewrite resid_of_value, Hok. cbn [option_map]. rewrite resk_of_clip.
    apply Z.leb_le in Hm. rewrite Hm. unfold resk_spec. cbv zeta.
    rewrite (zipWith_ext_in (resid_value c b) (std_resid_spec c b)); [reflexivity|].
    intros y f Hin. apply resid_value_spec. intros Hp. now apply Hdiv.
  - unfold resk_spec, clip_into. cbv zeta.
    destruct (dot _ _ <? 1.0e-200) eqn:Hlo; [reflexivity|].
    destruct (1e300 <? dot _ _) eqn:Hhi; [reflexivity|].
    intros Hn.
    rewrite (ltb_false_leb _ 1.0e-200), (ltb_false_leb 1e300 _); auto.
Qed.

End ResidualStatistic.

Lemma resk_is_one_past_proportional_witness :
  let c := example_config rmPow [0; 0; 0; 0]%Z 0 in
  (rmProp < nth 0 (res_mod c) 0)%Z
  /\ chain_resk (E := example_extern) c [2; 6] 0 0 = Some 1
  /\ resk_spec (E := example_extern) c 0 [3; 5] [2; 6] = 2.
Proof.
  intros c.
  assert (Hm : (rmProp < nth 0 (res_mod c) 0)%Z) by (vm_compute; reflexivity).
  split; [exact Hm|]. split.
  - apply (resk_is_one_past_proportional (E := example_extern) c [2; 6] 0 0 Hm).
    vm_compute. reflexivity.
  - vm_compute. reflexivity.
Defined.

Lemma resk_sums_squared_residuals_witness :
  let c := example_config rmProp [0; 0; 0; 0]%Z 0 in
  chain_resk (E := example_extern) c [2; 5] 0 0
  = Some (resk_spec (E := example_extern) c 0 [3; 5] [2; 5])
  /\ resk_spec (E := example_extern) c 0 [3; 5] [2; 5] = 0.25.
Proof.
  intros c. split; [|vm_compute; reflexivity].
  apply (resk_sums_squared_residuals (E := example_extern) c [2; 5] 0 0).
  - vm_compute. discriminate.
  - vm_compute. reflexivity.
  - intros _ f Hin.
    change (In f [2; 5]) in Hin.
    destruct Hin as [<-|[<-|[]]]; vm_compute; reflexivity.
Defined.

(* ================================================================== *)
(** * The residual-model objectives (C2) *)

Lemma fabs_sign_clear (f : double) : sign_clear f = true -> fabs f = f.
Proof.
  unfold sign_clear, fabs. intros H. apply Prim2SF_inj. rewrite abs_spec.
  destruct (Prim2SF f) as [s|s| |s m e]; simpl in *; try reflexivity;
    destruct s; try discriminate; reflexivity.
Qed.

Lemma fold_left_ext_in {A B : Type} (f g : A -> B -> A) (l : list B) (a : A) :
  (forall x, In x l -> forall acc, f acc x = g acc x) ->
  fold_left f l a = fold_left g l a.
Proof.
  revert a. induction l as [|x l IH]; intros a H; simpl; [reflexivity|].
  rewrite (H x (or_introl eq_refl)). apply IH.
  intros y Hy. apply H. now right.
Qed.

Lemma hd_skipn (k : nat) (ab : vec) : hd 0 (skipn k ab) = nth k ab 0.
Proof.
  revert ab. induction k as [|k IH]; intros [|x ab]; simpl; auto.
Qed.

Lemma tl_skipn (k : nat) (ab : vec) : tl (skipn k ab) = skipn (S k) ab.
Proof.
  revert ab. induction k as [|k IH]; intros [|x ab]; simpl; auto.
Qed.

Section ObjectiveSum.
Context {E : Extern}.
Variable G : globals.

(** Reading one coordinate is one step of [merge_from]. *)
Lemma merge_from_next_par (n k curi : nat) (ab : vec) :
  merge_from (S n) k (_saemFixedIdx G) (_saemFixedValue G) (skipn curi ab)
  = fst (next_par G k ab curi)
    :: merge_from n (S k) (_saemFixedIdx G) (_saemFixedValue G)
                  (skipn (snd (next_par G k ab curi)) ab).
Proof.
  unfold next_par. simpl.
  destruct (nth k (_saemFixedIdx G) 0 =? 1)%Z; simpl; [reflexivity|].
  now rewrite hd_skipn, tl_skipn.
Qed.

(** The four coordinates, as the objectives read them one after another. *)
Lemma merge_fixed_next_par (ab : vec) :
  let p0 := next_par G 0 ab 0 in
  let p1 := next_par G 1 ab (snd p0) in
  let p2 := next_par G 2 ab (snd p1) in
  let p3 := next_par G 3 ab (snd p2) in
  merge_fixed (_saemFixedIdx G) (_saemFixedValue G) ab
  = [fst p0; fst p1; fst p2; fst p3].
Proof.
  intros p0 p1 p2 p3. unfold merge_fixed.
  change ab with (skipn 0 ab) at 1.
  rewrite !merge_from_next_par. reflexivity.
Qed.

Lemma handleF_plain (powt : Z) (ft f : double) :
  handleF powt ft f false false = if (powt =? 0)%Z then f else ft.
Proof. unfold handleF. reflexivity. Qed.

Lemma handleF_adjust (powt : Z) (ft f : double) :
  ((if (powt =? 0)%Z then f else ft) =? 0) = false ->
  handleF powt ft f false true = if (powt =? 0)%Z then f else ft.
Proof. unfold handleF. cbv zeta. simpl. now intros ->. Qed.

(** X22.  On an input whose predictions have a clear sign bit wherever
    they scale a term, are not zero where the objective would replace a
    zero prediction by one ([objD], [objF], [objG]), give a scale that is
    not zero where the objective would replace a zero scale by one
    ([objF], [objG]), and with [objC] in sum mode, every objective
    returns the running sum over the observations of
    [((y_transformed - f_transformed)/g)^2 + 2*log(g)], where the
    coordinates come from the fixed mask and values and from the free
    vector, the scale coordinates enter squared, and [g] is the scale of
    the model (additive: constant; proportional: scale times [|f|];
    power: scale times [|f|^p]; additive with proportional or power:
    their sum, or the root of the sum of their squares, by the [addProp]
    flag) clipped into [[1e-200, 1e300]].  The clipped scale lies in that
    interval unless it is a NaN. *)
Theorem objective_is_clipped_sum (ab : vec) :
  regular_input G ab = true ->
  call_saemFn G ab = objective_spec G ab
  /\ (forall g, is_nan g = false ->
        (1.0e-200 <=? clip g) && (clip g <=? 1e300) = true).
Proof.
  intros Hreg. split.
  2: { intros g Hg. rewrite clip_clip_into. now apply clip_into_bounds. }
  unfold regular_input in Hreg. cbv zeta in Hreg.
  apply andb_prop in Hreg. destruct Hreg as [Hmode Hobs].
  rewrite forallb_forall in Hobs.
  unfold call_saemFn, objective_spec. cbv zeta.
  rewrite merge_fixed_next_par in *. cbv zeta in *.
  destruct (_saemFn G) eqn:Hfn;
    unfold obj, objC, objD, objE, objF, objG, objH, objI, obs_loop;
    destruct (next_par G 0 ab 0) as [v0 c1];
    cbn [fst snd] in *;
    destruct (next_par G 1 ab c1) as [v1 c2];
    cbn [fst snd] in *;
    destruct (next_par G 2 ab c2) as [v2 c3];
    cbn [fst snd] in *;
    destruct (next_par G 3 ab c3) as [v3 c4];
    cbn [fst snd coord coord_add coord_prop coord_pow coord_lambda terms_of
         at_ nth adjusts_zero_f replaces_zero_g negb orb andb g_spec] in *;
    apply fold_left_ext_in; intros [f y] Hin acc;
    specialize (Hobs _ Hin); cbn [fst snd] in Hobs |- *;
    rewrite clip_clip_into;
    repeat match type of Hobs with
           | (_ && _) = true => apply andb_prop in Hobs; destruct Hobs as [Hobs ?]
           end;
    repeat match goal with
           | H : negb _ = true |- _ => apply negb_true_iff in H
           | H : true = true |- _ => clear H
           end.
  all: try rewrite handleF_plain; try rewrite handleF_adjust by assumption.
  all: try match goal with
           | H : sign_clear ?f = true |- _ =>
               pose proof (fabs_sign_clear f H) as Habs;
               rewrite ?Habs in *
           end.
  all: try match goal with
           | H : (?g =? 0) = false |- context [if ?g =? 0 then _ else _] =>
               rewrite H
           end.
  all: try (apply Z.eqb_eq in Hmode; rewrite Hmode; cbn [Z.eqb Pos.eqb]).
  all: try destruct (_saemAddProp G =? 1)%Z.
  all: try reflexivity.
Qed.

End ObjectiveSum.

Lemma objective_is_clipped_sum_witness :
  let G := example_problem Obj 1 [2; 6] [3; 5] in
  regular_input (E := example_extern) G [1; 0.5] = true
  /\ call_saemFn (E := example_extern) G [1; 0.5]
     = objective_spec (E := example_extern) G [1; 0.5]
  /\ call_saemFn (E := example_extern) G [1; 0.5] = 0.60444444444444445.
Proof.
  intros G.
  assert (regular_input (E := example_extern) G [1; 0.5] = true) as H
      by (vm_compute; reflexivity).
  split; [exact H|].
  split; [apply (objective_is_clipped_sum (E := example_extern) G [1; 0.5] H)|].
  vm_compute. reflexivity.
Defined.

(** The objectives scale with the prediction itself, not with its
    absolute value.  [obj] in sum mode with additive coordinate 0,
    proportional coordinate 1, observation 0 and prediction -2 (identity
    transform, [log] taken as zero): the scale is [0 + 1*(-2)], clipped to
    [1e-200], and the value overflows, where the scale [0 + 1*|-2| = 2]
    gives 1. *)
Lemma negative_prediction_scale :
  let G := example_problem Obj 1 [-2] [0] in
  clip (0 * 0 + 1 * 1 * handleF (_saemPropT G) (-2) (-2) false false) = 1.0e-200
  /\ clip_into (g_spec (E := example_extern) T_add_prop 1 (0 * 0) (1 * 1) 0 (-2)) = 2
  /\ call_saemFn (E := example_extern) G [0; 1] = infinity
  /\ objective_spec (E := example_extern) G [0; 1] = 1.
Proof. vm_compute. repeat split; reflexivity. Qed.

(** C2.  [objC] (additive and power terms) does not combine its terms in
    quadrature when the [addProp] flag asks for it: its scale is the sum
    of the squares of the two terms, without the root that [obj], [objH]
    and [objI] take.  One observation 28 with prediction 3, scale
    coordinates 2 and 1, power 1 (identity transform, [log] taken as
    zero, [pow x 2 = x*x]): [objC] uses the scale [4*4 + 1*1*3^2 = 25] and
    returns [((28 - 3)/25)^2 = 1]; the root of the sum of the squares is
    5, which gives [((28 - 3)/5)^2 = 25], the value that [objI] returns
    for the same model.  In sum mode [objC] and the formula agree. *)
Theorem objC_quadrature_omits_root :
  let G := example_problem ObjC 0 [3] [28] in
  let G1 := example_problem ObjC 1 [3] [28] in
  let H := example_problem ObjI 0 [3] [28] in
  clip_into (g_spec (E := example_extern_sq) T_add_pow 0 (2 * 2) (1 * 1) 1 3) = 5
  /\ call_saemFn (E := example_extern_sq) G [2; 1; 1] = 1
  /\ objective_spec (E := example_extern_sq) G [2; 1; 1] = 25
  /\ call_saemFn (E := example_extern_sq) H [2; 1; 1; 1] = 25
  /\ call_saemFn (E := example_extern_sq) G1 [2; 1; 1]
     = objective_spec (E := example_extern_sq) G1 [2; 1; 1].
Proof. vm_compute. repeat split; reflexivity. Qed.

(* ================================================================== *)
(** * The update of the statistics (C1) *)

(** ** Doubles: multiplying by one and adding zero *)

Lemma digits2_pos_shift52 (m : positive) :
  Z.pos (digits2_pos (Pos.iter xO m 52)) = (Z.pos (digits2_pos m) + 52)%Z.
Proof. cbn [Pos.iter digits2_pos]. lia. Qed.

(** [1 * x] is [x], bit for bit. *)
Lemma double_mul_1_l (x : double) : 1 * x = x.
Proof.
  apply Prim2SF_inj. rewrite mul_spec.
  pose proof (Prim2SF_valid x) as Hv.
  change (Prim2SF 1) with (S754_finite false 4503599627370496 (-52)).
  destruct (Prim2SF x) as [s|s| |s m e]; try reflexivity.
  unfold SF64mul, SFmul. cbn [xorb].
  unfold SpecFloat.valid_binary, bounded, canonical_mantissa in Hv.
  apply andb_prop in Hv. destruct Hv as [Hc Hb]. apply Z.eqb_eq in Hc.
  change (4503599627370496 * m)%positive with (Pos.iter xO m 52).
  assert (H1 : shr_fexp prec emax (Z.pos (Pos.iter xO m 52)) (-52 + e) loc_Exact
               = ({| shr_m := Z.pos m; shr_r := false; shr_s := false |}, e)).
  { unfold shr_fexp. cbn [Zdigits2]. rewrite digits2_pos_shift52.
    replace (Z.pos (digits2_pos m) + 52 + (-52 + e))%Z
      with (Z.pos (digits2_pos m) + e)%Z by lia.
    rewrite Hc. replace (e - (-52 + e))%Z with 52%Z by lia.
    unfold shr. f_equal; first [reflexivity | lia]. }
  assert (H2 : shr_fexp prec emax (Z.pos m) e loc_Exact
               = ({| shr_m := Z.pos m; shr_r := false; shr_s := false |}, e)).
  { unfold shr_fexp. cbn [Zdigits2]. rewrite Hc, Z.sub_diag. reflexivity. }
  unfold binary_round_aux. rewrite H1.
  cbn [shr_m loc_of_shr_record round_nearest_even]. rewrite H2.
  cbn [shr_m]. rewrite Hb. reflexivity.
Qed.

Lemma is_finite_spec (x : double) :
  is_finite x = true ->
  (exists s, Prim2SF x = S754_zero s) \/ (exists s m e, Prim2SF x = S754_finite s m e).
Proof.
  unfold is_finite, is_infinity. intros H. apply negb_true_iff in H.
  apply orb_false_iff in H. destruct H as [Hn Hi].
  apply is_nan_false in Hn.
  rewrite FloatAxioms.eqb_spec, abs_spec in Hi.
  destruct (Prim2SF x) as [s|s| |s m e]; eauto.
  - discriminate Hi.
  - congruence.
Qed.

(** [0 * d] is a zero when [d] is finite. *)
Lemma double_mul_0_finite (d : double) :
  is_finite d = true -> exists s, Prim2SF (0 * d) = S754_zero s.
Proof.
  intros H. rewrite mul_spec. change (Prim2SF 0) with (S754_zero false).
  destruct (is_finite_spec d H) as [[s ->]|(s & m & e & ->)]; eexists; reflexivity.
Qed.

(** Adding a zero changes nothing but the sign of [-0]. *)
Lemma double_add_zero_r (x z : double) (s : bool) :
  Prim2SF z = S754_zero s -> neg_zero x = false -> x + z = x.
Proof.
  unfold neg_zero. intros Hz Hx. apply Prim2SF_inj. rewrite add_spec, Hz.
  destruct (Prim2SF x) as [[|]|[|]| |sx m e]; try reflexivity; try discriminate.
  all: destruct s; reflexivity.
Qed.

Lemma double_sub_0_r (x : double) : x - 0 = x.
Proof.
  apply Prim2SF_inj. rewrite sub_spec. change (Prim2SF 0) with (S754_zero false).
  destruct (Prim2SF x) as [[|]|[|]| |sx m e]; reflexivity.
Qed.

Lemma double_add_0_l (x : double) : neg_zero x = false -> 0 + x = x.
Proof.
  unfold neg_zero. intros Hx. apply Prim2SF_inj. rewrite add_spec.
  change (Prim2SF 0) with (S754_zero false).
  destruct (Prim2SF x) as [[|]|[|]| |sx m e]; try reflexivity; discriminate.
Qed.

(** ** The recursion at the step sizes zero and one *)

Lemma robbins_monro_0 (avg stat : double) :
  is_finite (avg - stat) = true -> neg_zero stat = false ->
  robbins_monro 0 avg stat = stat.
Proof.
  intros Hf Hz. unfold robbins_monro.
  destruct (double_mul_0_finite _ Hf) as [s Hs]. now apply (double_add_zero_r _ _ s).
Qed.

Lemma robbins_monro_1 (avg stat : double) :
  robbins_monro 1 avg stat = stat + (avg - stat).
Proof. unfold robbins_monro. now rewrite double_mul_1_l. Qed.

Lemma robbins_monro_1_from_zero (avg : double) :
  neg_zero avg = false -> robbins_monro 1 avg 0 = avg.
Proof.
  intros H. rewrite robbins_monro_1, double_sub_0_r. now apply double_add_0_l.
Qed.

(** ** Entry by entry *)

Lemma nth_map_in {A B : Type} (f : A -> B) (l : list A) (k : nat) (da : A) (db : B) :
  (k < List.length l)%nat -> nth k (map f l) db = f (nth k l da).
Proof.
  intros H. rewrite (nth_indep _ db (f da)) by now rewrite length_map.
  apply map_nth.
Qed.

Section StatisticUpdate.
Context {E : Extern}.
Variable c : config.

Lemma sa_mat_entry (step : double) (stat Stat : mat) (k : nat) :
  (k < List.length (mem stat))%nat -> (k < List.length (mem Stat))%nat ->
  at_ (mem (sa_mat c step stat Stat)) k
  = robbins_monro step (at_ (mem Stat) k / double_of_int (nmc c)) (at_ (mem stat) k).
Proof.
  intros H1 H2.
  unfold sa_mat, mat_add, scale_mat, mat_sub, mat_div, mat_map2, mat_map,
    robbins_monro, at_. cbn [mem].
  rewrite (nth_zipWith _ _ _ k 0 0); [|assumption|].
  2: { rewrite length_map, zipWith_length, length_map. lia. }
  rewrite (nth_map_in _ _ k 0) by (rewrite zipWith_length, length_map; lia).
  rewrite (nth_zipWith _ _ _ k 0 0); [|now rewrite length_map|assumption].
  now rewrite (nth_map_in _ _ k 0) by assumption.
Qed.

(** The loop over the endpoints, up to [n]: entries from [n] on are as
    they were, the others took one step of the recursion. *)
Lemma sa_loop_entry (step : double) (statr : vec) (n : nat) :
  forall (statrese : vec) (k : nat),
    let out :=
      fold_left
        (fun s b =>
           upd b (at_ s b + step * (at_ statr b / double_of_int (nmc c) - at_ s b)) s)
        (seq 0 n) statrese in
    List.length out = List.length statrese
    /\ ((n <= k)%nat -> at_ out k = at_ statrese k)
    /\ ((k < n)%nat -> (k < List.length statrese)%nat ->
        at_ out k
        = robbins_monro step (at_ statr k / double_of_int (nmc c)) (at_ statrese k)).
Proof.
  induction n as [|n IH]; intros statrese k; cbv zeta.
  - cbn [seq fold_left]. repeat split; auto. lia.
  - rewrite seq_S, fold_left_app. cbn [fold_left plus].
    set (mid := fold_left _ (seq 0 n) statrese).
    destruct (IH statrese k) as (Hl & Hge & Hlt). fold mid in Hl, Hge, Hlt.
    destruct (IH statrese n) as (_ & Hn & _). fold mid in Hn.
    rewrite upd_length. split; [exact Hl|]. split.
    + intros Hk. unfold at_ at 1. rewrite nth_upd_ne by lia. apply Hge. lia.
    + intros Hk Hlen. destruct (Nat.eq_dec k n) as [->|Hne].
      * unfold at_ at 1. rewrite nth_upd_eq by (rewrite Hl; exact Hlen).
        rewrite Hn by lia. reflexivity.
      * unfold at_ at 1. rewrite nth_upd_ne by lia. apply Hlt; [lia|exact Hlen].
Qed.

Lemma sa_statrese_entry (step : double) (statrese statr : vec) (k : nat) :
  (k < nendpnt c)%nat -> (k < List.length statrese)%nat ->
  at_ (sa_statrese c step statrese statr) k
  = robbins_monro step (at_ statr k / double_of_int (nmc c)) (at_ statrese k).
Proof.
  intros H1 H2. unfold sa_statrese.
  pose proof (sa_loop_entry step statr (nendpnt c) statrese k) as H.
  cbv zeta in H. destruct H as (_ & _ & H). now apply H.
Qed.

(** [statr] keeps the length it starts with, [nendpnt]. *)
Lemma fold_left_option_inv {A B : Type} (P : A -> Prop)
      (f : A -> B -> option A) (l : list B) :
  (forall a b a', P a -> f a b = Some a' -> P a') ->
  forall (o : option A) (a' : A),
    (forall a, o = Some a -> P a) ->
    fold_left (fun acc b => match acc with None => None | Some a => f a b end) l o
    = Some a' -> P a'.
Proof.
  intros Hf. induction l as [|b l IH]; intros o a' Ho; cbn [fold_left].
  - intros ->. now apply Ho.
  - apply IH. intros a Ha. destruct o as [a0|]; [|discriminate].
    apply (Hf a0 b); auto.
Qed.

Lemma statr_chain_length (fsave : vec) (k : nat) (statr statr' : vec) :
  statr_chain c fsave k statr = Some statr' ->
  List.length statr' = List.length statr.
Proof.
  unfold statr_chain.
  apply (fold_left_option_inv (fun v => List.length v = List.length statr)
           (fun v b => option_map (fun resk => upd b (at_ v b + resk) v)
                                  (chain_resk c fsave k b))).
  - intros a b a' Ha H. destruct (chain_resk c fsave k b); [|discriminate].
    injection H as <-. now rewrite upd_length.
  - intros a Ha. now injection Ha as <-.
Qed.

Lemma statr_sum_length (fsave statr : vec) :
  statr_sum c fsave = Some statr -> List.length statr = nendpnt c.
Proof.
  unfold statr_sum.
  apply (fold_left_option_inv (fun v => List.length v = nendpnt c)
           (fun v k => statr_chain c fsave k v)).
  - intros a b a' Ha H. now rewrite (statr_chain_length _ _ _ _ H).
  - intros a Ha. injection Ha as <-. apply repeat_length.
Qed.

(** C1, as the code has it.  When the integration step succeeded, every
    entry of every statistic ([statphi11], [statphi12], [statphi01],
    [statphi02], and [statrese[b]] for every endpoint [b]) that the
    iteration updates becomes [stat + pas(kiter)*(avg - stat)], computed
    in doubles, where [avg] is the entry's sum over the chains divided by
    [nmc].  With [pas(kiter) = 0] the entry is unchanged if [avg - stat]
    is finite and [stat] is not [-0]; with [pas(kiter) = 1] it becomes
    [stat + (avg - stat)], which is [avg] when [stat] is zero and [avg]
    is not [-0]. *)
Theorem statistics_follow_recursion (kiter : Z) (phiM : mat) (fsave statr : vec)
        (s s' : stats) (w : statistic) (k : nat) :
  statr_sum c fsave = Some statr ->
  update_stats c kiter phiM fsave s = Some s' ->
  (k < List.length (stat_mem s w))%nat ->
  (k < List.length (stat_mem (chain_sums c phiM statr) w))%nat ->
  let step := at_ (pas c) (Z.to_nat kiter) in
  let avg := mc_average c (chain_sums c phiM statr) w k in
  let old := at_ (stat_mem s w) k in
  let new := at_ (stat_mem s' w) k in
  new = robbins_monro step avg old
  /\ (step = 0 -> is_finite (avg - old) = true -> neg_zero old = false ->
      new = old)
  /\ (step = 1 -> new = old + (avg - old))
  /\ (step = 1 -> old = 0 -> neg_zero avg = false -> new = avg).
Proof.
  intros Hsum Hupd Hk Hk' step avg old new.
  assert (Hrec : new = robbins_monro step avg old).
  { unfold new, avg, old, mc_average. revert Hupd. unfold update_stats.
    cbv zeta. rewrite Hsum. intros H. injection H as <-. fold step.
    destruct w; cbn [stat_mem chain_sums statphi11 statphi12 statphi01
                     statphi02 statrese] in *;
      try (now apply sa_mat_entry).
    apply sa_statrese_entry; [|assumption].
    now rewrite <- (statr_sum_length _ _ Hsum). }
  split; [exact Hrec|]. rewrite Hrec. repeat split.
  - intros -> Hf Hz. now apply robbins_monro_0.
  - intros ->. apply robbins_monro_1.
  - intros -> -> Hz. now apply robbins_monro_1_from_zero.
Qed.

End StatisticUpdate.

Lemma statistics_follow_recursion_witness :
  let c := example_config rmAdd [0; 0; 0; 0]%Z 0 in
  let s := {| statphi11 := Mat 1 1 [0.5]; statphi12 := Mat 1 1 [0.25];
              statphi01 := Mat 1 0 []; statphi02 := Mat 0 0 [];
              statrese := [3] |} in
  let s' := {| statphi11 := Mat 1 1 [1.25]; statphi12 := Mat 1 1 [2.125];
               statphi01 := Mat 1 0 []; statphi02 := Mat 0 0 [];
               statrese := [2.5] |} in
  statr_sum (E := example_extern) c [2; 6] = Some [2]
  /\ update_stats (E := example_extern) c 1 (Mat 1 1 [2]) [2; 6] s = Some s'
  /\ at_ (stat_mem s' Rese) 0
     = robbins_monro 0.5 (mc_average c (chain_sums (E := example_extern) c (Mat 1 1 [2]) [2]) Rese 0) 3.
Proof.
  intros c s s'.
  assert (H1 : statr_sum (E := example_extern) c [2; 6] = Some [2])
    by (vm_compute; reflexivity).
  assert (H2 : update_stats (E := example_extern) c 1 (Mat 1 1 [2]) [2; 6] s = Some s')
    by (vm_compute; reflexivity).
  split; [exact H1|]. split; [exact H2|].
  apply (statistics_follow_recursion (E := example_extern) c 1 (Mat 1 1 [2]) [2; 6] [2]
           s s' Rese 0 H1 H2); simpl; lia.
Defined.

(** C1 as stated fails in doubles.  One endpoint with the additive
    model, one chain, the observations (3, 5) and the steps
    [pas(0) = pas(1) = 1].  The statistic starts at 0, as [inits] leaves
    it.  At iteration 0 the predictions (-99999997, 5) give the sum of
    squares [1e16], which the statistic takes.  At iteration 1 the
    predictions (2, 5) give the average 1, and the statistic becomes
    [1e16 + 1*(1 - 1e16) = 0], not 1. *)
Lemma statistic_not_replaced_by_average :
  let c := with_pas (example_config rmAdd [0; 0; 0; 0]%Z 0) [1; 1; 0.5] in
  let s0 := {| statphi11 := Mat 1 1 [0]; statphi12 := Mat 1 1 [0];
               statphi01 := Mat 1 0 []; statphi02 := Mat 0 0 [];
               statrese := inits_statrese c |} in
  let s1 := update_stats (E := example_extern) c 0 (Mat 1 1 [2]) [-99999997; 5] s0 in
  let s2 := match s1 with
            | Some s => update_stats (E := example_extern) c 1 (Mat 1 1 [2]) [2; 5] s
            | None => None
            end in
  at_ (pas c) 0 = 1
  /\ at_ (pas c) 1 = 1
  /\ statrese s0 = [0]
  /\ option_map statrese s1 = Some [1e16]
  /\ statr_sum (E := example_extern) c [2; 5] = Some [1]
  /\ mc_average c (chain_sums (E := example_extern) c (Mat 1 1 [2]) [1]) Rese 0 = 1
  /\ option_map statrese s2 = Some [0].
Proof. vm_compute. repeat split; reflexivity. Qed.

(* ================================================================== *)
(** * The cases of the residual models after the burn-in *)

Section AfterBurnIn.
Context {E : Extern}.
Variables (c : config) (kiter : Z) (fsM : vec) (junk : nat -> double).

Lemma free_starts_length_res (G : globals) (r r' : res_pars)
      (b o : nat) (sl : list res_par) :
  forall j, List.length (free_starts c G r b o j sl)
            = List.length (free_starts c G r' b o j sl).
Proof.
  induction sl as [|X sl IH]; intros j; cbn [free_starts]; [reflexivity|].
  destruct (_ =? 1)%Z; cbn [List.length]; now rewrite (IH (S j)).
Qed.

Lemma free_starts_app (G : globals) (r : res_pars) (b o : nat)
      (sl sl' : list res_par) :
  forall j, free_starts c G r b o j (sl ++ sl')
            = free_starts c G r b o j sl
              ++ free_starts c G r b o (j + List.length sl) sl'.
Proof.
  induction sl as [|X sl IH]; intros j; cbn [free_starts app List.length].
  - now rewrite Nat.add_0_r.
  - rewrite (IH (S j)). replace (S j + List.length sl)%nat
      with (j + S (List.length sl))%nat by lia.
    now destruct (_ =? 1)%Z.
Qed.

(** After the burn-in a case that calls the minimizer is: the chain of
    its slots before the call, the call, the chain of its slots after. *)
Lemma fit_endpoint_slots (G : globals) (r : res_pars) (statrese : vec) (b : nat) :
  ugt kiter (nb_fixResid c) = true ->
  uses_minimizer (nth b (res_mod c) 0%Z) = true ->
  let m := nth b (res_mod c) 0%Z in
  let o := nth b (res_offset c) O in
  let p := prep_slots c G b o 0 (slots m)
             (restart (prep0 (reset_FixedIdx G) r (all_starts G r b (slots m)))) in
  exists (fn : fn_ptr) (step : vec),
    fst (fit_endpoint c kiter fsM junk G r statrese b)
    = (fst (adjust_slots c kiter G b o 0 (slots m)
              (_saemOpt (set_globals c fsM (reset_FixedIdx G) b fn step p)
                        (p_n p) (alloc junk (xmin_size m)))
              (p_res p, O)),
       set_globals c fsM (reset_FixedIdx G) b fn step p).
Proof.
  intros Hpost. unfold fit_endpoint. cbv zeta.
  generalize (nth b (res_mod c) 0%Z) as m. intros m Hm.
  destruct (uses_minimizer_cases m Hm) as [H|[H|[H|[H|[H|[H|[H|H]]]]]]];
    subst m;
    unfold fit_rmAddProp, fit_rmAddPow, fit_rmPow, fit_rmAddLam,
      fit_rmPropLam, fit_rmPowLam, fit_rmAddPropLam, fit_rmAddPowLam,
      prep_rmAddProp, prep_rmAddPow, prep_rmPow, prep_rmAddLam,
      prep_rmPropLam, prep_rmPowLam, prep_rmAddPropLam, prep_rmAddPowLam,
      post_burnin; cbv zeta; rewrite Hpost;
    repeat match goal with
           | |- context [slots ?k] =>
               let s := eval vm_compute in (slots k) in change (slots k) with s
           | |- context [xmin_size ?k] =>
               let s := eval vm_compute in (xmin_size k) in
               change (xmin_size k) with s
           end;
    cbn [prep_slots adjust_slots all_starts map enc_par dec_par get_par];
    change (toPowEst (reset_FixedIdx G)) with (toPowEst G);
    change (toLambdaEst (reset_FixedIdx G)) with (toLambdaEst G);
    change (toPow (reset_FixedIdx G)) with (toPow G);
    change (toLambda (reset_FixedIdx G)) with (toLambda G);
    do 2 eexists; reflexivity.
Qed.

(** A slot whose flag is not set keeps its parameter through the first
    half of the case. *)
Lemma prep_slots_res_other (G : globals) (b o : nat) (X : res_par)
      (sl : list res_par) :
  forall (j : nat) (p : prep),
    ~ In X sl ->
    get_par X b (p_res (prep_slots c G b o j sl p)) = get_par X b (p_res p).
Proof.
  induction sl as [|Y sl IH]; intros j p Hnin; cbn [prep_slots]; [reflexivity|].
  rewrite IH by (intros H; apply Hnin; now right).
  apply fix_or_start_other. intros ->. apply Hnin. now left.
Qed.

Lemma prep_slots_res_free (G : globals) (b o : nat) (sl : list res_par) :
  forall (j0 : nat) (p : prep) (j : nat) (X : res_par),
    NoDup sl -> nth_error sl j = Some X ->
    nth (o + (j0 + j)) (resFixed c) 0%Z <> 1%Z ->
    get_par X b (p_res (prep_slots c G b o j0 sl p)) = get_par X b (p_res p).
Proof.
  induction sl as [|Y sl IH]; intros j0 p j X Hnd Hnth Hfree.
  - destruct j; discriminate.
  - apply NoDup_cons_iff in Hnd. destruct Hnd as [Hnin Hnd].
    cbn [prep_slots]. destruct j as [|j]; cbn [nth_error] in Hnth.
    + injection Hnth as ->. rewrite Nat.add_0_r in Hfree.
      rewrite prep_slots_res_other by assumption.
      unfold fix_or_start. apply Z.eqb_neq in Hfree. now rewrite Hfree.
    + replace (j0 + S j)%nat with (S j0 + j)%nat in Hfree by lia.
      rewrite (IH (S j0) _ j X Hnd Hnth Hfree).
      apply fix_or_start_other. intros ->. apply Hnin.
      eapply nth_error_In; eassumption.
Qed.

Lemma adjust_back_in_range (b o j : nat) (Y : res_par) (dec : double -> double)
      (pxmin : vec) (s : res_pars * nat) :
  in_range b (fst s) ->
  in_range b (fst (adjust_back c kiter b o j Y dec pxmin s)).
Proof.
  unfold adjust_back. destruct s as [r k]. cbn [fst].
  destruct (_ =? 0)%Z; cbn [fst]; auto. apply in_range_set_par.
Qed.

Lemma adjust_slots_other (G : globals) (b o : nat) (X : res_par)
      (pxmin : vec) (sl : list res_par) :
  forall (j : nat) (s : res_pars * nat),
    ~ In X sl ->
    get_par X b (fst (adjust_slots c kiter G b o j sl pxmin s)) = get_par X b (fst s).
Proof.
  induction sl as [|Y sl IH]; intros j s Hnin; cbn [adjust_slots]; [reflexivity|].
  rewrite IH by (intros H; apply Hnin; now right).
  apply adjust_back_other. intros ->. apply Hnin. now left.
Qed.

(** The second half of the case reads the minimizer's result at the
    position at which the first half put the slot's start value, as long
    as the flags of the earlier slots are 0 or 1. *)
Lemma adjust_slots_at (G : globals) (r0 : res_pars) (b o : nat) (pxmin : vec)
      (sl : list res_par) :
  forall (j0 : nat) (s : res_pars * nat) (j : nat) (X : res_par),
    NoDup sl -> nth_error sl j = Some X ->
    nth (o + (j0 + j)) (resFixed c) 0%Z = 0%Z ->
    (forall i, (i < j)%nat ->
       nth (o + (j0 + i)) (resFixed c) 0%Z = 0%Z
       \/ nth (o + (j0 + i)) (resFixed c) 0%Z = 1%Z) ->
    in_range b (fst s) ->
    get_par X b (fst (adjust_slots c kiter G b o j0 sl pxmin s))
    = blend c kiter (get_par X b (fst s))
        (dec_par G X
           (at_ pxmin (snd s + List.length (free_starts c G r0 b o j0 (firstn j sl))))).
Proof.
  induction sl as [|Y sl IH]; intros j0 s j X Hnd Hnth Hfree Hflags Hr.
  - destruct j; discriminate.
  - apply NoDup_cons_iff in Hnd. destruct Hnd as [Hnin Hnd].
    cbn [adjust_slots]. destruct j as [|j]; cbn [nth_error] in Hnth.
    + injection Hnth as ->. rewrite Nat.add_0_r in Hfree.
      rewrite adjust_slots_other by assumption.
      cbn [firstn free_starts List.length]. rewrite Nat.add_0_r.
      unfold adjust_back. destruct s as [r k]. cbn [fst snd] in *.
      rewrite Hfree. change (0 =? 0)%Z with true. cbn [fst].
      now apply get_set_par.
    + replace (j0 + S j)%nat with (S j0 + j)%nat in Hfree by lia.
      rewrite (IH (S j0) _ j X Hnd Hnth Hfree).
      * rewrite adjust_back_other
          by (intros ->; apply Hnin; eapply nth_error_In; eassumption).
        f_equal. f_equal. f_equal.
        cbn [firstn free_starts].
        destruct (Hflags O) as [H0|H1]; [lia| |]; rewrite Nat.add_0_r in *.
        -- unfold adjust_back. destruct s as [r k]. rewrite H0.
           change (0 =? 0)%Z with true. change (0 =? 1)%Z with false.
           cbn [snd List.length]. lia.
        -- unfold adjust_back. destruct s as [r k]. rewrite H1.
           change (1 =? 0)%Z with false. change (1 =? 1)%Z with true.
           cbn [snd]. lia.
      * intros i Hi. replace (S j0 + i)%nat with (j0 + S i)%nat by lia.
        apply Hflags. lia.
      * now apply adjust_back_in_range.
Qed.

Lemma free_starts_nth (G : globals) (r : res_pars) (b o : nat)
      (sl : list res_par) (j : nat) (X : res_par) :
  nth_error sl j = Some X ->
  nth (o + j) (resFixed c) 0%Z <> 1%Z ->
  let rank := List.length (free_starts c G r b o 0 (firstn j sl)) in
  (rank < List.length (free_starts c G r b o 0 sl))%nat
  /\ nth rank (free_starts c G r b o 0 sl) 0 = enc_par G X (get_par X b r).
Proof.
  intros Hnth Hfree rank.
  assert (Hj : (j < List.length sl)%nat)
    by (apply nth_error_Some; congruence).
  assert (Hsplit : sl = firstn j sl ++ X :: skipn (S j) sl).
  { clear -Hnth. revert j Hnth. induction sl as [|Y sl IH]; intros [|j] H;
      try discriminate; cbn [nth_error] in H.
    - now injection H as ->.
    - cbn [firstn skipn app]. f_equal. now apply IH. }
  assert (Hlen : List.length (firstn j sl) = j) by (apply firstn_length_le; lia).
  rewrite Hsplit at 1 2. rewrite free_starts_app. cbn [free_starts plus].
  rewrite Hlen. apply Z.eqb_neq in Hfree. rewrite Hfree.
  rewrite length_app. cbn [List.length]. split; [unfold rank; lia|].
  rewrite app_nth2 by (unfold rank; lia).
  unfold rank. now rewrite Nat.sub_diag.
Qed.

(** X2.  After the burn-in, in a case that calls the minimizer, a parameter
    whose flag is 0 (the earlier flags being 0 or 1) is blended by
    [X + pas(kiter)*(candidate - X)], where the candidate is the
    minimizer's coordinate mapped back (squared, [toPow], [toLambda]) and
    the coordinate is the one at which the parameter's start value was
    handed over: its rank among the slots that are not fixed. *)
Theorem free_parameter_blended (G : globals) (r : res_pars) (statrese : vec)
        (b j : nat) (X : res_par) :
  (0 <= nb_fixResid c)%Z -> (nb_fixResid c < kiter)%Z -> (kiter < 2 ^ 32)%Z ->
  in_range b r ->
  uses_minimizer (nth b (res_mod c) 0%Z) = true ->
  nth_error (slots (nth b (res_mod c) 0%Z)) j = Some X ->
  nth (nth b (res_offset c) O + j) (resFixed c) 0%Z = 0%Z ->
  (forall i, (i < j)%nat ->
     nth (nth b (res_offset c) O + i) (resFixed c) 0%Z = 0%Z
     \/ nth (nth b (res_offset c) O + i) (resFixed c) 0%Z = 1%Z) ->
  let m := nth b (res_mod c) 0%Z in
  let o := nth b (res_offset c) O in
  let out := fit_endpoint c kiter fsM junk G r statrese b in
  let rank := List.length (free_starts c G r b o 0 (firstn j (slots m))) in
  exists p, prep_endpoint c kiter G r b = Some p
    /\ _saemStart (snd (fst out)) = p_start p
    /\ (rank < p_n p)%nat
    /\ at_ (p_start p) rank = enc_par G X (get_par X b r)
    /\ get_par X b (fst (fst out))
       = blend c kiter (get_par X b r)
           (dec_par G X
              (at_ (_saemOpt (snd (fst out)) (p_n p) (alloc junk (xmin_size m)))
                   rank)).
Proof.
  intros H0 H1 H2 Hr Hm Hslot Hfree Hflags m o out rank.
  assert (Hpost : ugt kiter (nb_fixResid c) = true) by now apply ugt_true.
  destruct (fit_endpoint_slots G r statrese b Hpost Hm) as (fn & step & Hout).
  fold m o in Hout. fold out in Hout.
  set (p := prep_slots c G b o 0 (slots m)
              (restart (prep0 (reset_FixedIdx G) r (all_starts G r b (slots m)))))
    in *.
  assert (Hfree1 : nth (o + j) (resFixed c) 0%Z <> 1%Z)
    by (unfold o; rewrite Hfree; discriminate).
  destruct (prep_slots_free c G r b o (slots m) 0
              (restart (prep0 (reset_FixedIdx G) r (all_starts G r b (slots m)))) [])
    as [Hn Hstart]; try reflexivity.
  { apply slots_NoDup. }
  { cbn [restart prep0 p_n p_start plus]. unfold all_starts.
    now rewrite length_map. }
  fold p in Hn, Hstart. cbn [app] in Hn, Hstart.
  destruct (free_starts_nth G r b o (slots m) j X Hslot Hfree1) as [Hrank Hnth].
  fold rank in Hrank, Hnth.
  exists p. split; [now apply prep_endpoint_slots|].
  rewrite Hout. cbn [fst snd set_globals _saemStart].
  split; [reflexivity|]. split; [now rewrite Hn|]. split.
  - unfold at_. rewrite <- Hnth, <- Hstart.
    clear -Hrank Hn. rewrite <- Hn in Hrank.
    revert Hrank. generalize (p_n p) (p_start p) rank.
    intros n l. revert n. induction l as [|x l IH]; intros [|n] [|k] H;
      cbn [firstn nth] in *; try lia; try reflexivity.
    apply IH. lia.
  - rewrite (adjust_slots_at G r b o _ (slots m) 0 (p_res p, O) j X);
      cbn [fst snd plus]; auto.
    + fold rank. f_equal. unfold p.
      rewrite (prep_slots_res_free G b o (slots m) 0 _ j X);
        [reflexivity | apply slots_NoDup | exact Hslot | exact Hfree1].
    + apply slots_NoDup.
    + apply prep_slots_in_range. exact Hr.
Qed.

End AfterBurnIn.

(* ================================================================== *)
(** * What the objective reads at the start point *)

Section StartPoint.
Context {E : Extern}.
Variables (c : config) (kiter : Z) (fsM : vec) (junk : nat -> double).

Lemma fix_or_start_curi (b o j : nat) (X : res_par) (enc : double -> double)
      (p : prep) :
  (p_curi p <= p_curi (fix_or_start c b o j X enc p))%nat
  /\ List.length (p_start (fix_or_start c b o j X enc p)) = List.length (p_start p)
  /\ (forall i, (i < p_curi p)%nat ->
        nth i (p_start (fix_or_start c b o j X enc p)) 0 = nth i (p_start p) 0).
Proof.
  unfold fix_or_start. destruct (_ =? 1)%Z; cbn [p_curi p_start].
  - auto.
  - rewrite upd_length. repeat split; auto.
    intros i Hi. apply nth_upd_ne. lia.
Qed.

(** Later slots leave the start values that were already placed alone. *)
Lemma prep_slots_start_below (G : globals) (b o : nat) (sl : list res_par) :
  forall (j : nat) (p : prep) (i : nat),
    (i < p_curi p)%nat ->
    nth i (p_start (prep_slots c G b o j sl p)) 0 = nth i (p_start p) 0.
Proof.
  induction sl as [|X sl IH]; intros j p i Hi; cbn [prep_slots]; [reflexivity|].
  destruct (fix_or_start_curi b o j X (enc_par G X) p) as (Hle & _ & Hsame).
  rewrite IH by lia. now apply Hsame.
Qed.

Lemma read_after_prep (G : globals) (r : res_pars) (b o : nat)
      (sl : list res_par) :
  forall (j0 : nat) (p : prep) (G' : globals),
    NoDup sl ->
    (forall X, In X sl -> get_par X b (p_res p) = get_par X b r) ->
    in_range b (p_res p) ->
    (forall k, (j0 <= k)%nat -> nth k (p_idx p) 0%Z = 0%Z) ->
    (j0 + List.length sl <= List.length (p_idx p))%nat ->
    (j0 + List.length sl <= List.length (p_val p))%nat ->
    (p_curi p + List.length sl <= List.length (p_start p))%nat ->
    _saemFixedIdx G' = p_idx (prep_slots c G b o j0 sl p) ->
    _saemFixedValue G' = p_val (prep_slots c G b o j0 sl p) ->
    read_pars G' (List.length sl) j0 (p_start (prep_slots c G b o j0 sl p))
              (p_curi p)
    = held_pars c true G r b o j0 sl.
Proof.
  induction sl as [|X sl IH];
    intros j0 p G' Hnd Hget Hr Hzero Hli Hlv Hls Hidx Hval;
    cbn [List.length read_pars held_pars prep_slots] in *; [reflexivity|].
  apply NoDup_cons_iff in Hnd. destruct Hnd as [Hnin Hnd].
  set (p1 := fix_or_start c b o j0 X (enc_par G X) p) in *.
  destruct (prep_slots_below c G b o sl (S j0) p1 j0) as [Hi1 Hv1]; [lia|].
  destruct (fix_or_start_masks c b o j0 X (enc_par G X) p) as (Hl1 & Hl2 & Hoth).
  destruct (fix_or_start_curi b o j0 X (enc_par G X) p) as (Hcu & Hl3 & _).
  fold p1 in Hl1, Hl2, Hoth, Hcu, Hl3.
  assert (Hr1 : in_range b (p_res p1)) by now apply fix_or_start_in_range.
  assert (Hget1 : forall Y, In Y sl -> get_par Y b (p_res p1) = get_par Y b r).
  { intros Y HY. unfold p1. rewrite fix_or_start_other.
    - apply Hget. now right.
    - intros ->. contradiction. }
  assert (Hzero1 : forall k, (S j0 <= k)%nat -> nth k (p_idx p1) 0%Z = 0%Z).
  { intros k Hk. destruct (Hoth k) as [Hk1 _]; [lia|]. rewrite Hk1.
    apply Hzero. lia. }
  unfold next_par. rewrite Hidx, Hval, Hi1. unfold at_ in Hv1. rewrite Hv1.
  rewrite andb_true_r.
  destruct (nth (o + j0) (resFixed c) 0 =? 1)%Z eqn:Hflag.
  - assert (Hp1 : p_idx p1 = upd j0 1%Z (p_idx p)
                  /\ p_val p1
                     = upd j0 (enc_par G X
                                 (get_par X b
                                    (set_par X b (at_ (resValue c) (o + j0)) (p_res p))))
                           (p_val p)
                  /\ p_curi p1 = p_curi p).
    { unfold p1, fix_or_start. rewrite Hflag. auto. }
    destruct Hp1 as (Ei & Ev & Ec).
    rewrite Ei, Ev, !nth_upd_eq by lia.
    change (1 =? 1)%Z with true. cbn [fst snd].
    rewrite get_set_par by assumption. f_equal.
    rewrite <- Ec.
    apply (IH (S j0) p1 G'); auto; try lia.
  - assert (Hp1 : p_idx p1 = p_idx p
                  /\ p_start p1
                     = upd (p_curi p) (enc_par G X (get_par X b (p_res p))) (p_start p)
                  /\ p_curi p1 = S (p_curi p)).
    { unfold p1, fix_or_start. rewrite Hflag. auto. }
    destruct Hp1 as (Ei & Es & Ec).
    rewrite Ei, (Hzero j0) by lia.
    change (0 =? 1)%Z with false. cbn [fst snd].
    rewrite prep_slots_start_below by lia.
    rewrite Es, nth_upd_eq by lia.
    rewrite (Hget X) by now left. f_equal.
    rewrite <- Ec. apply (IH (S j0) p1 G'); auto; try lia.
Qed.

(** With an empty mask the objective reads the free vector as it is. *)
Lemma read_unmasked (G' : globals) (sl : list double) :
  forall (ab : vec) (j0 curi : nat),
    (forall k, nth k (_saemFixedIdx G') 0%Z = 0%Z) ->
    read_pars G' (List.length sl) j0 (ab ++ sl) (List.length ab) = sl.
Proof.
  induction sl as [|x sl IH]; intros ab j0 curi Hz;
    cbn [List.length read_pars]; [reflexivity|].
  unfold next_par. rewrite Hz. change (0 =? 1)%Z with false. cbn [fst snd].
  rewrite app_nth2, Nat.sub_diag by lia. cbn [nth]. f_equal.
  replace (ab ++ x :: sl) with ((ab ++ [x]) ++ sl) by now rewrite <- app_assoc.
  replace (S (List.length ab)) with (List.length (ab ++ [x]))
    by (rewrite length_app; cbn [List.length]; lia).
  now apply IH.
Qed.

Lemma held_pars_burnin (G : globals) (r : res_pars) (b o : nat)
      (sl : list res_par) :
  forall j, held_pars c false G r b o j sl = all_starts G r b sl.
Proof.
  induction sl as [|X sl IH]; intros j; cbn [held_pars all_starts map];
    [reflexivity|].
  rewrite andb_false_r. f_equal. apply IH.
Qed.

(** X3.  The mask, the fixed values and the start vector that a case leaves
    in the globals fit together: read as the objectives read them, the
    start point is the list of the case's parameters, each as the
    coordinate of the minimizer, with the supplied value where the flag
    is set and the burn-in is over, and the current value otherwise. *)
Theorem start_point_reads_parameters (G : globals) (r : res_pars)
        (statrese : vec) (b : nat) :
  in_range b r ->
  List.length (_saemFixedValue G) = 4%nat ->
  uses_minimizer (nth b (res_mod c) 0%Z) = true ->
  let m := nth b (res_mod c) 0%Z in
  let G' := snd (fst (fit_endpoint c kiter fsM junk G r statrese b)) in
  read_pars G' (List.length (slots m)) 0 (_saemStart G') 0
  = held_pars c (ugt kiter (nb_fixResid c)) G r b (nth b (res_offset c) O) 0
              (slots m).
Proof.
  intros Hr Hlen Hm m G'.
  destruct (ugt kiter (nb_fixResid c)) eqn:Hpost.
  - destruct (fit_endpoint_slots c kiter fsM junk G r statrese b Hpost Hm)
      as (fn & step & Hout).
    unfold G'. rewrite Hout. cbn [fst snd set_globals _saemStart]. fold m.
    apply (read_after_prep G r b _ (slots m) 0
             (restart (prep0 (reset_FixedIdx G) r (all_starts G r b (slots m)))));
      cbn [restart prep0 p_res p_idx p_val p_start p_curi reset_FixedIdx
           _saemFixedValue set_globals _saemFixedIdx List.length plus];
      auto.
    + apply slots_NoDup.
    + intros [|[|[|[|k]]]] _; try reflexivity. now destruct k.
    + pose proof (slots_length m). lia.
    + rewrite Hlen. pose proof (slots_length m). lia.
    + unfold all_starts. rewrite length_map. lia.
  - destruct (prep_endpoint_burnin c kiter G r b Hpost Hm)
      as (p & Hp & Hres & Hidx & Hn & Hstart).
    destruct (fit_endpoint_globals c kiter fsM junk G r statrese b p Hp)
      as (Hi & Hv & Hs).
    fold G' in Hi, Hv, Hs. fold m in Hstart. rewrite Hs, Hstart.
    rewrite held_pars_burnin.
    fold (all_starts G r b (slots m)).
    replace (List.length (slots m))
      with (List.length (all_starts G r b (slots m)))
      by (unfold all_starts; now rewrite length_map).
    apply (read_unmasked G' _ [] 0 0).
    intros k. rewrite Hi, Hidx.
    destruct k as [|[|[|[|k]]]]; try reflexivity. now destruct k.
Qed.

End StartPoint.

(* ================================================================== *)
(** * What a case leaves alone *)

Lemma get_set_par_frame (X Y : res_par) (b b' : nat) (v : double) (r : res_pars) :
  b' <> b \/ X <> Y -> get_par X b' (set_par Y b v r) = get_par X b' r.
Proof.
  intros [Hb|HX].
  - destruct X, Y; cbn [get_par set_par ares bres cres lres]; try reflexivity;
      unfold at_; apply nth_upd_ne; congruence.
  - destruct X, Y; cbn [get_par set_par ares bres cres lres];
      try reflexivity; congruence.
Qed.

Section Frame.
Context {E : Extern}.
Variables (c : config) (kiter : Z) (fsM : vec) (junk : nat -> double).

Lemma fix_or_start_frame (X : res_par) (b b' o j : nat) (Y : res_par)
      (enc : double -> double) (p : prep) :
  b' <> b \/ X <> Y ->
  get_par X b' (p_res (fix_or_start c b o j Y enc p)) = get_par X b' (p_res p).
Proof.
  intros H. unfold fix_or_start. destruct (_ =? 1)%Z; cbn [p_res]; auto.
  now apply get_set_par_frame.
Qed.

Lemma adjust_back_frame (X : res_par) (b b' o j : nat) (Y : res_par)
      (dec : double -> double) (pxmin : vec) (s : res_pars * nat) :
  b' <> b \/ X <> Y ->
  get_par X b' (fst (adjust_back c kiter b o j Y dec pxmin s)) = get_par X b' (fst s).
Proof.
  intros H. unfold adjust_back. destruct s as [r k].
  destruct (_ =? 0)%Z; cbn [fst]; auto. now apply get_set_par_frame.
Qed.

Lemma blend_par_frame (X Y : res_par) (b b' : nat) (cand : double) (r : res_pars) :
  b' <> b \/ X <> Y ->
  get_par X b' (blend_par c kiter Y b cand r) = get_par X b' r.
Proof. intros H. unfold blend_par. now apply get_set_par_frame. Qed.

Lemma fit_endpoint_elsewhere (G : globals) (r : res_pars) (statrese : vec)
        (b b' : nat) (X : res_par) :
  b' <> b \/ ~ In X (slots (nth b (res_mod c) 0%Z)) ->
  get_par X b' (fst (fst (fit_endpoint c kiter fsM junk G r statrese b)))
  = get_par X b' r.
Proof.
  intros H.
  assert (HY : forall Y, In Y (slots (nth b (res_mod c) 0%Z)) -> b' <> b \/ X <> Y).
  { intros Y HYin. destruct H as [H|H]; [now left|]. right. intros ->.
    contradiction. }
  clear H. revert HY.
  unfold fit_endpoint. cbv zeta.
  unfold fit_rmAddProp, fit_rmAddPow, fit_rmPow, fit_rmAddLam, fit_rmPropLam,
    fit_rmPowLam, fit_rmAddPropLam, fit_rmAddPowLam,
    prep_rmAddProp, prep_rmAddPow, prep_rmPow, prep_rmAddLam, prep_rmPropLam,
    prep_rmPowLam, prep_rmAddPropLam, prep_rmAddPowLam.
  cbv zeta.
  generalize (nth b (res_mod c) 0%Z) as m. intros m.
  repeat match goal with
         | |- context [(m =? ?k)%Z] =>
             destruct (Z.eqb_spec m k); [subst m|]
         end;
    intros HY;
    try (let s := eval vm_compute in (slots rmAdd) in change (slots rmAdd) with s in HY);
    try reflexivity.
  all: repeat match type of HY with
         | context [slots ?k] =>
             let s := eval vm_compute in (slots k) in change (slots k) with s in HY
         end.
  all: try (assert (HA : b' <> b \/ X <> Ares) by (apply HY; cbn [In]; auto));
    try (assert (HB : b' <> b \/ X <> Bres) by (apply HY; cbn [In]; auto));
    try (assert (HC : b' <> b \/ X <> Cres) by (apply HY; cbn [In]; auto));
    try (assert (HL : b' <> b \/ X <> Lres) by (apply HY; cbn [In]; auto));
    clear HY.
  all: repeat match goal with
         | |- context [if ?t then _ else _] => destruct t
         end; cbn [fst].
  all: repeat first
         [ rewrite adjust_back_frame by assumption
         | rewrite blend_par_frame by assumption
         | rewrite fix_or_start_frame by assumption
         | rewrite get_set_par_frame by assumption
         | progress cbn [fst p_res restart prep0] ];
    reflexivity.
Qed.

(** X4.  The case of endpoint [b] changes no residual parameter of another
    endpoint and no parameter that its residual model does not have. *)
Theorem fit_endpoint_frame (G : globals) (r : res_pars) (statrese : vec)
        (b b' : nat) (X : res_par) :
  b' <> b \/ ~ In X (slots (nth b (res_mod c) 0%Z)) ->
  get_par X b' (fst (fst (fit_endpoint c kiter fsM junk G r statrese b)))
  = get_par X b' r.
Proof. apply fit_endpoint_elsewhere. Qed.

End Frame.

(* ================================================================== *)
(** * The residual parameters as they are reported *)

Section Report.
Context {E : Extern}.
Variables (c : config) (kiter : Z) (fsM : vec) (junk : nat -> double).

Lemma nth_error_slot (sl : list res_par) (j : nat) (X : res_par) :
  nth_error sl j = Some X -> (j < List.length sl)%nat /\ nth j sl Ares = X.
Proof.
  intros H. split.
  - apply nth_error_Some. congruence.
  - now apply nth_error_nth.
Qed.

Lemma report_endpoint_at (r : res_pars) (vcsig2 : vec) (b : nat) :
  let m := nth b (res_mod c) 0%Z in
  let o := nth b (res_offset c) O in
  let out := report_endpoint c r vcsig2 b in
  List.length out = List.length vcsig2
  /\ (forall j X, nth_error (slots m) j = Some X ->
        (o + j < List.length vcsig2)%nat ->
        at_ out (o + j) = get_par X b r)
  /\ (forall k, (k < o)%nat \/ (o + List.length (slots m) <= k)%nat ->
        at_ out k = at_ vcsig2 k).
Proof.
  intros m o out. unfold out, report_endpoint. cbv zeta. fold m o.
  unfold slots.
  repeat match goal with
         | |- context [(m =? ?k)%Z] => destruct (m =? k)%Z
         end;
    (split; [now rewrite ?upd_length|]); split.
  all: try (intros j X Hnth Hlt; apply nth_error_slot in Hnth;
            destruct Hnth as [Hj <-]; cbn [List.length] in Hj;
            destruct j as [|[|[|[|j]]]]; try lia;
            rewrite ?Nat.add_0_r in *; cbn [nth get_par];
            unfold at_ at 1;
            repeat (rewrite nth_upd_ne by lia);
            rewrite nth_upd_eq by (rewrite ?upd_length; lia);
            reflexivity).
  all: try (intros k Hk; cbn [List.length] in Hk; unfold at_ at 1;
            repeat (rewrite nth_upd_ne by lia); reflexivity).
Qed.

(** X5.  The loop that fills [vcsig2] lays the parameters of an endpoint out
    as its case reads [resFixed] and [resValue]: slot [j] of the residual
    model is stored at [res_offset[b] + j].  Nothing else is written. *)
Theorem report_endpoint_layout (r : res_pars) (vcsig2 : vec) (b : nat) :
  let m := nth b (res_mod c) 0%Z in
  let o := nth b (res_offset c) O in
  let out := report_endpoint c r vcsig2 b in
  List.length out = List.length vcsig2
  /\ (forall j X, nth_error (slots m) j = Some X ->
        (o + j < List.length vcsig2)%nat ->
        at_ out (o + j) = get_par X b r)
  /\ (forall k, (k < o)%nat \/ (o + List.length (slots m) <= k)%nat ->
        at_ out k = at_ vcsig2 k).
Proof. exact (report_endpoint_at r vcsig2 b). Qed.

End Report.

(* ================================================================== *)
(** * Through the whole loop over the endpoints *)

Lemma in_range_set_par_any (b b' : nat) (Y : res_par) (v : double) (r : res_pars) :
  in_range b' r -> in_range b' (set_par Y b v r).
Proof.
  unfold in_range. destruct (set_par_length Y b v r) as (-> & -> & -> & ->). auto.
Qed.

Section WholeLoop.
Context {E : Extern}.
Variables (c : config) (kiter : Z) (fsM : vec) (junk : nat -> double).

Lemma fix_or_start_in_range_any (b b' o j : nat) (Y : res_par)
      (enc : double -> double) (p : prep) :
  in_range b' (p_res p) -> in_range b' (p_res (fix_or_start c b o j Y enc p)).
Proof.
  intros H. unfold fix_or_start. destruct (_ =? 1)%Z; cbn [p_res]; auto.
  now apply in_range_set_par_any.
Qed.

Lemma adjust_back_in_range_any (b b' o j : nat) (Y : res_par)
      (dec : double -> double) (pxmin : vec) (s : res_pars * nat) :
  in_range b' (fst s) ->
  in_range b' (fst (adjust_back c kiter b o j Y dec pxmin s)).
Proof.
  unfold adjust_back. destruct s as [r k]. cbn [fst].
  destruct (_ =? 0)%Z; cbn [fst]; auto. apply in_range_set_par_any.
Qed.

Lemma blend_par_in_range_any (b b' : nat) (Y : res_par) (cand : double)
      (r : res_pars) :
  in_range b' r -> in_range b' (blend_par c kiter Y b cand r).
Proof. apply in_range_set_par_any. Qed.

(** A case keeps the sizes of [ares], [bres], [cres] and [lres]. *)
Lemma fit_endpoint_in_range (G : globals) (r : res_pars) (statrese : vec)
      (b b' : nat) :
  in_range b' r ->
  in_range b' (fst (fst (fit_endpoint c kiter fsM junk G r statrese b))).
Proof.
  intros H. unfold fit_endpoint. cbv zeta.
  unfold fit_rmAddProp, fit_rmAddPow, fit_rmPow, fit_rmAddLam, fit_rmPropLam,
    fit_rmPowLam, fit_rmAddPropLam, fit_rmAddPowLam,
    prep_rmAddProp, prep_rmAddPow, prep_rmPow, prep_rmAddLam, prep_rmPropLam,
    prep_rmPowLam, prep_rmAddPropLam, prep_rmAddPowLam.
  cbv zeta.
  repeat match goal with
         | |- context [if ?t then _ else _] => destruct t
         end; cbn [fst];
    repeat first
           [ apply adjust_back_in_range_any
           | apply blend_par_in_range_any
           | apply fix_or_start_in_range_any
           | apply in_range_set_par_any
           | progress cbn [fst p_res restart prep0] ];
    exact H.
Qed.

Lemma endpoint_pass_res (statrese : vec) (s : res_pars * globals * vec) (b : nat) :
  fst (fst (endpoint_pass c kiter fsM junk statrese s b))
  = fst (fst (fit_endpoint c kiter fsM junk (snd (fst s)) (fst (fst s)) statrese b)).
Proof.
  destruct s as [[r G] sigma2]. unfold endpoint_pass. cbn [fst snd].
  now destruct (fit_endpoint c kiter fsM junk G r statrese b) as [[r' G'] sig2].
Qed.

Lemma endpoint_loop_in_range (statrese : vec) (l : list nat) (b : nat) :
  forall s, in_range b (fst (fst s)) ->
            in_range b (fst (fst (fold_left (endpoint_pass c kiter fsM junk statrese) l s))).
Proof.
  induction l as [|a l IH]; intros s H; cbn [fold_left]; [exact H|].
  apply IH. rewrite endpoint_pass_res. now apply fit_endpoint_in_range.
Qed.

Lemma endpoint_loop_elsewhere (statrese : vec) (l : list nat) (b : nat)
      (X : res_par) :
  ~ In b l ->
  forall s,
    get_par X b (fst (fst (fold_left (endpoint_pass c kiter fsM junk statrese) l s)))
    = get_par X b (fst (fst s)).
Proof.
  induction l as [|a l IH]; intros Hn s; cbn [fold_left]; [reflexivity|].
  rewrite IH by (intros H; apply Hn; now right).
  rewrite endpoint_pass_res. apply fit_endpoint_elsewhere.
  left. intros ->. apply Hn. now left.
Qed.

Lemma endpoint_loop_fixed (statrese : vec) (l : list nat) (b j : nat)
      (X : res_par) :
  ugt kiter (nb_fixResid c) = true ->
  nth_error (slots (nth b (res_mod c) 0%Z)) j = Some X ->
  nth (nth b (res_offset c) O + j) (resFixed c) 0%Z = 1%Z ->
  NoDup l -> In b l ->
  forall s, in_range b (fst (fst s)) ->
    get_par X b (fst (fst (fold_left (endpoint_pass c kiter fsM junk statrese) l s)))
    = at_ (resValue c) (nth b (res_offset c) O + j).
Proof.
  intros Hpost Hslot Hfix. induction l as [|a l IH]; intros Hnd Hin s Hr;
    [contradiction|].
  apply NoDup_cons_iff in Hnd. destruct Hnd as [Hnin Hnd]. cbn [fold_left].
  destruct Hin as [->|Hin].
  - rewrite endpoint_loop_elsewhere by assumption.
    rewrite endpoint_pass_res. now apply fit_endpoint_fixed.
  - apply IH; auto. rewrite endpoint_pass_res. now apply fit_endpoint_in_range.
Qed.

(** X6.  After the burn-in, a residual parameter whose fixed flag is set
    holds the supplied value when the loop over the endpoints is done,
    for every endpoint and whatever the cases of the other endpoints and
    the minimizer did. *)
Theorem fixed_parameter_after_loop (G : globals) (r : res_pars)
        (statrese sigma2 : vec) (b j : nat) (X : res_par) :
  (0 <= nb_fixResid c)%Z -> (nb_fixResid c < kiter)%Z -> (kiter < 2 ^ 32)%Z ->
  (b < nendpnt c)%nat ->
  in_range b r ->
  nth_error (slots (nth b (res_mod c) 0%Z)) j = Some X ->
  nth (nth b (res_offset c) O + j) (resFixed c) 0%Z = 1%Z ->
  get_par X b (fst (fst (fit_residuals c kiter fsM junk G r statrese sigma2)))
  = at_ (resValue c) (nth b (res_offset c) O + j).
Proof.
  intros H0 H1 H2 Hb Hr Hslot Hfix.
  change (fit_residuals c kiter fsM junk G r statrese sigma2)
    with (fold_left (endpoint_pass c kiter fsM junk statrese)
                    (seq 0 (nendpnt c)) (r, G, sigma2)).
  apply endpoint_loop_fixed; auto.
  - now apply ugt_true.
  - apply seq_NoDup.
  - apply in_seq. lia.
Qed.

(** The reporting loop, index by index. *)
Lemma report_loop_at (r : res_pars) (l : list nat) (b j : nat) (X : res_par) :
  nth_error (slots (nth b (res_mod c) 0%Z)) j = Some X ->
  (forall b', In b' l -> b' <> b ->
     (nth b (res_offset c) O + j < nth b' (res_offset c) O)%nat
     \/ (nth b' (res_offset c) O + List.length (slots (nth b' (res_mod c) 0%Z))
         <= nth b (res_offset c) O + j)%nat) ->
  NoDup l -> In b l ->
  forall vcsig2,
    (nth b (res_offset c) O + j < List.length vcsig2)%nat ->
    at_ (fold_left (report_endpoint c r) l vcsig2) (nth b (res_offset c) O + j)
    = get_par X b r.
Proof.
  intros Hslot. induction l as [|a l IH]; intros Hdis Hnd Hin v Hlen;
    [contradiction|].
  apply NoDup_cons_iff in Hnd. destruct Hnd as [Hnin Hnd]. cbn [fold_left].
  assert (Hkeep : forall l' v', (forall b', In b' l' -> b' <> b) ->
             (forall b', In b' l' -> b' <> b ->
                (nth b (res_offset c) O + j < nth b' (res_offset c) O)%nat
                \/ (nth b' (res_offset c) O
                    + List.length (slots (nth b' (res_mod c) 0%Z))
                    <= nth b (res_offset c) O + j)%nat) ->
             at_ (fold_left (report_endpoint c r) l' v') (nth b (res_offset c) O + j)
             = at_ v' (nth b (res_offset c) O + j)).
  { induction l' as [|a' l' IH']; intros v' Hne Hd; cbn [fold_left];
      [reflexivity|].
    rewrite IH'.
    - destruct (report_endpoint_at c r v' a') as (_ & _ & Hout).
      apply Hout. apply Hd; [now left|]. apply Hne. now left.
    - intros b' Hb'. apply Hne. now right.
    - intros b' Hb'. apply Hd. now right. }
  destruct (report_endpoint_at c r v a) as (Hl & Hat & Hout).
  destruct Hin as [->|Hin].
  - rewrite Hkeep.
    + now apply Hat.
    + intros b' Hb' ->. contradiction.
    + intros b' Hb'. apply Hdis. now right.
  - apply IH; auto.
    + intros b' Hb'. apply Hdis. now right.
    + now rewrite Hl.
Qed.

(** X7.  After the burn-in, a residual parameter whose fixed flag is set
    is reported with the supplied value: once the loop over the endpoints
    and the loop that fills [vcsig2] ran, [vcsig2] holds at
    [res_offset[b] + j] what [resValue] holds there, provided no other
    endpoint's range of [vcsig2] covers that index. *)
Theorem fixed_value_is_reported (G : globals) (r : res_pars)
        (statrese sigma2 vcsig2 : vec) (b j : nat) (X : res_par) :
  (0 <= nb_fixResid c)%Z -> (nb_fixResid c < kiter)%Z -> (kiter < 2 ^ 32)%Z ->
  (b < nendpnt c)%nat ->
  in_range b r ->
  nth_error (slots (nth b (res_mod c) 0%Z)) j = Some X ->
  nth (nth b (res_offset c) O + j) (resFixed c) 0%Z = 1%Z ->
  (nth b (res_offset c) O + j < List.length vcsig2)%nat ->
  (forall b', (b' < nendpnt c)%nat -> b' <> b ->
     (nth b (res_offset c) O + j < nth b' (res_offset c) O)%nat
     \/ (nth b' (res_offset c) O + List.length (slots (nth b' (res_mod c) 0%Z))
         <= nth b (res_offset c) O + j)%nat) ->
  let r' := fst (fst (fit_residuals c kiter fsM junk G r statrese sigma2)) in
  at_ (report_vcsig2 c r' vcsig2) (nth b (res_offset c) O + j)
  = at_ (resValue c) (nth b (res_offset c) O + j).
Proof.
  intros H0 H1 H2 Hb Hr Hslot Hfix Hlen Hdis r'.
  unfold report_vcsig2.
  rewrite (report_loop_at r' (seq 0 (nendpnt c)) b j X Hslot).
  - unfold r'.
    change (fit_residuals c kiter fsM junk G r statrese sigma2)
      with (fold_left (endpoint_pass c kiter fsM junk statrese)
                      (seq 0 (nendpnt c)) (r, G, sigma2)).
    apply endpoint_loop_fixed; auto.
    + now apply ugt_true.
    + apply seq_NoDup.
    + apply in_seq. lia.
  - intros b' Hb' Hne. apply Hdis; auto. apply in_seq in Hb'. lia.
  - apply seq_NoDup.
  - apply in_seq. lia.
  - exact Hlen.
Qed.

End WholeLoop.


(* ================================================================== *)
(** * Burn-in counts through the cast to [unsigned int] *)

(** [kiter > (unsigned int)(nb)] is false at the first iteration, and at
    every iteration when [nb] is negative. *)
Lemma ugt_never (kiter nb : Z) :
  kiter = 0%Z \/ ((- 2 ^ 31 <= nb < 0)%Z /\ (0 <= kiter < 2 ^ 31)%Z) ->
  ugt kiter nb = false.
Proof.
  unfold ugt, uint32. intros [->|[Hnb Hk]]; apply Z.ltb_ge.
  - apply Z.mod_pos_bound. lia.
  - replace nb with (nb + 2 ^ 32 + (-1) * 2 ^ 32)%Z by lia.
    rewrite Z.mod_add by lia. rewrite Z.mod_small; lia.
Qed.

Section Counts.
Context {E : Extern}.
Variables (c : config) (kiter : Z) (fsM : vec) (junk : nat -> double).

(** X8.  At the first iteration ([kiter = 0]) the fixed flags of the residual
    parameters are not applied, whatever the burn-in count; and with a
    negative burn-in count they are applied at no iteration: the count is
    compared after a cast to [unsigned int]. *)
Theorem fixed_flags_need_a_later_iteration (G : globals) (r : res_pars)
        (statrese : vec) (b : nat) (fixed : list Z) (value : vec) :
  kiter = 0%Z
  \/ ((- 2 ^ 31 <= nb_fixResid c < 0)%Z /\ (0 <= kiter < 2 ^ 31)%Z) ->
  fit_endpoint (with_fixed c fixed value) kiter fsM junk G r statrese b
  = fit_endpoint c kiter fsM junk G r statrese b.
Proof.
  intros H. apply fit_endpoint_burnin_flags. now apply ugt_never.
Qed.

(** X9.  When every parameter of the model is flagged and the burn-in is
    over, nothing is handed to the minimizer ([n = 0]), [_saemOpt]
    returns without writing [pxmin], and every parameter of the model
    leaves the case with its supplied value. *)
Theorem all_fixed_skips_minimizer (G : globals) (r : res_pars)
        (statrese pxmin : vec) (b : nat) :
  (0 <= nb_fixResid c)%Z -> (nb_fixResid c < kiter)%Z -> (kiter < 2 ^ 32)%Z ->
  in_range b r ->
  uses_minimizer (nth b (res_mod c) 0%Z) = true ->
  (forall j, (j < List.length (slots (nth b (res_mod c) 0%Z)))%nat ->
     nth (nth b (res_offset c) O + j) (resFixed c) 0%Z = 1%Z) ->
  let out := fit_endpoint c kiter fsM junk G r statrese b in
  exists p, prep_endpoint c kiter G r b = Some p
    /\ p_n p = O
    /\ _saemOpt (snd (fst out)) (p_n p) pxmin = pxmin
    /\ (forall j X, nth_error (slots (nth b (res_mod c) 0%Z)) j = Some X ->
          get_par X b (fst (fst out))
          = at_ (resValue c) (nth b (res_offset c) O + j)).
Proof.
  intros H0 H1 H2 Hr Hm Hall out.
  assert (Hpost : ugt kiter (nb_fixResid c) = true) by now apply ugt_true.
  destruct (prep_endpoint_free c kiter G r b Hpost Hm) as (p & Hp & Hn & _).
  assert (Hfree : forall sl j0,
             (forall j, (j < List.length sl)%nat ->
                nth (nth b (res_offset c) O + (j0 + j)) (resFixed c) 0%Z = 1%Z) ->
             free_starts c G r b (nth b (res_offset c) O) j0 sl = []).
  { induction sl as [|X sl IH]; intros j0 Hfl; cbn [free_starts]; [reflexivity|].
    pose proof (Hfl O ltac:(cbn [List.length]; lia)) as H. rewrite Nat.add_0_r in H.
    rewrite H. change (1 =? 1)%Z with true. apply IH.
    intros j Hj. replace (S j0 + j)%nat with (j0 + S j)%nat by lia.
    apply Hfl. cbn [List.length]. lia. }
  rewrite (Hfree _ O Hall) in Hn. cbn [List.length] in Hn.
  exists p. split; [exact Hp|]. split; [exact Hn|]. split.
  - rewrite Hn. reflexivity.
  - intros j X Hslot. apply fit_endpoint_fixed; auto.
    apply Hall. apply nth_error_Some. congruence.
Qed.

End Counts.

(* ================================================================== *)
(** * [_saemOpt] and [handleF] *)

Section Minimizer.
Context {E : Extern}.

Lemma copy_front_at (n : nat) (x pxmin : vec) :
  (n <= List.length x)%nat -> (n <= List.length pxmin)%nat ->
  List.length (copy_front n x pxmin) = List.length pxmin
  /\ (forall i, (n <= i)%nat -> at_ (copy_front n x pxmin) i = at_ pxmin i)
  /\ (forall i, (i < n)%nat -> at_ (copy_front n x pxmin) i = at_ x i).
Proof.
  intros Hx Hp. unfold copy_front, at_.
  assert (Hf : List.length (firstn n x) = n) by (apply firstn_length_le; lia).
  split; [|split].
  - rewrite length_app, Hf, length_skipn. lia.
  - intros i Hi. rewrite app_nth2 by lia. rewrite Hf.
    rewrite nth_skipn. f_equal. lia.
  - intros i Hi. rewrite app_nth1 by lia.
    clear -Hi. revert n i Hi. induction x as [|h t IH]; intros [|n] [|i] Hi;
      cbn [firstn nth]; try lia; try reflexivity. apply IH. lia.
Qed.

(** X10.  [_saemOpt(n, pxmin)] writes the first [n] entries of [pxmin] at most:
    the entries from [n] on and the length are as they were, given that
    the minimizers yield [n] coordinates.  With [n = 0], and with two or
    more coordinates and a [_saemType] that is neither 1 nor 2, it writes
    nothing at all; when [.newuoa] yields NA the result is Nelder-Mead's. *)
Theorem saemOpt_writes_front (G : globals) (n : nat) (pxmin : vec) :
  (n <= List.length pxmin)%nat ->
  (n <= List.length (nelder_fn (call_saemFn G) n (_saemStart G) (_saemStep G)
                               (_saemItmax G * Z.of_nat n) (_saemTol G)))%nat ->
  (forall x, newuoa (call_saemFn G) (firstn n (_saemStart G)) (_saemTol G)
                    (_saemItmax G * Z.of_nat n * Z.of_nat n) = Some x ->
             (n <= List.length x)%nat) ->
  List.length (_saemOpt G n pxmin) = List.length pxmin
  /\ (forall i, (n <= i)%nat -> at_ (_saemOpt G n pxmin) i = at_ pxmin i)
  /\ (n = O \/ ((2 <= n)%nat /\ _saemType G <> 1%Z /\ _saemType G <> 2%Z) ->
      _saemOpt G n pxmin = pxmin)
  /\ ((2 <= n)%nat -> _saemType G = 2%Z ->
      newuoa (call_saemFn G) (firstn n (_saemStart G)) (_saemTol G)
             (_saemItmax G * Z.of_nat n * Z.of_nat n) = None ->
      _saemOpt G n pxmin = run_nelder G n pxmin).
Proof.
  intros Hp Hnm Hnu.
  destruct (copy_front_at n _ pxmin Hnm Hp) as (Hl & Hat & _).
  unfold _saemOpt, run_nelder.
  destruct n as [|[|n]].
  - repeat split; auto.
  - rewrite upd_length. repeat split; auto; try lia;
      try (intros i Hi; unfold at_; apply nth_upd_ne; lia);
      try (intros [H|[H _]]; [discriminate|lia]).
  - destruct (Z.eqb_spec (_saemType G) 1) as [H1|H1].
    { repeat split; auto;
        try (intros [H|(_ & H & _)]; [discriminate|contradiction]);
        try (intros _ H2; rewrite H2 in H1; discriminate). }
    destruct (Z.eqb_spec (_saemType G) 2) as [H2|H2].
    + destruct (newuoa _ _ _ _) as [x|] eqn:Hx.
      * destruct (copy_front_at (S (S n)) x pxmin (Hnu x eq_refl) Hp)
          as (Hl' & Hat' & _).
        repeat split; auto;
          try (intros [H|(_ & _ & H)]; [discriminate|contradiction]);
          try (intros _ _ H; discriminate).
      * repeat split; auto;
          try (intros [H|(_ & _ & H)]; [discriminate|contradiction]).
    + repeat split; auto; try (intros _ H; contradiction).
Qed.

End Minimizer.

Lemma leb_false_ltb (x y : double) :
  is_nan x = false -> is_nan y = false -> (x <=? y) = false -> (y <? x) = true.
Proof.
  rewrite !is_nan_false, ltb_spec, leb_spec. unfold SFltb, SFleb.
  intros Hx Hy. destruct (SFcompare (Prim2SF x) (Prim2SF y)) as [o|] eqn:Ec.
  - rewrite (SFcompare_antisym _ _ _ Ec). destruct o; simpl; congruence.
  - destruct (SFcompare_None _ _ Ec); contradiction.
Qed.

Lemma eqb_false_of_ltb (x y : double) : (y <? x) = true -> (x =? y) = false.
Proof.
  rewrite ltb_spec, FloatAxioms.eqb_spec. unfold SFltb, SFeqb.
  destruct (SFcompare (Prim2SF y) (Prim2SF x)) as [o|] eqn:Ec; [|discriminate].
  rewrite (SFcompare_antisym _ _ _ Ec). destruct o; simpl; congruence.
Qed.

Lemma handleF_trunc_range (powt : Z) (ft f : double) (adjustF : bool) :
  is_nan (handleF powt ft f true adjustF) = false ->
  (1.0e-200 <=? handleF powt ft f true adjustF)
  && (handleF powt ft f true adjustF <=? 1e300) = true.
Proof.
  unfold handleF, double_xmin, xmax. cbv zeta.
  set (fb := if adjustF && (_ =? 0) then 1 else _).
  destruct (fb <? 1.0e-200) eqn:Hlo; [reflexivity|].
  destruct (1e300 <? fb) eqn:Hhi; [reflexivity|].
  intros Hn.
  rewrite (ltb_false_leb fb 1.0e-200), (ltb_false_leb 1e300 fb); auto.
Qed.

(** X11.  [handleF]: with [adjustF] the result is never zero; with [trunc] it
    lies within [[1e-200, 1e300]] unless it is a NaN; with neither it is
    the prediction on the scale that [powt] selects. *)
Theorem handleF_result (powt : Z) (ft f : double) (trunc adjustF : bool) :
  (handleF powt ft f trunc true =? 0) = false
  /\ (is_nan (handleF powt ft f true adjustF) = false ->
      (1.0e-200 <=? handleF powt ft f true adjustF)
      && (handleF powt ft f true adjustF <=? 1e300) = true)
  /\ handleF powt ft f false false = (if (powt =? 0)%Z then f else ft).
Proof.
  split; [|split; [apply handleF_trunc_range|reflexivity]].
  unfold handleF, double_xmin, xmax. cbv zeta.
  set (fa := if (powt =? 0)%Z then f else ft).
  cbn [andb]. destruct (fa =? 0) eqn:H0.
  - destruct trunc; reflexivity.
  - destruct trunc; [|exact H0].
    destruct (fa <? 1.0e-200); [reflexivity|].
    destruct (1e300 <? fa); [reflexivity|exact H0].
Qed.

(* ================================================================== *)
(** * The shape of the covariance matrices *)

Lemma diagmat_off (A : mat) (r k : nat) :
  (r < n_rows A)%nat -> (k < n_cols A)%nat -> r <> k ->
  mat_at (diagmat A) r k = 0.
Proof.
  intros Hr Hk Hne. unfold diagmat. rewrite mat_at_init by assumption.
  apply Nat.eqb_neq in Hne. now rewrite Hne.
Qed.

Section CovarianceShape.
Context {E : Extern}.
Variables (c : config) (kiter : Z).

(** X12.  During the burn-in of the correlations
    ([kiter <= (unsigned int) nb_correl]) the updated [Gamma2_phi1] has
    zeros everywhere off its main diagonal, whatever the moment estimate,
    the mask and the fixed elements are. *)
Theorem correlation_burnin_is_diagonal (G1 Gamma2_phi1 : mat) (r k : nat) :
  square (nphi1 c) G1 -> square (nphi1 c) Gamma2_phi1 ->
  square (nphi1 c) (covstruct1 c) ->
  List.length (i1 c) = nphi1 c ->
  ule kiter (nb_correl c) = true ->
  (r < nphi1 c)%nat -> (k < nphi1 c)%nat -> r <> k ->
  mat_at (update_Gamma2_phi1 c kiter G1 Gamma2_phi1) r k = 0.
Proof.
  intros H1 H2 H3 Hi Hcor Hr Hk Hne.
  unfold update_Gamma2_phi1. cbv zeta. rewrite Hcor.
  fold (masked_Gamma2_phi1 c kiter G1 Gamma2_phi1).
  pose proof (masked_Gamma2_phi1_square c kiter _ _ _ H1 H2 H3) as Hm.
  destruct (floor_diag_at (nphi1 c) _ (elems (minv c) (i1 c)) r Hm
              ltac:(now rewrite elems_length) Hr) as [(Hfr & Hfc & Hfl) _].
  apply diagmat_off; [| |exact Hne];
    destruct ((Gamma2_phi1fixed c =? 1)%Z && ugt kiter (nb_fixOmega c));
    try (destruct (set_elems_at
                     (floor_diag (masked_Gamma2_phi1 c kiter G1 Gamma2_phi1)
                                 (elems (minv c) (i1 c)))
                     (Gamma2_phi1fixedIx c) (Gamma2_phi1fixedValues c) O)
           as (Er & Ec & _); rewrite ?Er, ?Ec); lia.
Qed.

(** X13.  [Gamma2_phi0] after the update: untouched when [nphi0 = 0];
    otherwise a diagonal matrix whose diagonal is the new
    [dGamma2_phi0], and past the estimation window
    ([kiter > (unsigned int) niter_phi0]) every entry of [dGamma2_phi0]
    is the previous one times [coef_phi0]. *)
Theorem Gamma2_phi0_shape (G0 Gamma2_phi0 : mat) (dGamma2_phi0 : vec) :
  let out := update_Gamma2_phi0 c kiter G0 Gamma2_phi0 dGamma2_phi0 in
  (nphi0 c = O -> out = (Gamma2_phi0, dGamma2_phi0))
  /\ ((0 < nphi0 c)%nat ->
      forall r k, (r < List.length (snd out))%nat ->
                  (k < List.length (snd out))%nat ->
                  mat_at (fst out) r k = if (r =? k)%nat then at_ (snd out) r else 0)
  /\ ((0 < nphi0 c)%nat -> ule kiter (niter_phi0 c) = false ->
      List.length (snd out) = List.length dGamma2_phi0
      /\ forall k, (k < List.length dGamma2_phi0)%nat ->
                   at_ (snd out) k = at_ dGamma2_phi0 k * coef_phi0 c).
Proof.
  intros out. unfold out, update_Gamma2_phi0. cbv zeta.
  destruct (Nat.ltb_spec 0 (nphi0 c)) as [Hpos|Hz]; cbn [fst snd].
  - split; [lia|]. split.
    + intros _ r k Hr Hk. unfold diagmat_vec. now rewrite mat_at_init.
    + intros _ Hout. rewrite Hout. rewrite length_map. split; [reflexivity|].
      intros k Hk. unfold at_. now rewrite (nth_map_in _ _ _ 0).
  - repeat split; auto; lia.
Qed.

End CovarianceShape.

(* ================================================================== *)
(** * What the sampler leaves alone *)

Lemma set_submat_dims (A : mat) (rows cols : uvec) (B : mat) :
  n_rows (set_submat A rows cols B) = n_rows A
  /\ n_cols (set_submat A rows cols B) = n_cols A
  /\ List.length (mem (set_submat A rows cols B)) = List.length (mem A).
Proof.
  unfold set_submat. revert A.
  induction cols as [|k cols IH]; intros A; cbn [fold_left]; [auto|].
  destruct (IH (fold_left (fun M' r => mat_set M' r k (mat_at B r k)) rows A))
    as (-> & -> & ->).
  clear IH. revert A.
  induction rows as [|r rows IH]; intros A; cbn [fold_left]; [auto|].
  destruct (IH (mat_set A r k (mat_at B r k))) as (-> & -> & ->).
  unfold mat_set. cbn [n_rows n_cols mem]. now rewrite upd_length.
Qed.

Section SamplerFrame.
Context {E : Extern}.
Variable candidate : nat -> nat -> mat -> mat * vec * vec * vec.

Lemma mh_accept_frame (method : Z) (i : uvec) (phiM phiMc : mat)
      (U_y Uc_y U_phi Uc_phi u : vec) :
  wf_mat phiM -> (List.length U_y <= n_rows phiM)%nat ->
  let out := mh_accept method i phiM phiMc U_y Uc_y U_phi Uc_phi u in
  wf_mat (fst (fst out))
  /\ n_rows (fst (fst out)) = n_rows phiM
  /\ n_cols (fst (fst out)) = n_cols phiM
  /\ List.length (snd (fst out)) = List.length U_y
  /\ (forall r k, (r < n_rows phiM)%nat -> (k < n_cols phiM)%nat ->
        has i k = false -> mat_at (fst (fst out)) r k = mat_at phiM r k)
  /\ ((method <= 1)%Z -> snd out = U_phi).
Proof.
  intros Hwf Hy out. unfold out, mh_accept. cbv zeta. cbn [fst snd].
  set (ind := find (accepted (deltu_of method U_y Uc_y U_phi Uc_phi) u)).
  destruct (set_submat_dims phiM ind i phiMc) as (Er & Ec & El).
  assert (Hind : Forall (fun r0 => (r0 < n_rows phiM)%nat) ind).
  { apply Forall_forall. intros r0 H0. apply find_lt in H0.
    unfold accepted in H0. rewrite zipWith_length in H0.
    assert (List.length (deltu_of method U_y Uc_y U_phi Uc_phi)
            <= List.length U_y)%nat.
    { unfold deltu_of. destruct (method =? 1)%Z; rewrite ?zipWith_length; lia. }
    lia. }
  split; [red; rewrite El, Er, Ec; exact Hwf|].
  split; [exact Er|]. split; [exact Ec|].
  split; [apply set_vec_elems_length|]. split.
  - intros r k Hr Hk Hik. rewrite set_submat_at; auto.
    + now rewrite Hik, andb_false_r.
    + red in Hwf. rewrite Hwf. nia.
  - intros Hm. destruct (Z.ltb_spec 1 method); [lia|reflexivity].
Qed.

(** X14.  [do_mcmc] changes [phiM] in the target columns only: with any
    proposals and any draws, and through every repetition and kernel
    pass, an entry of [phiM] in a column that is not in [mphi.i] is what
    it was, and [phiM] keeps its size.  Kernel 1 leaves [U_phi] as it
    was. *)
Theorem do_mcmc_frame (method : Z) (nu nphi : nat) (i : uvec)
        (phiM : mat) (U_y U_phi : vec) :
  wf_mat phiM -> (List.length U_y <= n_rows phiM)%nat ->
  let out := do_mcmc candidate method nu nphi i (phiM, U_y, U_phi) in
  n_rows (fst (fst out)) = n_rows phiM
  /\ n_cols (fst (fst out)) = n_cols phiM
  /\ (forall r k, (r < n_rows phiM)%nat -> (k < n_cols phiM)%nat ->
        has i k = false -> mat_at (fst (fst out)) r k = mat_at phiM r k)
  /\ ((method <= 1)%Z -> snd out = U_phi).
Proof.
  intros Hwf Hy out.
  set (Inv := fun s : mat * vec * vec =>
                wf_mat (fst (fst s))
                /\ (List.length (snd (fst s)) <= n_rows (fst (fst s)))%nat
                /\ n_rows (fst (fst s)) = n_rows phiM
                /\ n_cols (fst (fst s)) = n_cols phiM
                /\ (forall r k, (r < n_rows phiM)%nat -> (k < n_cols phiM)%nat ->
                      has i k = false ->
                      mat_at (fst (fst s)) r k = mat_at phiM r k)
                /\ ((method <= 1)%Z -> snd s = U_phi)).
  assert (Hstep : forall u k1 s, Inv s -> Inv (mh_pass candidate method i u k1 s)).
  { intros u k1 [[M Uy] Uphi] (Hw & Hl & Hr & Hc & Hf & Hp).
    cbn [fst snd] in *. unfold mh_pass.
    destruct (candidate u k1 M) as [[[Mc Ucy] Ucphi] us]. cbv beta iota.
    pose proof (mh_accept_frame method i M Mc Uy Ucy Uphi Ucphi us Hw Hl) as H.
    cbv zeta in H. destruct H as (Hw' & Hr' & Hc' & Hl' & Hf' & Hp').
    unfold Inv.
    split; [exact Hw'|].
    split; [rewrite Hl', Hr'; exact Hl|].
    split; [congruence|]. split; [congruence|]. split.
    - intros r k Hrr Hkk Hik. rewrite Hf' by (try lia; assumption).
      now apply Hf.
    - intros Hm. rewrite (Hp' Hm). now apply Hp. }
  assert (Hfold : forall (A : Type) (f : mat * vec * vec -> A -> mat * vec * vec)
                         (l : list A) s,
             (forall a s, Inv s -> Inv (f s a)) -> Inv s -> Inv (fold_left f l s)).
  { intros A f l. induction l as [|a l IH]; intros s Hf Hs; cbn [fold_left];
      auto. }
  assert (Hout : Inv out).
  { unfold out, do_mcmc. apply Hfold.
    - intros u s Hs. apply Hfold; auto.
    - unfold Inv. cbn [fst snd]. repeat split; auto. }
  destruct Hout as (_ & _ & Hr & Hc & Hf & Hp). auto.
Qed.

End SamplerFrame.

(* ================================================================== *)
(** * The divisor of the proportional residual *)

Section Divisor.
Context {E : Extern}.
Variable c : config.

(** X15.  For the proportional model the residual of an observation is the
    difference of the transformed observation and prediction divided by
    a number that, unless it is a NaN, is above [1e-200] and at most
    [1e300]: a prediction that [handleF] truncated to [1e-200] is
    replaced by 1.  For the other models the residual is the difference
    itself.  A transformed observation that is a NaN stops the fit. *)
Theorem residual_divisor_range (b : nat) (y f : double) :
  let T x := transform c b x in
  (is_nan (T y) = true -> resid_at c b y f = None)
  /\ (is_nan (T y) = false -> nth b (res_mod c) 0%Z <> rmProp ->
      resid_at c b y f = Some (T y - T f))
  /\ (is_nan (T y) = false -> nth b (res_mod c) 0%Z = rmProp ->
      exists d, resid_at c b y f = Some ((T y - T f) / d)
                /\ (is_nan d = false ->
                    (1.0e-200 <? d) && (d <=? 1e300) = true)).
Proof.
  intros T. unfold resid_at, T, transform. cbv zeta.
  destruct (is_nan (_powerD y _ _ _ _)) eqn:Hn.
  - repeat split; auto; discriminate.
  - split; [discriminate|]. split.
    + intros _ Hm. apply Z.eqb_neq in Hm. now rewrite Hm.
    + intros _ Hm. rewrite Hm. change (rmProp =? rmProp)%Z with true. cbv iota.
      eexists. split; [reflexivity|].
      set (fa := handleF _ _ _ true true).
      unfold double_xmin.
      destruct (fa <=? 1.0e-200) eqn:Hle; [reflexivity|].
      intros Hd.
      pose proof (handleF_trunc_range (nth b (propT c) 0%Z)
                    (_powerD f (at_ (lambda c) b) (nth b (yj c) 0%Z)
                             (at_ (low c) b) (at_ (hi c) b)) f true) as Hrange.
      fold fa in Hrange. specialize (Hrange Hd).
      apply andb_prop in Hrange. destruct Hrange as [_ Hhi].
      rewrite Hhi, andb_true_r.
      apply leb_false_ltb; auto.
Qed.

End Divisor.

(* ================================================================== *)
(** * A NaN among the transformed observations *)

Lemma fold_option_none {A B : Type} (f : A -> B -> option A) (l : list B) :
  fold_left (fun acc b => match acc with None => None | Some a => f a b end) l None
  = None.
Proof. induction l as [|b l IH]; cbn [fold_left]; auto. Qed.

Lemma fold_option_stops {A B : Type} (f : A -> B -> option A) (l : list B)
      (x : B) :
  In x l -> (forall a, f a x = None) ->
  forall o,
    fold_left (fun acc b => match acc with None => None | Some a => f a b end) l o
    = None.
Proof.
  intros Hin Hx. induction l as [|b l IH]; intros o; [contradiction|].
  cbn [fold_left]. destruct Hin as [->|Hin].
  - destruct o as [a|]; [rewrite Hx|]; apply fold_option_none.
  - now apply IH.
Qed.

Lemma in_combine_exists {A B : Type} (l : list A) (l' : list B) (x : A) :
  In x l -> (List.length l <= List.length l')%nat ->
  exists y, In (x, y) (combine l l').
Proof.
  revert l'. induction l as [|a l IH]; intros [|b l'] Hin Hlen;
    cbn [In List.length combine] in *; try contradiction; try lia.
  destruct Hin as [->|Hin].
  - exists b. now left.
  - destruct (IH l' Hin ltac:(lia)) as [y Hy]. exists y. now right.
Qed.

Section NaNStops.
Context {E : Extern}.
Variable c : config.

(** X16.  When the transform of an observation of endpoint [b] is a NaN, the
    loop over the chains stops ([Rcpp::stop]) at the first chain, and the
    statistics are not updated. *)
Theorem nan_observation_stops_update (kiter : Z) (phiM : mat) (fsave : vec)
        (s : stats) (b : nat) (y : double) :
  (b < nendpnt c)%nat -> (0 < nmc c)%Z ->
  In y (span (ys c) (nth b (y_offset c) O) (nth (S b) (y_offset c) O)) ->
  (List.length (span (ys c) (nth b (y_offset c) O) (nth (S b) (y_offset c) O))
   <= List.length
        (span (elems (span fsave (0 * ntotal c) ((0 + 1) * ntotal c)) (ix_sorting c))
              (nth b (y_offset c) O) (nth (S b) (y_offset c) O)))%nat ->
  is_nan (transform c b y) = true ->
  statr_sum c fsave = None /\ update_stats c kiter phiM fsave s = None.
Proof.
  intros Hb Hn Hy Hlen Hnan.
  assert (Hchain : forall statr, statr_chain c fsave 0 statr = None).
  { intros statr. unfold statr_chain.
    apply (fold_option_stops
             (fun v b0 => option_map (fun resk => upd b0 (at_ v b0 + resk) v)
                                     (chain_resk c fsave 0 b0))
             _ b).
    - apply in_seq. lia.
    - intros a. unfold chain_resk. cbv zeta. rewrite resid_of_value.
      set (y_cur := span (ys c) _ _) in *.
      set (f_cur := span (elems _ _) _ _) in *.
      assert (Hok : data_ok c b (combine y_cur f_cur) = false).
      { unfold data_ok. apply not_true_is_false. intros Hall.
        rewrite forallb_forall in Hall.
        destruct (in_combine_exists y_cur f_cur y Hy Hlen) as [f Hin].
        specialize (Hall _ Hin). cbn [fst] in Hall.
        rewrite Hnan in Hall. discriminate. }
      rewrite Hok. reflexivity. }
  assert (Hsum : statr_sum c fsave = None).
  { unfold statr_sum.
    apply (fold_option_stops (fun v k => statr_chain c fsave k v) _ O).
    - apply in_seq. lia.
    - exact Hchain. }
  split; [exact Hsum|]. unfold update_stats. cbv zeta. now rewrite Hsum.
Qed.

End NaNStops.

(* ================================================================== *)
(** * The scale of the normal likelihood *)

(** X17.  The residual scale of the normal likelihood is never zero, and
    unless it is a NaN it lies within [[1e-200, 1e300]]: it is
    [vecares + vecbres*|ftT|] with an exact zero replaced by 1, clipped. *)
Theorem lik_scale_range (a b ftT : double) :
  lik_scale a b ftT
  = clip_into (if a + b * fabs ftT =? 0 then 1 else a + b * fabs ftT)
  /\ (lik_scale a b ftT =? 0) = false
  /\ (is_nan (lik_scale a b ftT) = false ->
      (1.0e-200 <=? lik_scale a b ftT) && (lik_scale a b ftT <=? 1e300) = true).
Proof.
  assert (Heq : lik_scale a b ftT
                = clip_into (if a + b * fabs ftT =? 0 then 1 else a + b * fabs ftT)).
  { unfold lik_scale. cbv zeta.
    change (if ?g <? double_xmin then double_xmin else ?g)
      with (if g <? 1.0e-200 then 1.0e-200 else g).
    exact (clip_clip_into _). }
  split; [exact Heq|]. rewrite Heq. split.
  - unfold clip_into.
    destruct (a + b * fabs ftT =? 0) eqn:Hz; [reflexivity|].
    destruct (_ <? 1.0e-200); [reflexivity|].
    destruct (1e300 <? _); [reflexivity|exact Hz].
  - set (g := if _ =? 0 then 1 else _). unfold clip_into.
    destruct (g <? 1.0e-200) eqn:Hlo; [reflexivity|].
    destruct (1e300 <? g) eqn:Hhi; [reflexivity|].
    intros Hn.
    rewrite (ltb_false_leb g 1.0e-200), (ltb_false_leb 1e300 g); auto.
Qed.

(* ================================================================== *)
(** * The prediction behind the likelihood scale *)

Section LikelihoodLoops.
Context {E : Extern}.
Variable c : config.

Lemma fit_lik_pass_at (f yM : vec) (s : vec * vec * vec) (j : nat) :
  let s' := fit_lik_pass c f yM s j in
  List.length (fst (fst s')) = List.length (fst (fst s))
  /\ List.length (snd s') = List.length (snd s)
  /\ (forall i, i <> j ->
        at_ (fst (fst s')) i = at_ (fst (fst s)) i
        /\ at_ (snd s') i = at_ (snd s) i)
  /\ ((j < List.length (fst (fst s)))%nat -> (j < List.length (snd s))%nat ->
        at_ (fst (fst s')) j = T_at c j (at_ f j)
        /\ at_ (snd s') j
           = handleF (propT_at c j) (T_at c j (at_ f j)) (at_ f j) false true).
Proof.
  destruct s as [[ft yt] ftT]. unfold fit_lik_pass, T_at, propT_at, transform.
  cbv zeta. cbn [fst snd]. rewrite !upd_length. repeat split.
  - unfold at_. now rewrite nth_upd_ne by congruence.
  - unfold at_. now rewrite nth_upd_ne by congruence.
  - intros; unfold at_. now rewrite nth_upd_eq.
  - intros; unfold at_. now rewrite !nth_upd_eq.
Qed.

Lemma fit_lik_fold (f yM : vec) (l : list nat) :
  forall (s : vec * vec * vec) (i : nat),
  NoDup l ->
  (i < List.length (fst (fst s)))%nat -> (i < List.length (snd s))%nat ->
  let r := fold_left (fit_lik_pass c f yM) l s in
  (In i l ->
     at_ (fst (fst r)) i = T_at c i (at_ f i)
     /\ at_ (snd r) i = handleF (propT_at c i) (T_at c i (at_ f i)) (at_ f i) false true)
  /\ (~ In i l ->
     at_ (fst (fst r)) i = at_ (fst (fst s)) i /\ at_ (snd r) i = at_ (snd s) i).
Proof.
  induction l as [|j l IH]; intros s i Hnd Hi1 Hi2; cbn [fold_left].
  - split; [intros []|]. intros _. split; reflexivity.
  - apply NoDup_cons_iff in Hnd. destruct Hnd as [Hj Hnd].
    pose proof (fit_lik_pass_at f yM s j) as Hp. cbv zeta in Hp.
    destruct Hp as (L1 & L2 & Hne & Heq).
    specialize (IH (fit_lik_pass c f yM s j) i Hnd).
    cbv zeta in IH. rewrite L1, L2 in IH. specialize (IH Hi1 Hi2).
    destruct IH as [IHin IHout].
    destruct (Nat.eq_dec i j) as [->|Hij].
    + destruct (IHout Hj) as [-> ->].
      split; [intros _; now apply Heq|]. intros Hn. elim Hn. now left.
    + destruct (Hne i Hij) as [E1 E2]. split.
      * intros [Hin|Hin]; [congruence|]. now apply IHin.
      * intros Hn. destruct IHout as [-> ->]; [|now split].
        intros Hin. apply Hn. now right.
Qed.

Lemma mcmc_lik_pass_at (fs yM : vec) (s : vec * vec * vec) (j : nat) :
  let s' := mcmc_lik_pass c fs yM s j in
  List.length (fst (fst s')) = List.length (fst (fst s))
  /\ List.length (snd s') = List.length (snd s)
  /\ (forall i, i <> j ->
        at_ (fst (fst s')) i = at_ (fst (fst s)) i
        /\ at_ (snd s') i = at_ (snd s) i)
  /\ ((j < List.length (fst (fst s)))%nat -> (j < List.length (snd s))%nat ->
        at_ (fst (fst s')) j = T_at c j (at_ (fst (fst s)) j)
        /\ at_ (snd s') j
           = handleF (propT_at c j) (at_ fs j) (T_at c j (at_ (fst (fst s)) j)) false true).
Proof.
  destruct s as [[fc yt] fcT]. unfold mcmc_lik_pass, T_at, propT_at, transform.
  cbv zeta. cbn [fst snd]. rewrite !upd_length. repeat split.
  - unfold at_. now rewrite nth_upd_ne by congruence.
  - unfold at_. now rewrite nth_upd_ne by congruence.
  - intros; unfold at_. now rewrite nth_upd_eq.
  - intros; unfold at_. now rewrite !nth_upd_eq.
Qed.

Lemma mcmc_lik_fold (fs yM : vec) (l : list nat) :
  forall (s : vec * vec * vec) (i : nat),
  NoDup l ->
  (i < List.length (fst (fst s)))%nat -> (i < List.length (snd s))%nat ->
  let r := fold_left (mcmc_lik_pass c fs yM) l s in
  (In i l ->
     at_ (fst (fst r)) i = T_at c i (at_ (fst (fst s)) i)
     /\ at_ (snd r) i
        = handleF (propT_at c i) (at_ fs i) (T_at c i (at_ (fst (fst s)) i)) false true)
  /\ (~ In i l ->
     at_ (fst (fst r)) i = at_ (fst (fst s)) i /\ at_ (snd r) i = at_ (snd s) i).
Proof.
  induction l as [|j l IH]; intros s i Hnd Hi1 Hi2; cbn [fold_left].
  - split; [intros []|]. intros _. split; reflexivity.
  - apply NoDup_cons_iff in Hnd. destruct Hnd as [Hj Hnd].
    pose proof (mcmc_lik_pass_at fs yM s j) as Hp. cbv zeta in Hp.
    destruct Hp as (L1 & L2 & Hne & Heq).
    specialize (IH (mcmc_lik_pass c fs yM s j) i Hnd).
    cbv zeta in IH. rewrite L1, L2 in IH. specialize (IH Hi1 Hi2).
    destruct IH as [IHin IHout].
    destruct (Nat.eq_dec i j) as [->|Hij].
    + destruct (IHout Hj) as [-> ->].
      split; [intros _; now apply Heq|]. intros Hn. elim Hn. now left.
    + destruct (Hne i Hij) as [E1 E2]. split.
      * intros [Hin|Hin]; [congruence|]. rewrite <- E1. now apply IHin.
      * intros Hn. destruct IHout as [-> ->]; [|now split].
        intros Hin. apply Hn. now right.
Qed.

Lemma lik_scales_at (vecares vecbres t : vec) (i : nat) :
  (i < List.length t)%nat ->
  List.length vecares = List.length t ->
  List.length vecbres = List.length t ->
  at_ (lik_scales vecares vecbres t) i
  = lik_scale (at_ vecares i) (at_ vecbres i) (at_ t i).
Proof.
  intros Hi Ha Hb. unfold lik_scales, at_.
  rewrite (nth_zipWith _ _ _ i (0, 0) 0 0).
  - rewrite combine_nth by congruence. reflexivity.
  - rewrite length_combine. lia.
  - exact Hi.
Qed.

(** X18.  The loops that prepare the normal likelihood in [saem_fit] and
    in [do_mcmc] leave the same transformed prediction at every index,
    but not the same scale.  In [saem_fit] the proportional term of the
    scale of observation [i] is taken of the prediction as it is when its
    endpoint's [propT] is 0 and of the transformed prediction otherwise.
    In [do_mcmc], where the prediction vector is overwritten by its
    transform and [handleF] receives the saved copy as its transformed
    argument, it is taken of the transformed prediction when [propT] is 0
    and of the prediction as it is otherwise.  In both an exact zero is
    replaced by 1, and the two scales agree where the transform leaves
    the prediction unchanged. *)
Theorem mcmc_scale_swaps_prediction (f yM vecares vecbres : vec) (i : nat) :
  (i < List.length f)%nat ->
  List.length vecares = List.length f ->
  List.length vecbres = List.length f ->
  let cur := nth i (ix_endpnt c) O in
  let powt := nth cur (propT c) 0%Z in
  let fi := at_ f i in
  let Tfi := transform c cur fi in
  let fit := fit_lik_loop c f yM in
  let mc := mcmc_lik_loop c f yM in
  at_ (fst (fst fit)) i = Tfi
  /\ at_ (fst (fst mc)) i = Tfi
  /\ at_ (lik_scales vecares vecbres (snd fit)) i
     = lik_scale (at_ vecares i) (at_ vecbres i)
         (let fa := if (powt =? 0)%Z then fi else Tfi in
          if fa =? 0 then 1 else fa)
  /\ at_ (lik_scales vecares vecbres (snd mc)) i
     = lik_scale (at_ vecares i) (at_ vecbres i)
         (let fa := if (powt =? 0)%Z then Tfi else fi in
          if fa =? 0 then 1 else fa)
  /\ (Tfi = fi ->
      at_ (lik_scales vecares vecbres (snd fit)) i
      = at_ (lik_scales vecares vecbres (snd mc)) i).
Proof.
  intros Hi Ha Hb cur powt fi Tfi fit mc.
  assert (Hnd : NoDup (rev (seq 0 (List.length f)))).
  { apply NoDup_rev, seq_NoDup. }
  assert (Hin : In i (rev (seq 0 (List.length f)))).
  { apply in_rev. rewrite rev_involutive. apply in_seq. lia. }
  assert (Hlen : forall (g : vec * vec * vec -> nat -> vec * vec * vec) l s,
            (forall s j, List.length (snd (g s j)) = List.length (snd s)) ->
            List.length (snd (fold_left g l s)) = List.length (snd s)).
  { intros g l. induction l as [|j l IH]; intros s Hg; cbn [fold_left];
      [reflexivity|]. rewrite IH by exact Hg. apply Hg. }
  assert (Lfit : List.length (snd fit) = List.length f).
  { unfold fit, fit_lik_loop. rewrite Hlen.
    - cbn [snd]. apply repeat_length.
    - intros s j. apply (fit_lik_pass_at f yM s j). }
  assert (Lmc : List.length (snd mc) = List.length f).
  { unfold mc, mcmc_lik_loop. rewrite Hlen.
    - cbn [snd]. apply repeat_length.
    - intros s j. apply (mcmc_lik_pass_at f yM s j). }
  pose proof (fit_lik_fold f yM _ (f, yM, repeat 0 (List.length f)) i Hnd) as Hf.
  pose proof (mcmc_lik_fold f yM _
                (f, repeat 0 (List.length f), repeat 0 (List.length f)) i Hnd) as Hm.
  cbv zeta in Hf, Hm. cbn [fst snd] in Hf, Hm. rewrite repeat_length in Hf, Hm.
  destruct (Hf Hi Hi) as [Hf' _]. destruct (Hm Hi Hi) as [Hm' _].
  destruct (Hf' Hin) as [F1 F2]. destruct (Hm' Hin) as [M1 M2].
  change (at_ (fst (fst fit)) i = Tfi) in F1.
  change (at_ (snd fit) i = handleF powt Tfi fi false true) in F2.
  change (at_ (fst (fst mc)) i = Tfi) in M1.
  change (at_ (snd mc) i = handleF powt fi Tfi false true) in M2.
  assert (G1 : at_ (lik_scales vecares vecbres (snd fit)) i
               = lik_scale (at_ vecares i) (at_ vecbres i)
                   (let fa := if (powt =? 0)%Z then fi else Tfi in
                    if fa =? 0 then 1 else fa)).
  { rewrite lik_scales_at by congruence. rewrite F2.
    unfold handleF. cbv zeta. cbn [andb]. reflexivity. }
  assert (G2 : at_ (lik_scales vecares vecbres (snd mc)) i
               = lik_scale (at_ vecares i) (at_ vecbres i)
                   (let fa := if (powt =? 0)%Z then Tfi else fi in
                    if fa =? 0 then 1 else fa)).
  { rewrite lik_scales_at by congruence. rewrite M2.
    unfold handleF. cbv zeta. cbn [andb]. reflexivity. }
  repeat split; try assumption.
  intros HT. rewrite G1, G2. cbv zeta. rewrite HT.
  destruct (powt =? 0)%Z; reflexivity.
Qed.

End LikelihoodLoops.

Lemma mcmc_scale_swaps_prediction_witness :
  let c := example_config rmAdd [0; 0; 0; 0]%Z 0 in
  let fit := fit_lik_loop (E := example_extern_shift) c [2; 6] [3; 5] in
  let mc := mcmc_lik_loop (E := example_extern_shift) c [2; 6] [3; 5] in
  at_ (lik_scales [1; 1] [0.5; 0.5] (snd fit)) 0 = lik_scale 1 0.5 2
  /\ at_ (lik_scales [1; 1] [0.5; 0.5] (snd mc)) 0 = lik_scale 1 0.5 3
  /\ lik_scale 1 0.5 2 = 2
  /\ lik_scale 1 0.5 3 = 2.5.
Proof.
  intros c fit mc.
  pose proof (mcmc_scale_swaps_prediction (E := example_extern_shift) c
                [2; 6] [3; 5] [1; 1] [0.5; 0.5] 0) as H.
  cbv zeta in H.
  destruct H as (_ & _ & H1 & H2 & _); [simpl; lia | reflexivity | reflexivity |].
  split; [exact H1|]. split; [exact H2|].
  vm_compute. split; reflexivity.
Defined.

(* ================================================================== *)
(** * The range of the power and lambda coordinates *)

Lemma iter_pos_shr_nonneg (n : positive) :
  forall mrs, (0 <= shr_m mrs)%Z -> (0 <= shr_m (iter_pos shr_1 n mrs))%Z.
Proof.
  assert (H1 : forall mrs, (0 <= shr_m mrs)%Z -> (0 <= shr_m (shr_1 mrs))%Z).
  { intros [m r s] H. cbn [shr_m] in H. unfold shr_1.
    destruct m as [|[p|p|]|p]; cbn [shr_m]; lia. }
  induction n as [n IH|n IH|]; intros mrs H; cbn [iter_pos]; auto.
Qed.

Lemma shr_fexp_nonneg (m e : Z) (l : location) :
  (0 <= m)%Z -> (0 <= shr_m (fst (shr_fexp prec emax m e l)))%Z.
Proof.
  intros H. unfold shr_fexp, shr.
  assert (H0 : (0 <= shr_m (shr_record_of_loc m l))%Z)
    by (destruct l as [|[ | | ]]; exact H).
  destruct (fexp prec emax (Zdigits2 m + e) - e)%Z; cbn [fst]; auto.
  now apply iter_pos_shr_nonneg.
Qed.

(** Rounding keeps the sign and never yields a NaN. *)
Lemma binary_round_aux_sign (s : bool) (m : positive) (e : Z) (l : location) :
  binary_round_aux prec emax s (Z.pos m) e l = S754_zero s
  \/ binary_round_aux prec emax s (Z.pos m) e l = S754_infinity s
  \/ exists m' e', binary_round_aux prec emax s (Z.pos m) e l = S754_finite s m' e'.
Proof.
  unfold binary_round_aux.
  pose proof (shr_fexp_nonneg (Z.pos m) e l ltac:(lia)) as H1.
  destruct (shr_fexp prec emax (Z.pos m) e l) as [mrs' e']. cbn [fst] in H1.
  assert (H2 : (0 <= round_nearest_even (shr_m mrs') (loc_of_shr_record mrs'))%Z).
  { unfold round_nearest_even.
    destruct (loc_of_shr_record mrs') as [|[ | | ]]; try lia.
    destruct (Z.even (shr_m mrs')); lia. }
  pose proof (shr_fexp_nonneg _ e' loc_Exact H2) as H3.
  destruct (shr_fexp prec emax _ e' loc_Exact) as [mrs'' e'']. cbn [fst] in H3.
  destruct (shr_m mrs'') as [|p|p]; [auto| |lia].
  destruct (e'' <=? emax - prec)%Z; eauto.
Qed.

Lemma leb_opp_self (z : double) (s : bool) :
  Prim2SF z = S754_zero s \/ Prim2SF z = S754_infinity false
  \/ (exists m e, Prim2SF z = S754_finite false m e) ->
  (- z <=? z) = true.
Proof.
  intros H. rewrite leb_spec, opp_spec. unfold SFleb.
  destruct H as [->|[->|(m & e & ->)]]; reflexivity.
Qed.

(** [0.99*R] for a bound [R >= 0]: its sign bit is clear unless it is a
    zero, and the lower end [-0.99*R] is its negation. *)
Lemma bound99 (R : double) :
  (0 <=? R) = true ->
  - 0.99 * R = - (0.99 * R)
  /\ is_nan (0.99 * R) = false
  /\ (- (0.99 * R) <=? 0.99 * R) = true.
Proof.
  intros HR. rewrite leb_spec in HR. unfold SFleb in HR.
  change (Prim2SF 0) with (S754_zero false) in HR.
  assert (Hz : (exists s, Prim2SF (0.99 * R) = S754_zero s)
               \/ Prim2SF (0.99 * R) = S754_infinity false
               \/ (exists m e, Prim2SF (0.99 * R) = S754_finite false m e)).
  { rewrite mul_spec.
    let v := eval vm_compute in (Prim2SF 0.99) in change (Prim2SF 0.99) with v.
    destruct (Prim2SF R) as [s|[|]| |[|] m e]; try discriminate HR.
    - left. eexists. reflexivity.
    - right. left. reflexivity.
    - unfold SF64mul, SFmul. cbn [xorb].
      match goal with
      | |- context [binary_round_aux _ _ false (Z.pos ?p) ?ee ?ll] =>
          destruct (binary_round_aux_sign false p ee ll) as [H|[H|(m' & e' & H)]];
          rewrite H
      end; eauto. }
  assert (Hopp : - 0.99 * R = - (0.99 * R)).
  { apply Prim2SF_inj. rewrite opp_spec, !mul_spec.
    let v := eval vm_compute in (Prim2SF 0.99) in change (Prim2SF 0.99) with v.
    let v := eval vm_compute in (Prim2SF (- 0.99)) in
      change (Prim2SF (- 0.99)) with v.
    destruct (Prim2SF R) as [s|s| |s m e]; try reflexivity;
      try (destruct s; reflexivity).
    unfold SF64mul, SFmul, binary_round_aux. cbn [xorb].
    destruct (shr_fexp _ _ _ _ _) as [mrs' e'].
    destruct (shr_fexp _ _ _ _ _) as [mrs'' e''].
    destruct (shr_m mrs''); destruct s; cbn [SFopp xorb negb];
      repeat match goal with
             | |- context [if ?t then _ else _] => destruct t
             end; reflexivity. }
  split; [exact Hopp|]. split.
  - apply is_nan_false. destruct Hz as [[s ->]|[->|(m & e & ->)]]; discriminate.
  - destruct Hz as [[s Hs]|Hz].
    + apply (leb_opp_self _ s). now left.
    + apply (leb_opp_self _ false). now right.
Qed.

Section Clamp.
Context {E : Extern}.

Lemma clamp99_range (R x : double) :
  (0 <=? R) = true -> is_nan x = false ->
  (- 0.99 * R <=? clamp99 R x) && (clamp99 R x <=? 0.99 * R) = true.
Proof.
  intros HR Hx. destruct (bound99 R HR) as (Hopp & Hn & Hle).
  assert (Hn' : is_nan (- 0.99 * R) = false).
  { rewrite Hopp. apply is_nan_false. rewrite opp_spec.
    apply is_nan_false in Hn. destruct (Prim2SF (0.99 * R)); try discriminate;
      congruence. }
  unfold clamp99.
  destruct (x <? - 0.99 * R) eqn:Hlo.
  - rewrite leb_refl by assumption. rewrite Hopp. exact Hle.
  - destruct (0.99 * R <? x) eqn:Hhi.
    + rewrite leb_refl by assumption. rewrite andb_true_r, Hopp. exact Hle.
    + rewrite (ltb_false_leb x (- 0.99 * R)), (ltb_false_leb (0.99 * R) x); auto.
Qed.

(** X19.  [toPowEst] and [toLambdaEst] hand the transform a value within
    [[-0.99*R, 0.99*R]], for their range [R >= 0] and an argument that is
    not a NaN. *)
Theorem estimate_coordinate_in_range (G : globals) (x : double) :
  is_nan x = false ->
  ((0 <=? _saemPowR G) = true ->
   exists y, toPowEst G x = _powerD y 1 4 (- _saemPowR G) (_saemPowR G)
             /\ (- 0.99 * _saemPowR G <=? y) && (y <=? 0.99 * _saemPowR G) = true)
  /\ ((0 <=? _saemLambdaR G) = true ->
      exists y, toLambdaEst G x = _powerD y 1 4 (- _saemLambdaR G) (_saemLambdaR G)
                /\ (- 0.99 * _saemLambdaR G <=? y)
                   && (y <=? 0.99 * _saemLambdaR G) = true).
Proof.
  intros Hx. split; intros HR; eexists; (split; [reflexivity|]);
    now apply clamp99_range.
Qed.

End Clamp.


(* ================================================================== *)
(** * The sign of a scale coordinate *)

Lemma double_mul_opp_opp (x : double) : (- x) * (- x) = x * x.
Proof.
  apply Prim2SF_inj. rewrite !mul_spec, opp_spec.
  destruct (Prim2SF x) as [s|s| |s m e]; try reflexivity;
    destruct s; reflexivity.
Qed.

Section ScaleSign.
Context {E : Extern}.

Lemma next_par_free (G : globals) (k : nat) (ab : vec) (curi : nat) :
  (forall i, nth i (_saemFixedIdx G) 0%Z = 0%Z) ->
  next_par G k ab curi = (at_ ab curi, S curi).
Proof. intros H. unfold next_par. now rewrite H. Qed.

Lemma at_flip (k j : nat) (ab : vec) :
  at_ (flip_at k ab) j
  = if (k =? j)%nat && (k <? List.length ab)%nat then - at_ ab j else at_ ab j.
Proof.
  unfold flip_at, at_. rewrite nth_upd.
  destruct (Nat.eqb_spec k j) as [->|Hne]; reflexivity.
Qed.

(** X20.  With nothing fixed, an objective does not see the sign of a scale
    coordinate: the additive and the proportional (or power) scale enter
    squared, so flipping the sign of such an entry of the free vector
    leaves the value as it is, bit for bit. *)
Theorem objective_ignores_scale_sign (G : globals) (ab : vec) (k : nat) :
  (forall i, nth i (_saemFixedIdx G) 0%Z = 0%Z) ->
  In k (scale_coords (_saemFn G)) ->
  call_saemFn G (flip_at k ab) = call_saemFn G ab.
Proof.
  intros Hfree Hk. unfold call_saemFn.
  destruct (_saemFn G); cbn [scale_coords In] in Hk;
    unfold obj, objC, objD, objE, objF, objG, objH, objI;
    rewrite !next_par_free by assumption; rewrite !at_flip;
    repeat (destruct Hk as [<-|Hk];
            [cbn [Nat.eqb andb];
             destruct (_ <? List.length ab)%nat;
             rewrite ?double_mul_opp_opp; reflexivity|]);
    contradiction.
Qed.

End ScaleSign.


(* ================================================================== *)
(** * The theorems above at concrete inputs *)

Lemma free_parameter_blended_witness :
  let c := example_config rmAddProp [1; 0; 0; 0]%Z 0 in
  let out := fit_endpoint (E := example_extern) c 1 [2; 6] (fun _ => 0)
               example_globals example_res [8] 0 in
  ((0 <= nb_fixResid c)%Z /\ (nb_fixResid c < 1)%Z /\ (1 < 2 ^ 32)%Z
   /\ in_range 0 example_res
   /\ uses_minimizer (nth 0 (res_mod c) 0%Z) = true
   /\ nth_error (slots (nth 0 (res_mod c) 0%Z)) 1 = Some Bres
   /\ nth (nth 0 (res_offset c) O + 1) (resFixed c) 0%Z = 0%Z)
  /\ (exists p, prep_endpoint (E := example_extern) c 1 example_globals example_res 0
                = Some p
        /\ (0 < p_n p)%nat
        /\ at_ (p_start p) 0 = 2
        /\ get_par Bres 0 (fst (fst out))
           = blend c 1 4
               (sq (at_ (_saemOpt (E := example_extern) (snd (fst out)) (p_n p)
                                  (alloc (fun _ => 0) 2)) 0)))
  /\ get_par Bres 0 (fst (fst out)) = 6.5.
Proof.
  intros c out.
  assert ((0 <= nb_fixResid c)%Z /\ (nb_fixResid c < 1)%Z /\ (1 < 2 ^ 32)%Z
          /\ in_range 0 example_res
          /\ uses_minimizer (nth 0 (res_mod c) 0%Z) = true
          /\ nth_error (slots (nth 0 (res_mod c) 0%Z)) 1 = Some Bres
          /\ nth (nth 0 (res_offset c) O + 1) (resFixed c) 0%Z = 0%Z) as H.
  { unfold in_range. simpl. repeat split; try lia; reflexivity. }
  split; [exact H|]. destruct H as (H1 & H2 & H3 & H4 & H5 & H6 & H7).
  split; [|vm_compute; reflexivity].
  destruct (free_parameter_blended (E := example_extern) c 1 [2; 6] (fun _ => 0)
              example_globals example_res [8] 0 1 Bres H1 H2 H3 H4 H5 H6 H7)
    as (p & Hp & _ & Hrank & Hstart & Hblend).
  { intros [|i] Hi; [right; reflexivity|lia]. }
  exists p. split; [exact Hp|]. split; [exact Hrank|].
  split; [exact Hstart|exact Hblend].
Defined.

Lemma start_point_reads_parameters_witness :
  let c := example_config rmAddProp [1; 0; 0; 0]%Z 0 in
  let G' := snd (fst (fit_endpoint (E := example_extern) c 1 [2; 6] (fun _ => 0)
                        example_globals example_res [8] 0)) in
  (in_range 0 example_res
   /\ List.length (_saemFixedValue example_globals) = 4%nat
   /\ uses_minimizer (nth 0 (res_mod c) 0%Z) = true)
  /\ read_pars G' 2 0 (_saemStart G') 0
     = held_pars (E := example_extern) c (ugt 1 (nb_fixResid c)) example_globals
                 example_res 0 0 0 [Ares; Bres]
  /\ read_pars G' 2 0 (_saemStart G') 0 = [0.5; 2].
Proof.
  intros c G'.
  assert (in_range 0 example_res
          /\ List.length (_saemFixedValue example_globals) = 4%nat
          /\ uses_minimizer (nth 0 (res_mod c) 0%Z) = true) as H.
  { unfold in_range. simpl. repeat split; try lia; reflexivity. }
  split; [exact H|]. destruct H as (H1 & H2 & H3).
  split; [|vm_compute; reflexivity].
  exact (start_point_reads_parameters (E := example_extern) c 1 [2; 6] (fun _ => 0)
           example_globals example_res [8] 0 H1 H2 H3).
Defined.

Lemma fit_endpoint_frame_witness :
  let c := example_config rmAddProp [1; 0; 0; 0]%Z 0 in
  let out := fit_endpoint (E := example_extern) c 1 [2; 6] (fun _ => 0)
               example_globals example_res [8] 0 in
  slots (nth 0 (res_mod c) 0%Z) = [Ares; Bres]
  /\ get_par Cres 0 (fst (fst out)) = get_par Cres 0 example_res
  /\ get_par Cres 0 example_res = 0.5.
Proof.
  intros c out. split; [reflexivity|]. split; [|reflexivity].
  apply (fit_endpoint_frame (E := example_extern) c 1 [2; 6] (fun _ => 0)
           example_globals example_res [8] 0 0 Cres).
  right. simpl. intros [H|[H|H]]; try discriminate; exact H.
Defined.

Lemma fixed_parameter_after_loop_witness :
  let c := example_config rmAddProp [1; 0; 0; 0]%Z 0 in
  let out := fit_residuals (E := example_extern) c 1 [2; 6] (fun _ => 0)
               example_globals example_res [8] [10] in
  ((0 <= nb_fixResid c)%Z /\ (nb_fixResid c < 1)%Z /\ (1 < 2 ^ 32)%Z
   /\ (0 < nendpnt c)%nat
   /\ in_range 0 example_res
   /\ nth_error (slots (nth 0 (res_mod c) 0%Z)) 0 = Some Ares
   /\ nth (nth 0 (res_offset c) O + 0) (resFixed c) 0%Z = 1%Z)
  /\ get_par Ares 0 (fst (fst out)) = at_ (resValue c) (nth 0 (res_offset c) O + 0)
  /\ fst (fst out) = {| ares := [0.25]; bres := [6.5]; cres := [0.5]; lres := [0.25] |}.
Proof.
  intros c out.
  assert ((0 <= nb_fixResid c)%Z /\ (nb_fixResid c < 1)%Z /\ (1 < 2 ^ 32)%Z
          /\ (0 < nendpnt c)%nat
          /\ in_range 0 example_res
          /\ nth_error (slots (nth 0 (res_mod c) 0%Z)) 0 = Some Ares
          /\ nth (nth 0 (res_offset c) O + 0) (resFixed c) 0%Z = 1%Z) as H.
  { unfold in_range. simpl. repeat split; try lia; reflexivity. }
  split; [exact H|]. destruct H as (H1 & H2 & H3 & H4 & H5 & H6 & H7).
  split; [|vm_compute; reflexivity].
  exact (fixed_parameter_after_loop (E := example_extern) c 1 [2; 6] (fun _ => 0)
           example_globals example_res [8] [10] 0 0 Ares
           H1 H2 H3 H4 H5 H6 H7).
Defined.

Lemma fixed_value_is_reported_witness :
  let c := example_config rmAddProp [1; 0; 0; 0]%Z 0 in
  let r' := fst (fst (fit_residuals (E := example_extern) c 1 [2; 6] (fun _ => 0)
                        example_globals example_res [8] [10])) in
  ((0 <= nb_fixResid c)%Z /\ (nb_fixResid c < 1)%Z /\ (1 < 2 ^ 32)%Z
   /\ (0 < nendpnt c)%nat
   /\ in_range 0 example_res
   /\ nth_error (slots (nth 0 (res_mod c) 0%Z)) 0 = Some Ares
   /\ nth (nth 0 (res_offset c) O + 0) (resFixed c) 0%Z = 1%Z
   /\ (nth 0 (res_offset c) O + 0 < List.length [0; 0; 0; 0])%nat)
  /\ at_ (report_vcsig2 c r' [0; 0; 0; 0]) (nth 0 (res_offset c) O + 0)
     = at_ (resValue c) (nth 0 (res_offset c) O + 0)
  /\ report_vcsig2 c r' [0; 0; 0; 0] = [0.25; 6.5; 0; 0].
Proof.
  intros c r'.
  assert ((0 <= nb_fixResid c)%Z /\ (nb_fixResid c < 1)%Z /\ (1 < 2 ^ 32)%Z
          /\ (0 < nendpnt c)%nat
          /\ in_range 0 example_res
          /\ nth_error (slots (nth 0 (res_mod c) 0%Z)) 0 = Some Ares
          /\ nth (nth 0 (res_offset c) O + 0) (resFixed c) 0%Z = 1%Z
          /\ (nth 0 (res_offset c) O + 0 < List.length [0; 0; 0; 0])%nat) as H.
  { unfold in_range. simpl. repeat split; try lia; reflexivity. }
  split; [exact H|]. destruct H as (H1 & H2 & H3 & H4 & H5 & H6 & H7 & H8).
  split; [|vm_compute; reflexivity].
  apply (fixed_value_is_reported (E := example_extern) c 1 [2; 6] (fun _ => 0)
           example_globals example_res [8] [10] [0; 0; 0; 0] 0 0 Ares
           H1 H2 H3 H4 H5 H6 H7 H8).
  intros b' Hb' Hne. simpl in Hb'. lia.
Defined.

Lemma fixed_flags_need_a_later_iteration_witness :
  let c := example_config rmAddProp [0; 0; 0; 0]%Z 0 in
  fit_endpoint (E := example_extern) (with_fixed c [1; 1; 1; 1]%Z [9; 9; 9; 9])
               0 [2; 6] (fun _ => 0) example_globals example_res [8] 0
  = fit_endpoint (E := example_extern) c 0 [2; 6] (fun _ => 0)
                 example_globals example_res [8] 0
  /\ fst (fst (fit_endpoint (E := example_extern)
                 (with_fixed c [1; 1; 1; 1]%Z [9; 9; 9; 9])
                 0 [2; 6] (fun _ => 0) example_globals example_res [8] 0))
     = {| ares := [4]; bres := [9]; cres := [0.5]; lres := [0.25] |}.
Proof.
  intros c. split; [|vm_compute; reflexivity].
  apply (fixed_flags_need_a_later_iteration (E := example_extern) c 0 [2; 6]
           (fun _ => 0) example_globals example_res [8] 0).
  left. reflexivity.
Defined.

Lemma all_fixed_skips_minimizer_witness :
  let c := example_config rmAddProp [1; 1; 0; 0]%Z 0 in
  let out := fit_endpoint (E := example_extern) c 1 [2; 6] (fun _ => 0)
               example_globals example_res [8] 0 in
  ((0 <= nb_fixResid c)%Z /\ (nb_fixResid c < 1)%Z /\ (1 < 2 ^ 32)%Z
   /\ in_range 0 example_res
   /\ uses_minimizer (nth 0 (res_mod c) 0%Z) = true)
  /\ (exists p, prep_endpoint (E := example_extern) c 1 example_globals example_res 0
                = Some p
        /\ p_n p = O
        /\ _saemOpt (E := example_extern) (snd (fst out)) (p_n p) [7; 8] = [7; 8])
  /\ fst (fst out)
     = {| ares := [0.25]; bres := [0.5]; cres := [0.5]; lres := [0.25] |}.
Proof.
  intros c out.
  assert ((0 <= nb_fixResid c)%Z /\ (nb_fixResid c < 1)%Z /\ (1 < 2 ^ 32)%Z
          /\ in_range 0 example_res
          /\ uses_minimizer (nth 0 (res_mod c) 0%Z) = true) as H.
  { unfold in_range. simpl. repeat split; try lia; reflexivity. }
  split; [exact H|]. destruct H as (H1 & H2 & H3 & H4 & H5).
  split; [|vm_compute; reflexivity].
  destruct (all_fixed_skips_minimizer (E := example_extern) c 1 [2; 6] (fun _ => 0)
              example_globals example_res [8] [7; 8] 0 H1 H2 H3 H4 H5)
    as (p & Hp & Hn & Hopt & _).
  { intros [|[|j]] Hj; try reflexivity. simpl in Hj. lia. }
  exists p. auto.
Defined.

Lemma saemOpt_writes_front_witness :
  let G := snd (fst (fit_endpoint (E := example_extern)
                       (example_config rmAddProp [0; 0; 0; 0]%Z 0) 0 [2; 6]
                       (fun _ => 0) example_globals example_res [8] 0)) in
  _saemStart G = [1; 2]
  /\ List.length (_saemOpt (E := example_extern) G 2 [7; 8; 9]) = 3%nat
  /\ at_ (_saemOpt (E := example_extern) G 2 [7; 8; 9]) 2 = 9
  /\ _saemOpt (E := example_extern) G 2 [7; 8; 9] = [2; 3; 9].
Proof.
  intros G. split; [reflexivity|].
  destruct (saemOpt_writes_front (E := example_extern) G 2 [7; 8; 9])
    as (Hl & Hat & _).
  - simpl. lia.
  - vm_compute. lia.
  - intros x Hx. vm_compute in Hx. injection Hx as <-. simpl. lia.
  - split; [exact Hl|]. split; [|vm_compute; reflexivity].
    exact (Hat 2%nat (le_n 2)).
Defined.

Lemma correlation_burnin_is_diagonal_witness :
  let c := with_two_effects (example_config rmAdd [0; 0; 0; 0]%Z 0) 5 in
  let G := update_Gamma2_phi1 c 3 (Mat 2 2 [2; 0.7; 0.7; 3]) (Mat 2 2 [1; 0; 0; 1]) in
  ule 3 (nb_correl c) = true
  /\ mat_at G 0 1 = 0
  /\ G = Mat 2 2 [2; 0; 0; 3].
Proof.
  intros c G. split; [reflexivity|]. split; [|vm_compute; reflexivity].
  apply (correlation_burnin_is_diagonal c 3 (Mat 2 2 [2; 0.7; 0.7; 3])
           (Mat 2 2 [1; 0; 0; 1]) 0 1);
    try (repeat split; reflexivity); try reflexivity; simpl; lia.
Defined.

Lemma do_mcmc_frame_witness :
  let candidate := fun (_ _ : nat) (phiM : mat) =>
                     (mat_map (fun x => x + 1) phiM, [0; 0], [0; 0], [0.5; 0.5]) in
  let phiM := Mat 2 2 [1; 2; 3; 4] in
  let out := do_mcmc (E := example_extern) candidate 2 2 1 [1%nat]
                     (phiM, [5; 5], [1; 1]) in
  (wf_mat phiM /\ (List.length [5; 5] <= n_rows phiM)%nat)
  /\ mat_at (fst (fst out)) 0 0 = mat_at phiM 0 0
  /\ fst (fst out) = Mat 2 2 [1; 2; 4; 5].
Proof.
  intros candidate phiM out.
  assert (wf_mat phiM /\ (List.length [5; 5] <= n_rows phiM)%nat) as H
      by (split; [reflexivity|simpl; lia]).
  split; [exact H|]. destruct H as [H1 H2].
  split; [|vm_compute; reflexivity].
  destruct (do_mcmc_frame (E := example_extern) candidate 2 2 1 [1%nat] phiM
              [5; 5] [1; 1] H1 H2) as (_ & _ & Hf & _).
  apply Hf; [simpl; lia|simpl; lia|reflexivity].
Defined.

Lemma unknown_distribution_skips_iteration_witness :
  supported 4 = false
  /\ example_saem_fit 4
     = saem_fit Z nat unit nat
         (fun _ => None)
         (fun d => (with_distribution (example_config rmAdd [0; 0; 0; 0]%Z 0) d, O))
         (fun _ s => inr s)
         (fun _ _ s => inr s)
         (fun _ _ _ => inl tt)
         (fun _ s => s)
         4%Z.
Proof.
  split; [reflexivity|]. unfold example_saem_fit.
  apply (unknown_distribution_skips_iteration Z nat unit nat (fun _ => None)
           (fun d => (with_distribution (example_config rmAdd [0; 0; 0; 0]%Z 0) d, O))
           (fun _ s => inr s) (fun _ _ s => inr s) (fun _ s => s)
           (fun _ _ s => inr (S s)) (fun _ _ _ => inl tt) 4%Z).
  reflexivity.
Defined.

Lemma estimate_coordinate_in_range_witness :
  is_nan 25 = false
  /\ (0 <=? _saemPowR example_globals) = true
  /\ (exists y, toPowEst (E := example_extern) example_globals 25
                = _powerD (Extern := example_extern) y 1 4
                          (- _saemPowR example_globals) (_saemPowR example_globals)
                /\ (- 0.99 * _saemPowR example_globals <=? y)
                   && (y <=? 0.99 * _saemPowR example_globals) = true)
  /\ toPowEst (E := example_extern) example_globals 25 = 9.9.
Proof.
  split; [reflexivity|]. split; [reflexivity|].
  split; [|vm_compute; reflexivity].
  destruct (estimate_coordinate_in_range (E := example_extern) example_globals 25
              eq_refl) as [H _].
  exact (H eq_refl).
Defined.

Lemma nan_observation_stops_update_witness :
  let c := example_config rmAdd [0; 0; 0; 0]%Z 0 in
  let E := {| log := fun _ => 0; pow := fun x _ => x;
              _powerD := fun x _ _ _ _ => if x =? 5 then nan else x;
              _powerDi := fun x _ _ _ _ => x;
              dot := @dot example_extern; crossprod := @crossprod example_extern;
              nelder_fn := @nelder_fn example_extern;
              optimize1 := @optimize1 example_extern;
              newuoa := @newuoa example_extern |} in
  let s := {| statphi11 := Mat 1 1 [0]; statphi12 := Mat 1 1 [0];
              statphi01 := Mat 1 0 []; statphi02 := Mat 0 0 [];
              statrese := [0] |} in
  is_nan (transform (E := E) c 0 5) = true
  /\ statr_sum (E := E) c [2; 6] = None
  /\ update_stats (E := E) c 0 (Mat 1 1 [2]) [2; 6] s = None.
Proof.
  intros c E s. split; [reflexivity|].
  apply (nan_observation_stops_update (E := E) c 0 (Mat 1 1 [2]) [2; 6] s 0 5).
  - simpl. lia.
  - simpl. lia.
  - simpl. auto.
  - simpl. lia.
  - reflexivity.
Defined.

Lemma objective_ignores_scale_sign_witness :
  let G := example_problem Obj 1 [2; 6] [3; 5] in
  In 1%nat (scale_coords (_saemFn G))
  /\ call_saemFn (E := example_extern) G (flip_at 1 [1; 0.5])
     = call_saemFn (E := example_extern) G [1; 0.5]
  /\ flip_at 1 [1; 0.5] = [1; -0.5].
Proof.
  intros G.
  assert (In 1%nat (scale_coords (_saemFn G))) as H by (simpl; auto).
  split; [exact H|]. split; [|vm_compute; reflexivity].
  apply (objective_ignores_scale_sign (E := example_extern) G [1; 0.5] 1); auto.
  intros [|[|[|[|[|i]]]]]; reflexivity.
Defined.
